(** * The recursive tracer of RayTracer.cpp

    A shallow embedding of [RayTracer::trace], [traceRay], [traceReflection],
    [traceRefraction], [IsLeavingObject], [GetFresnelCoeff], [traceLines] and
    [tracePixel], and the properties of the recursion, of the material stack
    and of the Fresnel blend that the specification states about them.

    - C++ [double] is IEEE binary64: Rocq's primitive [float], whose
      operations are the correctly rounded ones the C++ operators compute.
    - [vec3f] comes from vecmath/vecmath.h, which is not among the sources:
      its operations are an interface ([VecMath]).
    - The scene, the materials' [shade], [pow], [rand] and the cone sampler
      are collaborators ([Externals]).
    - Calls are run in a small monad [M]: the hidden state of [rand], a ghost
      trail of the calls made on the scene, of the calls of [shade] with the
      rays they put to the scene, and of the entries to [traceRay], and two
      ways of not returning a value: undefined behaviour of the C++ code
      ([Undefined]) and exhausted recursion fuel ([OutOfFuel]). *)

From Stdlib Require Import ZArith Lia Bool Floats Uint63.
From Stdlib Require Import String.
From stdpp Require Import base decidable option list list_numbers relations.

Set Warnings "-inexact-float".

Local Open Scope Z_scope.

(** ** Numbers *)

(** C++ [double]. *)
Definition double : Set := float.
Bind Scope float_scope with double.

Definition INT_MIN : Z := - 2 ^ 31.
Definition INT_MAX : Z := 2 ^ 31 - 1.

(** [double(i)] for an [int] i: exact, every 32-bit integer is a binary64. *)
Definition int_to_double (z : Z) : double :=
  if z <? 0 then PrimFloat.opp (PrimFloat.of_uint63 (Uint63.of_Z (- z)))
  else PrimFloat.of_uint63 (Uint63.of_Z z).

(** [(int)x] for a [double] x: truncation toward zero; the conversion of a
    NaN, an infinity or a value outside [int] is undefined ([None]). *)
Definition double_to_int (x : double) : option Z :=
  match Prim2SF x with
  | S754_zero _ => Some 0
  | S754_finite s m e =>
      let mag := Z.shiftl (Z.pos m) e in
      let v := if s then - mag else mag in
      if (INT_MIN <=? v) && (v <=? INT_MAX) then Some v else None
  | _ => None
  end.

(** A zero or a finite number, among the values of a double. *)
Definition SF_finite (x : spec_float) : Prop :=
  match x with S754_zero _ | S754_finite _ _ _ => True | _ => False end.

(** [(unsigned char)n] for an [int] n. *)
Definition int_to_uchar (n : Z) : Z := n mod 256.

(** ** vecmath *)

(** The operations of [vec3f] that RayTracer.cpp uses, in the order it uses
    them. vecmath/vecmath.h is not among the sources, so nothing is assumed
    about them besides their types. *)
Class VecMath := {
  vec3f : Type;
  (** [vec3f(x, y, z)] *)
  vec3f_make : double -> double -> double -> vec3f;
  (** [v[i]] *)
  vec3f_get : vec3f -> Z -> double;
  (** [v.clamp()] *)
  clamp : vec3f -> vec3f;
  (** [prod(a, b)] *)
  prod : vec3f -> vec3f -> vec3f;
  (** [a + b], [a - b], [-a] *)
  vec3f_add : vec3f -> vec3f -> vec3f;
  vec3f_sub : vec3f -> vec3f -> vec3f;
  vec3f_neg : vec3f -> vec3f;
  (** [d * v], [v * d], [v / d] for a [double] d *)
  vec3f_scale : double -> vec3f -> vec3f;
  vec3f_times : vec3f -> double -> vec3f;
  vec3f_div : vec3f -> double -> vec3f;
  (** [a.dot(b)], [v.normalize()], [v.iszero()] *)
  dot : vec3f -> vec3f -> double;
  normalize : vec3f -> vec3f;
  iszero : vec3f -> bool
}.

Declare Scope vec_scope.
Delimit Scope vec_scope with vec.
Notation "a + b" := (vec3f_add a b) : vec_scope.
Notation "a - b" := (vec3f_sub a b) : vec_scope.
Notation "- a" := (vec3f_neg a) : vec_scope.

Section Tracer.

Context {V : VecMath}.

(** Modelled from the spec: the default constructor [vec3f()] of the absent
    vecmath.h; the spec calls its value zero radiance ("return zero"). *)
Definition vec3f_zero : vec3f := vec3f_make 0 0 0.

(** ** The data of a trace *)

(** scene/ray.h is not among the sources; the spec's ray is an origin and a
    direction, [at(t)] the point at parameter t, [getDirection()] the
    direction. *)
Record ray := { ray_p : vec3f; ray_d : vec3f }.

Definition getDirection (r : ray) : vec3f := ray_d r.

(** Modelled from the spec: [ray::at] of the absent scene/ray.h, the point
    at parametric distance t along the ray. *)
Definition ray_at (r : ray) (t : double) : vec3f :=
  (ray_p r + vec3f_scale t (ray_d r))%vec.

(** The fields of [Material] that the tracer reads. *)
Record Material := { kr : vec3f; kt : vec3f; index : double }.

(** A [const Material*]. The materials of a scene live in the scene; the
    only other material the tracer ever points to is the local [air] of
    [trace], whose address no scene object can have. *)
Inductive MaterialPtr := AirLocal | SceneMaterial (a : positive).

#[global] Instance MaterialPtr_eq_dec : EqDecision MaterialPtr.
Proof. solve_decision. Defined.

(** The intersection record: distance [t], normal [N], and the material of
    the object hit ([getMaterial()] returns a reference to it). *)
Record isect := { isect_t : double; isect_N : vec3f; isect_material : positive }.

Definition getMaterial (i : isect) : MaterialPtr := SceneMaterial (isect_material i).

(** The scene as the tracer consumes it: nearest-hit query and camera. *)
Record Scene := {
  intersect : ray -> option isect;
  rayThrough : double -> double -> ray;
  getAspectRatio : double
}.

(** [struct TraceParam]; [scene] is a [Scene*] (None is the null pointer),
    [r] points to a ray that outlives the call. *)
Record TraceParam := {
  scene : option Scene;
  r : ray;
  thresh : vec3f;
  depth : Z;
  material_stack : list MaterialPtr
}.

(** The members of [RayTracer] that tracing reads or writes. *)
Record RayTracer := {
  buffer : option (list Z);
  buffer_width : Z;
  buffer_height : Z;
  tracer_scene : option Scene
}.

(** The settings of [TraceUI] read through [traceUI->...]. *)
Record TraceUI := {
  m_nDepth : Z;
  m_is_enable_reflection : bool;
  m_glossy_reflection_sample : Z;
  m_is_enable_fresnel : bool;
  m_fresnel_ratio : double;
  m_is_enable_refraction : bool;
  m_intensity_threshold : double;
  m_super_sampling : Z
}.

(** ** The run of a call *)

Inductive Event :=
  | EvRayThrough (x y : double)
  | EvIntersect (q : ray)
  | EvShade (shadow_rays : list ray)
  | EvTraceRay (p : TraceParam).

Record World := { rand_state : Z; trail : list Event }.

Inductive Outcome (A : Type) :=
  | Done (a : A) (w : World)
  | Undefined
  | OutOfFuel.
Arguments Done {A} a w.
Arguments Undefined {A}.
Arguments OutOfFuel {A}.

Definition M (A : Type) : Type := World -> Outcome A.

#[global] Instance M_ret : MRet M := fun A a w => Done a w.
#[global] Instance M_bind : MBind M := fun A B f m w =>
  match m w with
  | Done a w' => f a w'
  | Undefined => Undefined
  | OutOfFuel => OutOfFuel
  end.

Definition undefined {A} : M A := fun _ => Undefined.
Definition out_of_fuel {A} : M A := fun _ => OutOfFuel.

Definition record (e : Event) : M unit := fun w =>
  Done tt {| rand_state := rand_state w; trail := trail w ++ [e] |}.

(** Dereferencing a pointer that may be null. *)
Definition deref {A} (p : option A) : M A :=
  match p with Some a => mret a | None => undefined end.

(** ** Collaborators *)

(** What a call of [Material::shade] does: the colour it returns, the rays
    it puts to the scene on the way (its shadow rays) and the state it
    leaves [rand] in. *)
Record Shading := {
  shading_colour : vec3f;
  shading_rays : list ray;
  shading_rand : Z
}.

Class Externals := {
  (** the configuration object behind the global [traceUI] *)
  traceUI : TraceUI;
  (** [RAY_EPSILON] of scene/ray.h *)
  RAY_EPSILON : double;
  (** [pow] of <cmath> *)
  pow : double -> double -> double;
  (** the materials of the loaded scenes, by address *)
  scene_material : positive -> Material;
  (** [Material::shade(scene, r, i)], of the absent scene/material.cpp, from
      the hidden state of [rand]: it is handed the scene, whose [intersect]
      it may call, and may draw from [rand] *)
  shade : Material -> Scene -> ray -> isect -> Z -> Shading;
  (** [rand()]: from its hidden state, the value and the next state *)
  c_rand : Z -> Z * Z;
  RAND_MAX : Z;
  (** [VecConeGenerator(center, x).Generate()], which draws from [rand] *)
  cone_Generate : vec3f -> double -> Z -> vec3f * Z
}.

Context {E : Externals}.

(** The getters of ui/TraceUI.h, each the setting of its name. *)
Definition getDepth : Z := m_nDepth traceUI.
Definition GetIntensityThreshold : double := m_intensity_threshold traceUI.
Definition IsEnableReflection : bool := m_is_enable_reflection traceUI.
Definition IsEnableRefraction : bool := m_is_enable_refraction traceUI.
Definition IsEnableFresnel : bool := m_is_enable_fresnel traceUI.
Definition GetFresnelRatio : double := m_fresnel_ratio traceUI.
Definition GetGlossyReflectionSample : Z := m_glossy_reflection_sample traceUI.
Definition GetSuperSampling : Z := m_super_sampling traceUI.

(** Modelled from the spec: the default-constructed [Material air] of
    [trace]; scene/material.h is not among the sources, the spec gives the
    ambient medium index 1.0. Its [kr] and [kt] are never read. *)
Definition air : Material :=
  {| kr := vec3f_zero; kt := vec3f_zero; index := 1 |}.

(** [*p] for a material pointer. *)
Definition material_at (p : MaterialPtr) : Material :=
  match p with
  | AirLocal => air
  | SceneMaterial a => scene_material a
  end.

Definition rand : M Z := fun w =>
  let '(v, s) := c_rand (rand_state w) in
  Done v {| rand_state := s; trail := trail w |}.

Definition Generate (center : vec3f) (x : double) : M vec3f := fun w =>
  let '(v, s) := cone_Generate center x (rand_state w) in
  Done v {| rand_state := s; trail := trail w |}.

(** [m.shade(scene, r, i)]: the call is recorded on the trail with the rays
    it put to the scene. *)
Definition Material_shade (m : Material) (s : Scene) (q : ray) (i : isect) : M vec3f :=
  fun w =>
    let sh := shade m s q i (rand_state w) in
    Done (shading_colour sh)
      {| rand_state := shading_rand sh; trail := trail w ++ [EvShade (shading_rays sh)] |}.

(** [scene->intersect(r, i)] *)
Definition scene_intersect (s : Scene) (q : ray) : M (option isect) :=
  record (EvIntersect q);; mret (intersect s q).

(** [deque::front()]; undefined on an empty deque. *)
Definition front (s : list MaterialPtr) : M MaterialPtr := deref (head s).

(** [deque::operator[]]; undefined out of range. *)
Definition deque_at (s : list MaterialPtr) (n : nat) : M MaterialPtr := deref (s !! n).

(** The rays a trail put to the scene, in order: those of [traceRay] and
    the shadow rays of [shade]. *)
Definition scene_queries (t : list Event) : list ray :=
  flat_map (fun e => match e with
                     | EvIntersect q => [q]
                     | EvShade shadow_rays => shadow_rays
                     | _ => []
                     end) t.

(** The contexts a trail entered [traceRay] with, in order. *)
Definition entries (t : list Event) : list TraceParam :=
  omap (fun e => match e with EvTraceRay p => Some p | _ => None end) t.

(** [for (int k = from; k < to; ++k) acc = body(k, acc);] *)
Fixpoint for_loop {A} (n : nat) (k : Z) (body : Z -> A -> M A) (acc : A) : M A :=
  match n with
  | O => mret acc
  | S n' => acc' ← body k acc; for_loop n' (k + 1) body acc'
  end.

Definition for_range {A} (from to : Z) (body : Z -> A -> M A) (acc : A) : M A :=
  for_loop (Z.to_nat (to - from)) from body acc.

(** ** The tracer *)

Local Open Scope float_scope.

(** [RayTracer::IsLeavingObject]: the hit material is, by address, the front
    of the material stack. *)
Definition IsLeavingObject (param : TraceParam) (i : isect) : M bool :=
  m ← front (material_stack param);
  mret (bool_decide (getMaterial i = m)).

(** The discriminant [1 - nr * nr * (1 - dot_rn * dot_rn)], written out in
    both [traceRefraction] and [GetFresnelCoeff]. *)
Definition discriminant (nr dot_rn : double) : double :=
  1 - nr * nr * (1 - dot_rn * dot_rn).

(** The value returned by [GetFresnelCoeff] once [ni], [nt] and [dot_rn]
    are known. *)
Definition schlick (ni nt dot_rn : double) : double :=
  let r0 := (ni - nt) / (ni + nt) in
  let r0 := r0 * r0 in
  if ni <=? nt then r0 + (1 - r0) * pow (1 - dot_rn) 5
  else
    let nr := ni / nt in
    let root := discriminant nr dot_rn in
    if root <? 0 then 1
    else
      let cos_theta_t := PrimFloat.sqrt (1 - (ni / nt)) in
      r0 + (1 - r0) * pow (1 - cos_theta_t) 5.

(** [RayTracer::GetFresnelCoeff] *)
Definition GetFresnelCoeff (param : TraceParam) (i : isect) : M double :=
  leaving ← IsLeavingObject param i;
  m ← front (material_stack param);
  let ni := if leaving : bool then index (material_at (getMaterial i)) else index (material_at m) in
  let nt := if leaving : bool then index (material_at m) else index (material_at (getMaterial i)) in
  let dot_rn := dot (isect_N i) (- getDirection (r param))%vec in
  mret (schlick ni nt dot_rn).

(** [out_point] of [traceReflection]: the hit point pushed outwards along
    the normal. *)
Definition out_point (param : TraceParam) (i : isect) : vec3f :=
  (ray_at (r param) (isect_t i) + vec3f_times (isect_N i) RAY_EPSILON)%vec.

(** [center_dir] of [traceReflection] *)
Definition center_dir (param : TraceParam) (i : isect) : vec3f :=
  let dot_rn := dot (isect_N i) (- getDirection (r param))%vec in
  normalize (vec3f_scale (2 * dot_rn) (isect_N i) - - getDirection (r param))%vec.

(** [RayTracer::traceReflection]; [traceRay] is the function it recurses
    into. The scene of the spawned contexts is the tracer's own member
    ([next_param.scene = scene]), not the one of [param]. *)
Definition traceReflection (traceRay : TraceParam -> M vec3f) (self : RayTracer)
    (param : TraceParam) (i : isect) : M vec3f :=
  let m := material_at (getMaterial i) in
  if iszero (kr m) || (getDepth <=? depth param)%Z then mret vec3f_zero
  else
    let sample := GetGlossyReflectionSample in
    if (sample =? 0)%Z then
      let reflection_r := {| ray_p := out_point param i; ray_d := center_dir param i |} in
      traceRay {| scene := tracer_scene self;
                  r := reflection_r;
                  thresh := prod (thresh param) (kr m);
                  depth := (depth param + 1)%Z;
                  material_stack := material_stack param |}
    else
      intensity ← for_range 0 sample (fun _ intensity =>
          dir ← Generate (center_dir param i) 0.1;
          let reflection_r := {| ray_p := out_point param i; ray_d := dir |} in
          c ← traceRay {| scene := tracer_scene self;
                          r := reflection_r;
                          thresh := prod (thresh param) (kr m);
                          depth := (depth param + 1)%Z;
                          material_stack := material_stack param |};
          mret (intensity + c)%vec) vec3f_zero;
      mret (vec3f_div intensity (int_to_double sample)).

(** The first half of [traceRefraction]: from the copy of the material
    stack, the indices [ni] and [nt] and the stack of the refracted ray. *)
Definition refraction_media (param : TraceParam) (i : isect)
    : M (double * double * list MaterialPtr) :=
  let m := material_at (getMaterial i) in
  let mat_stack := material_stack param in
  m2 ← front mat_stack;
  leaving ← IsLeavingObject param i;
  if leaving : bool then
    outside ← deque_at mat_stack 1;
    mret (index m, index (material_at outside), tail mat_stack)
  else
    mret (index (material_at m2), index m, getMaterial i :: mat_stack).

(** [RayTracer::traceRefraction] *)
Definition traceRefraction (traceRay : TraceParam -> M vec3f) (self : RayTracer)
    (param : TraceParam) (i : isect) : M vec3f :=
  let m := material_at (getMaterial i) in
  if negb (iszero (kt m)) && (depth param <? getDepth)%Z then
    '(ni, nt, mat_stack) ← refraction_media param i;
    let nr := ni / nt in
    let dot_rn := dot (isect_N i) (- getDirection (r param))%vec in
    let push_point :=
      (ray_at (r param) (isect_t i) - vec3f_times (isect_N i) RAY_EPSILON)%vec in
    let root := discriminant nr dot_rn in
    if root <? 0 then mret vec3f_zero
    else
      let coeff := nr * dot_rn - PrimFloat.sqrt root in
      let refraction_dir :=
        (vec3f_scale coeff (isect_N i) - vec3f_scale nr (- getDirection (r param)))%vec in
      let refraction_r := {| ray_p := push_point; ray_d := refraction_dir |} in
      traceRay {| scene := tracer_scene self;
                  r := refraction_r;
                  thresh := prod (thresh param) (kt m);
                  depth := (depth param + 1)%Z;
                  material_stack := mat_stack |}
  else mret vec3f_zero.

(** The Fresnel blend at the end of [traceRay]. *)
Definition fresnel_blend (param : TraceParam) (i : isect)
    (reflection refraction : vec3f) : M (vec3f * vec3f) :=
  let fresnel :=
    if IsEnableFresnel then
      m ← front (material_stack param);
      mret (negb (index (material_at m) =? 1)
            || negb (index (material_at (getMaterial i)) =? 1))
    else mret false in
  b ← fresnel;
  if b : bool then
    fresnel_coeff ← GetFresnelCoeff param i;
    let fresnel_ratio := GetFresnelRatio in
    mret ((vec3f_scale (fresnel_ratio * fresnel_coeff) reflection
           + vec3f_scale (1 - fresnel_ratio) reflection)%vec,
          (vec3f_scale (fresnel_ratio * (1 - fresnel_coeff)) refraction
           + vec3f_scale (1 - fresnel_ratio) refraction)%vec)
  else mret (reflection, refraction).

(** [if (IsLeavingObject(param, i)) i.N = -i.N;] in [traceRay] *)
Definition orient (leaving : bool) (i : isect) : isect :=
  if leaving
  then {| isect_t := isect_t i; isect_N := (- isect_N i)%vec;
          isect_material := isect_material i |}
  else i.

(** [RayTracer::traceRay]. The fuel bounds the nesting of its calls; an
    entry to it is recorded on the trail. *)
Fixpoint traceRay (fuel : nat) (self : RayTracer) (param : TraceParam) : M vec3f :=
  match fuel with
  | O => out_of_fuel
  | S fuel' =>
    record (EvTraceRay param);;
    if (vec3f_get (thresh param) 0 <=? GetIntensityThreshold)
       && (vec3f_get (thresh param) 1 <=? GetIntensityThreshold)
       && (vec3f_get (thresh param) 2 <=? GetIntensityThreshold)
    then mret vec3f_zero
    else
      s ← deref (scene param);
      hit ← scene_intersect s (r param);
      match hit with
      | Some i0 =>
        leaving ← IsLeavingObject param i0;
        let i := orient leaving i0 in
        let m := material_at (getMaterial i) in
        shade ← Material_shade m s (r param) i;
        let intensity := prod shade (thresh param) in
        reflection ← (if IsEnableReflection
                      then traceReflection (traceRay fuel' self) self param i
                      else mret vec3f_zero);
        refraction ← (if IsEnableRefraction
                      then traceRefraction (traceRay fuel' self) self param i
                      else mret vec3f_zero);
        '(reflection, refraction) ← fresnel_blend param i reflection refraction;
        mret (intensity + reflection + refraction)%vec
      | None => mret (vec3f_make 0 0 0)
      end
  end.

(** Nesting of [traceRay] calls that a context can still reach: one for the
    call itself and one per level of depth left. *)
Definition recursion_bound (param : TraceParam) : nat :=
  S (Z.to_nat (getDepth - depth param)).

(** [RayTracer::trace] *)
Definition trace (self : RayTracer) (scene : option Scene) (x y : double) : M vec3f :=
  s ← deref scene;
  record (EvRayThrough x y);;
  let param :=
    {| scene := scene; r := rayThrough s x y; thresh := vec3f_make 1 1 1;
       depth := 0%Z; material_stack := [AirLocal] |} in
  c ← traceRay (recursion_bound param) self param;
  mret (clamp c).

(** [pixel[k] = (int)(255.0 * c);] on the frame buffer *)
Definition store_channel (buf : option (list Z)) (offset : Z) (c : double) : M (option (list Z)) :=
  n ← deref (double_to_int (255 * c));
  b ← deref buf;
  if (0 <=? offset)%Z && (offset <? Z.of_nat (length b))%Z
  then mret (Some (<[Z.to_nat offset := int_to_uchar n]> b))
  else undefined.

(** [RayTracer::tracePixel] *)
Definition tracePixel (self : RayTracer) (i j : Z) : M RayTracer :=
  match tracer_scene self with
  | None => mret self
  | Some _ =>
    let x := int_to_double i / int_to_double (buffer_width self) in
    let y := int_to_double j / int_to_double (buffer_height self) in
    col ← (if (0 <? GetSuperSampling)%Z then
             let sample := GetSuperSampling in
             let pixel_w := 1 / int_to_double (buffer_width self) in
             let pixel_h := 1 / int_to_double (buffer_height self) in
             let sub_pixel_w := pixel_w / int_to_double sample in
             let sub_pixel_h := pixel_h / int_to_double sample in
             col ← for_range 0 sample (fun i col =>
                 let base_y := y + (int_to_double i / int_to_double sample - 0.5) * pixel_h in
                 for_range 0 sample (fun j col =>
                     let base_x := x + (int_to_double j / int_to_double sample - 0.5) * pixel_w in
                     ry ← rand;
                     let jitter_y := (int_to_double ry / int_to_double RAND_MAX - 0.5)
                                     * sub_pixel_h + base_y in
                     rx ← rand;
                     let jitter_x := (int_to_double rx / int_to_double RAND_MAX - 0.5)
                                     * sub_pixel_w + base_x in
                     c ← trace self (tracer_scene self) jitter_x jitter_y;
                     mret (col + c)%vec) col) vec3f_zero;
             mret (vec3f_div col (int_to_double (sample * sample)))
           else trace self (tracer_scene self) x y);
    let pixel := ((i + j * buffer_width self) * 3)%Z in
    b ← store_channel (buffer self) pixel (vec3f_get col 0);
    b ← store_channel b (pixel + 1) (vec3f_get col 1);
    b ← store_channel b (pixel + 2) (vec3f_get col 2);
    mret {| buffer := b; buffer_width := buffer_width self;
            buffer_height := buffer_height self; tracer_scene := tracer_scene self |}
  end.

(** [RayTracer::traceLines] *)
Definition traceLines (self : RayTracer) (start stop : Z) : M RayTracer :=
  match tracer_scene self with
  | None => mret self
  | Some _ =>
    let stop := if (buffer_height self <? stop)%Z then buffer_height self else stop in
    for_range start stop (fun j self =>
        for_range 0 (buffer_width self) (fun i self => tracePixel self i j) self) self
  end.

(** ** Statements about runs *)

(** The single mirror ray as the spec words it: direction [2 (N.V) N - V]
    normalized, for [V] the negated incoming direction; origin the hit
    point displaced by epsilon along the normal; attenuation the parent
    weight times [kr], channel by channel; depth + 1; the same material
    stack. *)
Definition mirror_ray_context (self : RayTracer) (param : TraceParam) (i : isect)
    : TraceParam :=
  let V := (- getDirection (r param))%vec in
  let N := isect_N i in
  {| scene := tracer_scene self;
     r := {| ray_p := (ray_at (r param) (isect_t i) + vec3f_times N RAY_EPSILON)%vec;
             ray_d := normalize (vec3f_scale (2 * dot N V) N - V)%vec |};
     thresh := prod (thresh param) (kr (material_at (getMaterial i)));
     depth := (depth param + 1)%Z;
     material_stack := material_stack param |}.

(** [wp u f m w post]: the run of [m] from [w] ends in a value and a world
    that satisfy [post]; [u] says whether it may instead be undefined, [f]
    whether it may run out of fuel. *)
Definition wp {A} (u f : Prop) (m : M A) (w : World) (post : A -> World -> Prop) : Prop :=
  match m w with
  | Done a w' => post a w'
  | Undefined => u
  | OutOfFuel => f
  end.

(** [w'] is [w] after more events, every entry to [traceRay] among them
    with a context that satisfies [Q]. *)
Definition extends (Q : TraceParam -> Prop) (w w' : World) : Prop :=
  exists evs, trail w' = trail w ++ evs /\ Forall Q (entries evs).

(** The stack of a context ends in the air sentinel, so it is not empty. *)
Definition air_at_bottom (p : TraceParam) : Prop :=
  last (material_stack p) = Some AirLocal.

(** A context from which the run cannot go wrong: it has a scene, and its
    stack ends in the air sentinel. *)
Definition well_formed (p : TraceParam) : Prop :=
  is_Some (scene p) /\ air_at_bottom p.

End Tracer.

Arguments Done {V A} a w.
Arguments Undefined {V A}.
Arguments OutOfFuel {V A}.

(** ** A concrete vecmath, concrete collaborators and concrete scenes

    Used to run the tracer: every property below that has a premise is
    instantiated on them. *)
Module Demo.

Local Open Scope float_scope.

Record v3 := V3 { vx : double; vy : double; vz : double }.

Definition v3_map2 (f : double -> double -> double) (a b : v3) : v3 :=
  V3 (f (vx a) (vx b)) (f (vy a) (vy b)) (f (vz a) (vz b)).

Definition v3_map (f : double -> double) (a : v3) : v3 :=
  V3 (f (vx a)) (f (vy a)) (f (vz a)).

Definition v3_dot (a b : v3) : double := vx a * vx b + vy a * vy b + vz a * vz b.

Definition clamp01 (c : double) : double :=
  if c <? 0 then 0 else if 1 <? c then 1 else c.

(** Modelled from the spec: the [vec3f] of the absent vecmath/vecmath.h, three
    doubles with per-channel operations, [clamp] to [0,1] per channel,
    [normalize] to unit length, [iszero] true of the zero vector. *)
Definition vecmath : VecMath := {|
  vec3f := v3;
  vec3f_make := V3;
  vec3f_get := fun v i => if (i =? 0)%Z then vx v else if (i =? 1)%Z then vy v else vz v;
  clamp := v3_map clamp01;
  prod := v3_map2 PrimFloat.mul;
  vec3f_add := v3_map2 PrimFloat.add;
  vec3f_sub := v3_map2 PrimFloat.sub;
  vec3f_neg := v3_map PrimFloat.opp;
  vec3f_scale := fun d => v3_map (PrimFloat.mul d);
  vec3f_times := fun v d => v3_map (fun c => c * d) v;
  vec3f_div := fun v d => v3_map (fun c => c / d) v;
  dot := v3_dot;
  normalize := fun v => v3_map (fun c => c / PrimFloat.sqrt (v3_dot v v)) v;
  iszero := fun v => (vx v =? 0) && (vy v =? 0) && (vz v =? 0)
|}.

#[local] Existing Instance vecmath.

Definition mirror : Material :=
  {| kr := V3 1 1 1; kt := V3 0 0 0; index := 1 |}.
Definition glass : Material :=
  {| kr := V3 0 0 0; kt := V3 0.5 0.5 0.5; index := 1.5 |}.
Definition matte : Material :=
  {| kr := V3 0 0 0; kt := V3 0 0 0; index := 1 |}.
(** a material file giving the index 0 *)
Definition void : Material :=
  {| kr := V3 0 0 0; kt := V3 0.5 0.5 0.5; index := 0 |}.
(** a full mirror of index 0.5 *)
Definition thin_mirror : Material :=
  {| kr := V3 1 1 1; kt := V3 0 0 0; index := 0.5 |}.

Definition materials (a : positive) : Material :=
  match a with
  | 1%positive => mirror
  | 2%positive => glass
  | 3%positive => void
  | 5%positive => thin_mirror
  | _ => matte
  end.

(** A double that is a number: neither a NaN nor an infinity. *)
Definition finite (x : double) : Prop := PrimFloat.is_finite x = true.

(** A double that is not a NaN. *)
Definition not_nan (x : double) : Prop := PrimFloat.is_nan x = false.

(** A finite double from 0 to 1: a clamped channel. *)
Definition in_unit (x : double) : Prop :=
  PrimFloat.is_finite x = true /\ (0 <=? x) = true /\ (x <=? 1) = true.

(** A property of the three channels of a colour. *)
Definition channels (P : double -> Prop) (c : v3) : Prop :=
  P (vx c) /\ P (vy c) /\ P (vz c).

(** The settings of [TraceUI::TraceUI()], with the depth limit given. *)
Definition ui (depth_limit : Z) : TraceUI :=
  {| m_nDepth := depth_limit;
     m_is_enable_reflection := true;
     m_glossy_reflection_sample := 0;
     m_is_enable_fresnel := false;
     m_fresnel_ratio := 1;
     m_is_enable_refraction := true;
     m_intensity_threshold := 0.01;
     m_super_sampling := 0 |}.

Definition ui_glossy (depth_limit samples : Z) : TraceUI :=
  {| m_nDepth := depth_limit;
     m_is_enable_reflection := true;
     m_glossy_reflection_sample := samples;
     m_is_enable_fresnel := false;
     m_fresnel_ratio := 1;
     m_is_enable_refraction := true;
     m_intensity_threshold := 0.01;
     m_super_sampling := 0 |}.

Definition ui_fresnel (depth_limit : Z) : TraceUI :=
  {| m_nDepth := depth_limit;
     m_is_enable_reflection := true;
     m_glossy_reflection_sample := 0;
     m_is_enable_fresnel := true;
     m_fresnel_ratio := 0.5;
     m_is_enable_refraction := true;
     m_intensity_threshold := 0.01;
     m_super_sampling := 0 |}.

(** A linear congruential [rand]. *)
Definition lcg (s : Z) : Z * Z :=
  let s' := ((s * 1103515245 + 12345) mod 2 ^ 31)%Z in
  ((s' / 65536) mod 32768, s')%Z.

(** Collaborators: a five-fold product for [pow(x, 5)], a constant local
    shade, and a cone sampler that draws twice and returns the cone's axis. *)
Definition externals (u : TraceUI) : Externals :=
  {| traceUI := u;
     RAY_EPSILON := 0.00001;
     pow := fun x _ => x * x * x * x * x;
     scene_material := materials;
     shade := fun _ _ _ _ st =>
       {| shading_colour := V3 0.25 0.25 0.25; shading_rays := []; shading_rand := st |};
     c_rand := lcg;
     RAND_MAX := 32767;
     cone_Generate := fun center _ s => (center, snd (lcg (snd (lcg s)))) |}.

(** A scene in which every ray hits the object of material [a] at distance
    1 with normal (0,0,1); the camera looks down the z axis. *)
Definition sphere (a : positive) : Scene :=
  {| intersect := fun _ => Some {| isect_t := 1; isect_N := V3 0 0 1; isect_material := a |};
     rayThrough := fun x y => {| ray_p := V3 x y 1; ray_d := V3 0 0 (-1) |};
     getAspectRatio := 1 |}.

(** The fully mirrored sphere of the spec: kr = (1,1,1), kt = 0. *)
Definition mirrored_sphere : Scene := sphere 1.

Definition tracer (s : option Scene) : RayTracer :=
  {| buffer := Some (replicate 12 0%Z); buffer_width := 2; buffer_height := 2;
     tracer_scene := s |}.

Definition world0 : World := {| rand_state := 1; trail := [] |}.

Definition hit (a : positive) : isect :=
  {| isect_t := 1; isect_N := V3 0 0 1; isect_material := a |}.

(** A context at [depth] inside the media of [stack], its ray going down
    the z axis with the z component [dz]. *)
Definition context (s : option Scene) (weight : v3) (dz : double) (depth : Z)
    (stack : list MaterialPtr) : TraceParam :=
  {| scene := s; r := {| ray_p := V3 0 0 1; ray_d := V3 0 0 dz |};
     thresh := weight; depth := depth; material_stack := stack |}.

End Demo.

(** * The rest of the tracer, and its scheduler *)

Section Renderer.

Context {V : VecMath} {E : Externals}.

Local Open Scope Z_scope.

(** The image coordinates a trail asked the camera a ray for, in order. *)
Definition camera_rays (t : list Event) : list (double * double) :=
  omap (fun e => match e with EvRayThrough x y => Some (x, y) | _ => None end) t.

(** The rays [traceRay] itself put to the scene on a trail, in order. *)
Definition tracer_queries (t : list Event) : list ray :=
  omap (fun e => match e with EvIntersect q => Some q | _ => None end) t.

(** The calls of [shade] on a trail, in order, each with its shadow rays. *)
Definition shade_calls (t : list Event) : list (list ray) :=
  omap (fun e => match e with EvShade shadow_rays => Some shadow_rays | _ => None end) t.

(** The rays one call of [traceReflection] traces: one at glossy sample
    count 0, the sample count otherwise (none for a negative count). *)
Definition reflection_rays : nat :=
  if GetGlossyReflectionSample =? 0 then 1%nat else Z.to_nat GetGlossyReflectionSample.

(** [1 + (g + 1) + (g + 1)^2 + ... + (g + 1)^n] *)
Fixpoint calls_bound (g n : nat) : nat :=
  match n with
  | O => 1
  | S n' => 1 + (g + 1) * calls_bound g n'
  end.

(** [( i + j * buffer_width ) * 3], the offset of [pixel] in [tracePixel]. *)
Definition pixel_offset (self : RayTracer) (i j : Z) : Z :=
  (i + j * buffer_width self) * 3.

(** The frame buffer is allocated, with three bytes per pixel of the
    current width and height. *)
Definition frame_sized (self : RayTracer) : Prop :=
  exists b, buffer self = Some b
            /\ Z.of_nat (length b) = buffer_width self * buffer_height self * 3.

(** [w'] is [w] after more events: no request to the camera, at most [B]
    entries to [traceRay], no more queries of the scene by [traceRay]
    itself than entries, and no more calls of [shade] than such queries. *)
Definition grows (B : nat) (w w' : World) : Prop :=
  exists evs, trail w' = trail w ++ evs
    /\ camera_rays evs = []
    /\ (length (shade_calls evs) <= length (tracer_queries evs))%nat
    /\ (length (tracer_queries evs) <= length (entries evs))%nat
    /\ (length (entries evs) <= B)%nat.

(** [w'] is [w] after more events, [n] requests to the camera among them. *)
Definition asks_camera (n : nat) (w w' : World) : Prop :=
  exists evs, trail w' = trail w ++ evs /\ length (camera_rays evs) = n.

(** The colour [tracePixel] computes before it stores it: [col]. *)
Definition pixel_colour (self : RayTracer) (i j : Z) : M vec3f :=
  let x := (int_to_double i / int_to_double (buffer_width self))%float in
  let y := (int_to_double j / int_to_double (buffer_height self))%float in
  if 0 <? GetSuperSampling then
    let sample := GetSuperSampling in
    let pixel_w := (1 / int_to_double (buffer_width self))%float in
    let pixel_h := (1 / int_to_double (buffer_height self))%float in
    let sub_pixel_w := (pixel_w / int_to_double sample)%float in
    let sub_pixel_h := (pixel_h / int_to_double sample)%float in
    col ← for_range 0 sample (fun i col =>
        let base_y := (y + (int_to_double i / int_to_double sample - 0.5) * pixel_h)%float in
        for_range 0 sample (fun j col =>
            let base_x := (x + (int_to_double j / int_to_double sample - 0.5) * pixel_w)%float in
            ry ← rand;
            let jitter_y := ((int_to_double ry / int_to_double RAND_MAX - 0.5)
                             * sub_pixel_h + base_y)%float in
            rx ← rand;
            let jitter_x := ((int_to_double rx / int_to_double RAND_MAX - 0.5)
                             * sub_pixel_w + base_x)%float in
            c ← trace self (tracer_scene self) jitter_x jitter_y;
            mret (col + c)%vec) col) vec3f_zero;
    mret (vec3f_div col (int_to_double (sample * sample)))
  else trace self (tracer_scene self) x y.

(** The camera rays of one pixel: the square of the supersampling count,
    one without supersampling. *)
Definition pixel_samples : nat :=
  if (0 <? GetSuperSampling)%Z
  then (Z.to_nat GetSuperSampling * Z.to_nat GetSuperSampling)%nat else 1%nat.

(** [t] is [t0] with bytes changed in the frame buffer at the offsets from
    [lo] up to [hi] only, if at all: same width, height and scene, same
    allocation, same bytes elsewhere. *)
Definition frame_rel (lo hi : Z) (t0 t : RayTracer) : Prop :=
  buffer_width t = buffer_width t0
  /\ buffer_height t = buffer_height t0
  /\ tracer_scene t = tracer_scene t0
  /\ match buffer t0, buffer t with
     | Some b0, Some b =>
         length b = length b0
         /\ forall n : nat, Z.of_nat n < lo \/ hi <= Z.of_nat n -> b !! n = b0 !! n
     | None, None => True
     | _, _ => False
     end.

(** ** The other members and methods of [RayTracer] *)

(** A [RayTracer] with the two members that tracing does not touch. *)
Record RayTracerObject := {
  members : RayTracer;
  bufferSize : Z;
  m_bSceneLoaded : bool
}.

(** What the scene loading of fileio/ and [new] provide. *)
Inductive ReadResult :=
  | ParseError (msg : string)
  | SceneRead (s : option Scene).

Class Loader := {
  (** [readScene(fn)]: a scene pointer, or a [ParseError] thrown *)
  readScene : string -> ReadResult;
  (** [scene->initScene()], on the scene object *)
  initScene : Scene -> Scene;
  (** the bytes [new unsigned char[n]] returns, which it does not initialise *)
  uninitialised : nat -> Z
}.

Context {L : Loader}.

(** A value an [int] holds. *)
Definition in_int (z : Z) : bool := (INT_MIN <=? z) && (z <=? INT_MAX).

(** [a * b] on [int]; undefined when it overflows. *)
Definition int_mul (a b : Z) : M Z :=
  if in_int (a * b) then mret (a * b) else undefined.

(** [w * h * 3] on [int] *)
Definition frame_bytes (w h : Z) : M Z := p ← int_mul w h; int_mul p 3.

(** [new unsigned char[n]]; does not return for a negative [n]. *)
Definition new_bytes (n : Z) : M (list Z) :=
  if 0 <=? n then mret (map uninitialised (seq 0 (Z.to_nat n))) else undefined.

(** [memset(buffer, 0, n)]; undefined on a null pointer and beyond the
    allocation. *)
Definition memset_zero (buf : option (list Z)) (n : Z) : M (list Z) :=
  b ← deref buf;
  if (0 <=? n) && (n <=? Z.of_nat (length b))
  then mret (replicate (Z.to_nat n) 0 ++ drop (Z.to_nat n) b)
  else undefined.

(** [RayTracer::RayTracer()]; [bufferSize] is left as it was in memory. *)
Definition RayTracer_new (junk : Z) : RayTracerObject :=
  {| members := {| buffer := None; buffer_width := 256; buffer_height := 256;
                   tracer_scene := None |};
     bufferSize := junk;
     m_bSceneLoaded := false |}.

(** [RayTracer::getBuffer] *)
Definition getBuffer (self : RayTracerObject) : option (list Z) * Z * Z :=
  (buffer (members self), buffer_width (members self), buffer_height (members self)).

(** [RayTracer::aspectRatio] *)
Definition aspectRatio (self : RayTracerObject) : double :=
  match tracer_scene (members self) with
  | Some s => getAspectRatio s
  | None => 1%float
  end.

(** [RayTracer::sceneLoaded] *)
Definition sceneLoaded (self : RayTracerObject) : bool := m_bSceneLoaded self.

(** [RayTracer::loadScene]: the value it returns and the object after it. *)
Definition loadScene (self : RayTracerObject) (fn : string) : M (bool * RayTracerObject) :=
  match readScene fn with
  | ParseError _ => mret (false, self)
  | SceneRead None =>
      mret (false,
            {| members := {| buffer := buffer (members self);
                             buffer_width := buffer_width (members self);
                             buffer_height := buffer_height (members self);
                             tracer_scene := None |};
               bufferSize := bufferSize self;
               m_bSceneLoaded := m_bSceneLoaded self |})
  | SceneRead (Some s) =>
      let width := 256 in
      height ← deref (double_to_int (int_to_double width / getAspectRatio s + 0.5)%float);
      size ← frame_bytes width height;
      b ← new_bytes size;
      mret (true,
            {| members := {| buffer := Some b; buffer_width := width;
                             buffer_height := height;
                             tracer_scene := Some (initScene s) |};
               bufferSize := size;
               m_bSceneLoaded := true |})
  end.

(** [RayTracer::traceSetup] *)
Definition traceSetup (self : RayTracerObject) (w h : Z) : M RayTracerObject :=
  let t := members self in
  self ← (if negb (buffer_width t =? w) || negb (buffer_height t =? h) then
            size ← frame_bytes w h;
            b ← new_bytes size;
            mret {| members := {| buffer := Some b; buffer_width := w; buffer_height := h;
                                  tracer_scene := tracer_scene t |};
                    bufferSize := size;
                    m_bSceneLoaded := m_bSceneLoaded self |}
          else mret self);
  let t := members self in
  n ← frame_bytes w h;
  b ← memset_zero (buffer t) n;
  mret {| members := {| buffer := Some b; buffer_width := buffer_width t;
                        buffer_height := buffer_height t;
                        tracer_scene := tracer_scene t |};
          bufferSize := bufferSize self;
          m_bSceneLoaded := m_bSceneLoaded self |}.

(** ** The scheduler of TraceUI *)

(** The row bands [cb_render] hands to its workers: [partition] rows each,
    the last one up to [height]. The division by a zero thread count is
    undefined, and so is a bound that [int] does not hold. *)
Definition bands (height threads : Z) : option (list (Z * Z)) :=
  if (threads =? 0) || negb (in_int (threads - 1)) then None
  else
    let partition := Z.quot height threads in
    let l := map (fun i => (partition * i, partition * (i + 1))) (seqZ 0 (threads - 1))
             ++ [(partition * (threads - 1), height)] in
    if forallb (fun band => in_int (fst band) && in_int (snd band)) l
    then Some l else None.

(** The rows a worker goes through on a band, if it is not stopped. *)
Definition band_rows (band : Z * Z) : list Z :=
  seqZ (fst band) (snd band - fst band).

(** [for (int x = 0; x < w && !done; ++x) tracePixel(x, y);] of
    [RenderWorker]. The flag [done] is shared with the other threads: what
    its reads return is given, read by read, by [flag]; [reads] counts them. *)
Fixpoint worker_columns (flag : nat -> bool) (n : nat) (x y : Z)
    (self : RayTracer) (reads : nat) : M (RayTracer * nat) :=
  match n with
  | O => mret (self, reads)
  | S n' =>
      if flag reads then mret (self, S reads)
      else self ← tracePixel self x y;
           worker_columns flag n' (x + 1) y self (S reads)
  end.

(** [for (int y = from_y; y < to_y && !done; ++y) ...] of [RenderWorker] *)
Fixpoint worker_rows (flag : nat -> bool) (n : nat) (y w : Z)
    (self : RayTracer) (reads : nat) : M (RayTracer * nat) :=
  match n with
  | O => mret (self, reads)
  | S n' =>
      if flag reads then mret (self, S reads)
      else '(self, reads) ← worker_columns flag (Z.to_nat w) 0 y self (S reads);
           worker_rows flag n' (y + 1) w self reads
  end.

(** [TraceUI::RenderWorker], on the tracer of the UI: the tracer after it
    and the number of reads of [done] it made. *)
Definition RenderWorker (flag : nat -> bool) (raytracer : RayTracer)
    (from_y to_y w : Z) : M (RayTracer * nat) :=
  worker_rows flag (Z.to_nat (to_y - from_y)) from_y w raytracer 0.

End Renderer.

(** ** Concrete scenes, settings and files for the renderer *)

Module Studio.

#[local] Existing Instance Demo.vecmath.

Local Open Scope float_scope.

(** A scene with nothing in it. *)
Definition empty_scene : Scene :=
  {| intersect := fun _ => None;
     rayThrough := fun x y => {| ray_p := Demo.V3 x y 1; ray_d := Demo.V3 0 0 (-1) |};
     getAspectRatio := 1 |}.

(** The mirrored sphere seen through a camera 128 times as wide as high. *)
Definition wide_scene : Scene :=
  {| intersect := intersect Demo.mirrored_sphere;
     rayThrough := rayThrough Demo.mirrored_sphere;
     getAspectRatio := 128 |}.

(** The settings of [TraceUI::TraceUI()] with the depth limit and the
    supersampling count given. *)
Definition ui_super (depth_limit samples : Z) : TraceUI :=
  {| m_nDepth := depth_limit;
     m_is_enable_reflection := true;
     m_glossy_reflection_sample := 0;
     m_is_enable_fresnel := false;
     m_fresnel_ratio := 1;
     m_is_enable_refraction := true;
     m_intensity_threshold := 0.01;
     m_super_sampling := samples |}.

(** Every hit of the scene is on a fully mirrored material: kr = (1,1,1)
    and kt = 0. *)
Definition fully_mirrored {E : Externals} (s : Scene) : Prop :=
  forall q i, intersect s q = Some i ->
    kr (material_at (getMaterial i)) = Demo.V3 1 1 1
    /\ kt (material_at (getMaterial i)) = Demo.V3 0 0 0.

(** The Fresnel blend applies to no hit of the scene seen from air: Fresnel
    is off, or the index of the hit material is 1. *)
Definition unblended {E : Externals} (s : Scene) : Prop :=
  forall q i, intersect s q = Some i ->
    negb IsEnableFresnel || (index (material_at (getMaterial i)) =? 1) = true.

(** [shade] returns finite doubles. *)
Definition finite_shade {E : Externals} : Prop :=
  forall m sc q i st, Demo.channels Demo.finite (shading_colour (shade m sc q i st)).

(** Collaborators as [Demo.externals], but for a [shade] of the grey
    [level] that casts one shadow ray, from the hit point straight up, and
    draws once from [rand]. *)
Definition externals_of (level : double) (u : TraceUI) : Externals :=
  {| traceUI := u;
     RAY_EPSILON := 0.00001;
     pow := fun x _ => x * x * x * x * x;
     scene_material := Demo.materials;
     shade := fun _ _ q i st =>
       {| shading_colour := Demo.V3 level level level;
          shading_rays := [{| ray_p := ray_at q (isect_t i); ray_d := Demo.V3 0 1 0 |}];
          shading_rand := snd (Demo.lcg st) |};
     c_rand := Demo.lcg;
     RAND_MAX := 32767;
     cone_Generate := fun center _ s => (center, snd (Demo.lcg (snd (Demo.lcg s)))) |}.

(** The grey 0.1. *)
Definition externals : TraceUI -> Externals := externals_of 0.1.

(** A reader that knows two scene files and one it returns null for, and
    throws on every other name; an allocator that hands out bytes 205. *)
Definition loader : Loader :=
  {| readScene := fun fn =>
       if String.eqb fn "sphere.ray" then SceneRead (Some Demo.mirrored_sphere)
       else if String.eqb fn "wide.ray" then SceneRead (Some wide_scene)
       else if String.eqb fn "null.ray" then SceneRead None
       else ParseError "syntax error";
     initScene := fun s => s;
     uninitialised := fun _ => 205%Z |}.

(** A tracer object around the members [t]. *)
Definition object (t : RayTracer) (loaded : bool) : RayTracerObject :=
  {| members := t; bufferSize := 12; m_bSceneLoaded := loaded |}.

(** A stop flag that reads set from its fourth read on. *)
Definition stop_after_three (k : nat) : bool := (3 <=? k)%nat.

End Studio.

(** * Properties *)

(** ** Comparisons of doubles *)

Lemma SFcompare_antisym x y c :
  SFcompare x y = Some c -> SFcompare y x = Some (CompOpp c).
Proof.
  destruct x as [sx|sx| |sx mx ex], y as [sy|sy| |sy my ey]; simpl;
    try discriminate; try (destruct sx); try (destruct sy);
    intros [= <-]; try reflexivity.
  - rewrite (Z.compare_antisym ex ey).
    destruct (ex ?= ey)%Z; simpl; try reflexivity.
    now rewrite (Pos.compare_cont_antisym mx my Eq).
  - rewrite (Z.compare_antisym ex ey).
    destruct (ex ?= ey)%Z; simpl; try reflexivity.
    now rewrite (Pos.compare_cont_antisym mx my Eq).
Qed.

(** [y < x] makes the test [x <= y] fail. *)
Lemma ltb_leb_false (x y : double) :
  (y <? x)%float = true -> (x <=? y)%float = false.
Proof.
  rewrite FloatAxioms.ltb_spec, FloatAxioms.leb_spec. unfold SFltb, SFleb.
  destruct (SFcompare (Prim2SF y) (Prim2SF x)) as [c|] eqn:Hc; [|discriminate].
  rewrite (SFcompare_antisym _ _ _ Hc). destruct c; simpl; congruence.
Qed.

(** [y <= x] makes the test [x < y] fail. *)
Lemma leb_ltb_false (x y : double) :
  (y <=? x)%float = true -> (x <? y)%float = false.
Proof.
  rewrite FloatAxioms.ltb_spec, FloatAxioms.leb_spec. unfold SFltb, SFleb.
  destruct (SFcompare (Prim2SF y) (Prim2SF x)) as [c|] eqn:Hc; [|discriminate].
  rewrite (SFcompare_antisym _ _ _ Hc). destruct c; simpl; congruence.
Qed.

(** ** Arithmetic of doubles

    What the IEEE operations do on the values the Fresnel coefficient
    meets, from the specification of the primitive floats. *)

Lemma Prim2SF_finite (x : float) :
  PrimFloat.is_finite x = true -> PrimFloat.is_zero x = false ->
  exists s m e, Prim2SF x = S754_finite s m e.
Proof.
  unfold PrimFloat.is_finite, PrimFloat.is_nan, PrimFloat.is_infinity, PrimFloat.is_zero.
  rewrite !FloatAxioms.eqb_spec, FloatAxioms.abs_spec.
  destruct (Prim2SF x) as [s|s| |s m e]; simpl.
  - destruct s; discriminate.
  - destruct s; discriminate.
  - discriminate.
  - eauto.
Qed.

Lemma canonical_exact (m : positive) (e : Z) :
  bounded prec emax m e = true ->
  fexp prec emax (Z.pos (digits2_pos m) + e) = e /\ e <= emax - prec.
Proof.
  unfold bounded, canonical_mantissa. intros H.
  apply andb_true_iff in H as [H1 H2].
  apply Z.eqb_eq in H1. apply Z.leb_le in H2. auto.
Qed.

Lemma shr_fexp_exact (M : positive) (e : Z) :
  fexp prec emax (Z.pos (digits2_pos M) + e) = e ->
  shr_fexp prec emax (Z.pos M) e loc_Exact
  = ({| shr_m := Z.pos M; shr_r := false; shr_s := false |}, e).
Proof.
  intros H. unfold shr_fexp, Zdigits2. rewrite H, Z.sub_diag. reflexivity.
Qed.

Lemma binary_round_aux_exact (s : bool) (M : positive) (e : Z) :
  fexp prec emax (Z.pos (digits2_pos M) + e) = e ->
  binary_round_aux prec emax s (Z.pos M) e loc_Exact
  = if e <=? emax - prec then S754_finite s M e else S754_infinity s.
Proof.
  intros H. unfold binary_round_aux. rewrite (shr_fexp_exact M e H).
  cbn [shr_m loc_of_shr_record round_nearest_even].
  rewrite (shr_fexp_exact M e H). reflexivity.
Qed.

Lemma float_sub_self (x : float) :
  PrimFloat.is_finite x = true -> (x - x)%float = 0%float.
Proof.
  intros Hf. apply Prim2SF_inj. rewrite FloatAxioms.sub_spec.
  revert Hf. unfold PrimFloat.is_finite, PrimFloat.is_nan, PrimFloat.is_infinity.
  rewrite !FloatAxioms.eqb_spec, FloatAxioms.abs_spec.
  destruct (Prim2SF x) as [s|s| |s m e]; simpl.
  - destruct s; reflexivity.
  - destruct s; discriminate.
  - discriminate.
  - intros _. unfold SF64sub, SFsub. rewrite Z.min_id.
    rewrite Z.sub_diag. reflexivity.
Qed.

Lemma fexp_spec (z : Z) : fexp prec emax z = Z.max (z - 53) (-1074).
Proof. reflexivity. Qed.

Lemma binary_round_aux_shift (s : bool) (M : positive) (e : Z) :
  fexp prec emax (Z.pos (digits2_pos M~0) + e) = e + 1 ->
  binary_round_aux prec emax s (Z.pos M~0) e loc_Exact
  = if e + 1 <=? emax - prec then S754_finite s M (e + 1) else S754_infinity s.
Proof.
  intros H. unfold binary_round_aux.
  assert (H1 : shr_fexp prec emax (Z.pos M~0) e loc_Exact
               = ({| shr_m := Z.pos M; shr_r := false; shr_s := false |}, e + 1)).
  { unfold shr_fexp, Zdigits2. rewrite H.
    replace (e + 1 - e) with 1 by lia. reflexivity. }
  rewrite H1. cbn [shr_m loc_of_shr_record round_nearest_even].
  rewrite shr_fexp_exact; [reflexivity|].
  revert H. cbn [digits2_pos]. rewrite Pos2Z.inj_succ, !fexp_spec. lia.
Qed.

(** The sum of a nonzero finite double with itself is not zero and not a
    NaN: it is finite or an infinity, of the same sign. *)
Lemma float_add_self (x : float) s m e :
  Prim2SF x = S754_finite s m e ->
  (exists m' e', Prim2SF (x + x) = S754_finite s m' e')
  \/ Prim2SF (x + x) = S754_infinity s.
Proof.
  intros Hx. pose proof (Prim2SF_valid x) as Hv. rewrite Hx in Hv. simpl in Hv.
  apply canonical_exact in Hv as [Hc Hb].
  rewrite FloatAxioms.add_spec, Hx. unfold SF64add, SFadd.
  rewrite Z.min_id. unfold shl_align. rewrite Z.sub_diag. cbn [fst].
  assert (Hsum : (cond_Zopp s (Z.pos m) + cond_Zopp s (Z.pos m))%Z
                 = cond_Zopp s (Z.pos m~0)).
  { destruct s; unfold cond_Zopp; rewrite (Pos2Z.inj_xO m); lia. }
  rewrite Hsum.
  assert (Hround : (exists m' e', binary_round prec emax s m~0 e = S754_finite s m' e')
                   \/ binary_round prec emax s m~0 e = S754_infinity s).
  { unfold binary_round, shl_align.
    assert (Hd : fexp prec emax (Z.pos (digits2_pos m~0) + e) = e
                 \/ fexp prec emax (Z.pos (digits2_pos m~0) + e) = e + 1).
    { revert Hc. cbn [digits2_pos]. rewrite Pos2Z.inj_succ, !fexp_spec. lia. }
    destruct Hd as [Hd|Hd]; rewrite Hd.
    - rewrite Z.sub_diag, (binary_round_aux_exact s _ e Hd).
      destruct (_ <=? _); eauto.
    - replace (e + 1 - e) with 1 by lia.
      rewrite (binary_round_aux_shift s _ e Hd).
      destruct (_ <=? _); eauto. }
  destruct s; exact Hround.
Qed.

Lemma float_one_mul (p : float) : (1 * p)%float = p.
Proof.
  apply Prim2SF_inj. rewrite FloatAxioms.mul_spec.
  pose proof (Prim2SF_valid p) as Hv.
  change (Prim2SF 1) with (S754_finite false 4503599627370496 (-52)).
  destruct (Prim2SF p) as [s|s| |s m e]; try reflexivity.
  simpl in Hv. apply canonical_exact in Hv as [Hc Hb].
  unfold SF64mul, SFmul. cbn [xorb].
  change (Pos.mul 4503599627370496 m) with (Pos.iter xO m 52).
  unfold binary_round_aux.
  assert (H1 : shr_fexp prec emax (Z.pos (Pos.iter xO m 52)) (-52 + e) loc_Exact
               = ({| shr_m := Z.pos m; shr_r := false; shr_s := false |}, e)).
  { unfold shr_fexp, Zdigits2.
    assert (Hdig : Z.pos (digits2_pos (Pos.iter xO m 52)) = Z.pos (digits2_pos m) + 52).
    { cbn [Pos.iter digits2_pos]. rewrite !Pos2Z.inj_succ. lia. }
    rewrite Hdig.
    replace (fexp prec emax (Z.pos (digits2_pos m) + 52 + (-52 + e)) - (-52 + e)) with 52
      by (revert Hc; rewrite !fexp_spec; lia).
    unfold shr. cbn [iter_pos shr_1 shr_record_of_loc Pos.iter orb].
    f_equal. lia. }
  rewrite H1. cbn [shr_m loc_of_shr_record round_nearest_even].
  rewrite (shr_fexp_exact m e Hc). cbn [shr_m].
  apply Z.leb_le in Hb. rewrite Hb. reflexivity.
Qed.

Lemma float_zero_add (p : float) :
  (0 + p)%float = p \/ (p = (-0)%float /\ (0 + p)%float = 0%float).
Proof.
  destruct (Prim2SF p) as [s|s| |s m e] eqn:Hp.
  2-4: left; apply Prim2SF_inj; rewrite FloatAxioms.add_spec, Hp; reflexivity.
  destruct s.
  - right. assert (p = (-0)%float) as -> by (apply Prim2SF_inj; rewrite Hp; reflexivity).
    split; reflexivity.
  - left. apply Prim2SF_inj. rewrite FloatAxioms.add_spec, Hp. reflexivity.
Qed.

Lemma float_leb_refl (x : float) : PrimFloat.is_nan x = false -> (x <=? x)%float = true.
Proof.
  unfold PrimFloat.is_nan. rewrite FloatAxioms.eqb_spec, FloatAxioms.leb_spec.
  unfold SFeqb, SFleb. destruct (SFcompare _ _) as [[]|]; simpl; congruence.
Qed.

(** [((x - x) / (x + x))^2] is [+0] for a finite nonzero [x]. *)
Lemma float_r0_same (x : float) :
  PrimFloat.is_finite x = true -> PrimFloat.is_zero x = false ->
  ((x - x) / (x + x) * ((x - x) / (x + x)))%float = 0%float.
Proof.
  intros Hf Hz. rewrite (float_sub_self x Hf).
  destruct (Prim2SF_finite x Hf Hz) as (s & m & e & Hx).
  assert (Hq : exists b, Prim2SF (0 / (x + x)) = S754_zero b).
  { rewrite FloatAxioms.div_spec.
    destruct (float_add_self x s m e Hx) as [(m' & e' & ->)| ->]; simpl; eauto. }
  destruct Hq as [b Hq]. apply Prim2SF_inj.
  rewrite FloatAxioms.mul_spec, Hq. destruct b; reflexivity.
Qed.

Section Properties.

Context {V : VecMath} {E : Externals}.

(** ** Doubles that are not a NaN

    Rounding never makes a NaN of a mantissa that is not negative, so a sum
    with a finite term and a quotient by a finite nonzero double are NaN
    only if an operand is. *)

Lemma shr_1_nonneg mrs : 0 <= shr_m mrs -> 0 <= shr_m (shr_1 mrs).
Proof.
  destruct mrs as [m r s]. cbn [shr_m]. intros H.
  destruct m as [|[p|p|]|p]; cbn; lia.
Qed.

Lemma iter_pos_invariant {A} (P : A -> Prop) (f : A -> A) (n : positive) (x : A) :
  (forall y, P y -> P (f y)) -> P x -> P (SpecFloat.iter_pos f n x).
Proof.
  intros Hf. revert x. induction n as [n IH|n IH|]; intros x Hx; cbn [SpecFloat.iter_pos].
  - apply IH, IH, Hf, Hx.
  - apply IH, IH, Hx.
  - apply Hf, Hx.
Qed.

Lemma shr_fexp_nonneg m e l :
  0 <= m -> 0 <= shr_m (fst (shr_fexp prec emax m e l)).
Proof.
  intros Hm. unfold shr_fexp, shr.
  assert (H0 : 0 <= shr_m (shr_record_of_loc m l)).
  { destruct l as [|[]]; exact Hm. }
  destruct (fexp prec emax (Zdigits2 m + e) - e) as [|p|p]; cbn [fst]; try exact H0.
  apply (iter_pos_invariant (fun mrs => 0 <= shr_m mrs)); [apply shr_1_nonneg|exact H0].
Qed.

Lemma round_nearest_even_nonneg m l : 0 <= m -> 0 <= round_nearest_even m l.
Proof.
  intros Hm. unfold round_nearest_even. destruct l as [|[]]; try lia.
  destruct (Z.even m); lia.
Qed.

(** Rounding a mantissa that is not negative gives a zero, a finite number
    or an infinity. *)
Lemma binary_round_aux_not_nan s m e l :
  0 <= m -> binary_round_aux prec emax s m e l <> S754_nan.
Proof.
  intros Hm. unfold binary_round_aux.
  pose proof (shr_fexp_nonneg m e l Hm) as H1.
  destruct (shr_fexp prec emax m e l) as [mrs' e']. cbn [fst] in H1.
  pose proof (shr_fexp_nonneg (round_nearest_even (shr_m mrs') (loc_of_shr_record mrs'))
                e' loc_Exact (round_nearest_even_nonneg _ _ H1)) as H2.
  destruct (shr_fexp prec emax _ e' loc_Exact) as [mrs'' e'']. cbn [fst] in H2.
  destruct (shr_m mrs'') as [|p|p]; [discriminate| |lia].
  destruct (e'' <=? emax - prec); discriminate.
Qed.

Lemma binary_normalize_not_nan m e sz : binary_normalize prec emax m e sz <> S754_nan.
Proof.
  unfold binary_normalize, binary_round. destruct m as [|p|p]; [discriminate|..].
  - destruct (shl_align _ _ _) as [mz ez]. apply binary_round_aux_not_nan. lia.
  - destruct (shl_align _ _ _) as [mz ez]. apply binary_round_aux_not_nan. lia.
Qed.

Lemma SFadd_not_nan_l x y :
  x <> S754_nan -> SF_finite y -> SFadd prec emax x y <> S754_nan.
Proof.
  intros Hx Hy. destruct x as [sx|sx| |sx mx ex], y as [sy|sy| |sy my ey];
    try contradiction; try discriminate.
  - cbn. destruct sx, sy; discriminate.
  - cbn. apply binary_normalize_not_nan.
Qed.

Lemma SFadd_not_nan_r x y :
  SF_finite x -> y <> S754_nan -> SFadd prec emax x y <> S754_nan.
Proof.
  intros Hx Hy. destruct x as [sx|sx| |sx mx ex], y as [sy|sy| |sy my ey];
    try contradiction; try discriminate.
  - cbn. destruct sx, sy; discriminate.
  - cbn. apply binary_normalize_not_nan.
Qed.

Lemma SFcompare_refl x : x <> S754_nan -> SFcompare x x = Some Eq.
Proof.
  destruct x as [s|s| |s m e]; intros H; try contradiction; cbn.
  - reflexivity.
  - destruct s; reflexivity.
  - rewrite Z.compare_refl. destruct s; [|f_equal; apply Pos.compare_cont_refl].
    rewrite Pos.compare_cont_refl. reflexivity.
Qed.

Lemma is_nan_false (x : float) : PrimFloat.is_nan x = false <-> Prim2SF x <> S754_nan.
Proof.
  unfold PrimFloat.is_nan. rewrite FloatAxioms.eqb_spec. unfold SFeqb. split.
  - intros H Hn. rewrite Hn in H. discriminate H.
  - intros H. rewrite (SFcompare_refl _ H). reflexivity.
Qed.

Lemma is_finite_true (x : float) : PrimFloat.is_finite x = true <-> SF_finite (Prim2SF x).
Proof.
  unfold PrimFloat.is_finite, PrimFloat.is_infinity.
  rewrite FloatAxioms.eqb_spec, FloatAxioms.abs_spec.
  pose proof (is_nan_false x) as Hn.
  destruct (Prim2SF x) as [s|s| |s m e] eqn:Hx; cbn [SF_finite].
  - assert (H : PrimFloat.is_nan x = false) by (apply Hn; discriminate).
    rewrite H. cbn. tauto.
  - assert (H : PrimFloat.is_nan x = false) by (apply Hn; discriminate).
    rewrite H. cbn. split; [discriminate|tauto].
  - destruct (PrimFloat.is_nan x) eqn:H; [cbn; split; [discriminate|tauto]|].
    exfalso. apply Hn; reflexivity.
  - assert (H : PrimFloat.is_nan x = false) by (apply Hn; discriminate).
    rewrite H. cbn. tauto.
Qed.

Lemma SFmul_comm x y : SFmul prec emax x y = SFmul prec emax y x.
Proof.
  destruct x as [sx|sx| |sx mx ex], y as [sy|sy| |sy my ey]; cbn;
    rewrite ?(xorb_comm sx sy); try reflexivity.
  rewrite (Pos.mul_comm mx my), (Z.add_comm ex ey). reflexivity.
Qed.

Lemma SFdiv_not_nan x s m e :
  x <> S754_nan -> SFdiv prec emax x (S754_finite s m e) <> S754_nan.
Proof.
  intros Hx. destruct x as [sx|sx| |sx mx ex]; try contradiction; try discriminate.
  cbn [SFdiv]. unfold SFdiv_core_binary.
  set (m' := match _ with Z.pos _ => _ | _ => _ end).
  assert (Hm' : 0 <= m').
  { unfold m'. destruct (_ - _) as [|p|p]; try lia. apply Z.shiftl_nonneg. lia. }
  pose proof (Z.div_pos m' (Z.pos m) Hm' ltac:(lia)) as Hq. unfold Z.div in Hq.
  destruct (Z.div_eucl m' (Z.pos m)) as [q r].
  apply binary_round_aux_not_nan, Hq.
Qed.

Lemma digits2_pos_size p : digits2_pos p = Pos.size p.
Proof. induction p as [p IH|p IH|]; cbn; rewrite ?IH; reflexivity. Qed.

Lemma digits2_pos_iter p k :
  Z.pos (digits2_pos (Pos.iter xO p k)) = Z.pos (digits2_pos p) + Z.pos k.
Proof.
  induction k as [|k IH] using Pos.peano_ind.
  - cbn. lia.
  - rewrite Pos.iter_succ. cbn [digits2_pos]. lia.
Qed.

Lemma digits2_pos_le p k : Z.pos p < 2 ^ k -> 0 <= k -> Z.pos (digits2_pos p) <= k.
Proof.
  intros Hp Hk. rewrite digits2_pos_size.
  pose proof (Pos.size_le p) as Hs.
  assert (H : 2 ^ Z.pos (Pos.size p) <= 2 * Z.pos p).
  { rewrite <- Pos2Z.inj_pow. change (2 * Z.pos p) with (Z.pos p~0). lia. }
  destruct (Z_le_gt_dec (Z.pos (Pos.size p)) k) as [Hle|Hgt]; [exact Hle|exfalso].
  assert (2 ^ (k + 1) <= 2 ^ Z.pos (Pos.size p)) by (apply Z.pow_le_mono_r; lia).
  rewrite Z.pow_add_r in H0 by lia. lia.
Qed.

(** The double of a positive integer below 2^53 is finite and not zero. *)
Lemma binary_normalize_int p :
  Z.pos p < 2 ^ 53 ->
  exists m e, binary_normalize prec emax (Z.pos p) 0 false = S754_finite false m e.
Proof.
  intros Hp. pose proof (digits2_pos_le p 53 Hp ltac:(lia)) as Hd.
  cbn [binary_normalize]. unfold binary_round, shl_align.
  rewrite fexp_spec, Z.add_0_r.
  assert (Hmax : Z.max (Z.pos (digits2_pos p) - 53) (-1074) = Z.pos (digits2_pos p) - 53)
    by lia.
  rewrite Hmax.
  destruct (Z.pos (digits2_pos p) - 53 - 0) as [|k|k] eqn:Hk; try lia.
  - rewrite binary_round_aux_exact by (rewrite fexp_spec; lia).
    change (emax - prec) with 971. cbn. eauto.
  - rewrite binary_round_aux_exact.
    + replace (Z.pos (digits2_pos p) - 53 <=? emax - prec) with true; [eauto|].
      symmetry. apply Z.leb_le. change (emax - prec) with 971. lia.
    + rewrite fexp_spec, digits2_pos_iter. lia.
Qed.

Local Open Scope float_scope.

Lemma is_finite_not_nan (x : float) :
  PrimFloat.is_finite x = true -> PrimFloat.is_nan x = false.
Proof.
  intros H. apply is_finite_true in H. apply is_nan_false.
  intros Hn. rewrite Hn in H. exact H.
Qed.

Lemma add_not_nan_l (a b : float) :
  PrimFloat.is_nan a = false -> PrimFloat.is_finite b = true ->
  PrimFloat.is_nan (a + b) = false.
Proof.
  intros Ha Hb. apply is_nan_false. rewrite FloatAxioms.add_spec.
  apply SFadd_not_nan_l; [apply is_nan_false, Ha|apply is_finite_true, Hb].
Qed.

Lemma add_not_nan_r (a b : float) :
  PrimFloat.is_finite a = true -> PrimFloat.is_nan b = false ->
  PrimFloat.is_nan (a + b) = false.
Proof.
  intros Ha Hb. apply is_nan_false. rewrite FloatAxioms.add_spec.
  apply SFadd_not_nan_r; [apply is_finite_true, Ha|apply is_nan_false, Hb].
Qed.

Lemma add_zero_finite (a : float) :
  PrimFloat.is_finite a = true -> PrimFloat.is_finite (a + 0) = true.
Proof.
  intros Ha. apply is_finite_true in Ha. apply is_finite_true.
  rewrite FloatAxioms.add_spec. change (Prim2SF 0) with (S754_zero false).
  destruct (Prim2SF a) as [s|s| |s m e]; try contradiction.
  - destruct s; exact I.
  - exact I.
Qed.

Lemma float_mul_one (p : float) : (p * 1)%float = p.
Proof.
  rewrite <- (float_one_mul p) at 2. apply Prim2SF_inj.
  rewrite !FloatAxioms.mul_spec. apply SFmul_comm.
Qed.

Lemma div_not_nan (a n : float) s m e :
  PrimFloat.is_nan a = false -> Prim2SF n = S754_finite s m e ->
  PrimFloat.is_nan (a / n) = false.
Proof.
  intros Ha Hn. apply is_nan_false. rewrite FloatAxioms.div_spec, Hn.
  apply SFdiv_not_nan, is_nan_false, Ha.
Qed.

(** A double that is not a NaN is clamped to a finite double from 0 to 1. *)
Lemma clamp01_unit (x : float) :
  PrimFloat.is_nan x = false ->
  PrimFloat.is_finite (Demo.clamp01 x) = true
  /\ (0 <=? Demo.clamp01 x) = true /\ (Demo.clamp01 x <=? 1) = true.
Proof.
  intros Hx. unfold Demo.clamp01.
  destruct (x <? 0) eqn:H0; [repeat split; reflexivity|].
  destruct (1 <? x) eqn:H1; [repeat split; reflexivity|].
  apply is_nan_false in Hx.
  rewrite FloatAxioms.ltb_spec in H0, H1.
  rewrite !FloatAxioms.leb_spec.
  split; [apply is_finite_true|].
  - revert H0 H1. change (Prim2SF 0) with (S754_zero false).
    change (Prim2SF 1) with (S754_finite false 4503599627370496 (-52)).
    destruct (Prim2SF x) as [s|s| |s m e]; try contradiction; try (intros; exact I).
    destruct s; cbn; discriminate.
  - revert H0 H1. change (Prim2SF 0) with (S754_zero false).
    change (Prim2SF 1) with (S754_finite false 4503599627370496 (-52)).
    unfold SFltb, SFleb.
    destruct (Prim2SF x) as [s|s| |s m e]; try contradiction.
    + cbn. auto.
    + destruct s; cbn; auto.
    + destruct s; [cbn; discriminate|]. intros _ H1. split; [reflexivity|].
      pose proof (SFcompare_antisym (S754_finite false 4503599627370496 (-52))
                    (S754_finite false m e)) as Ha.
      destruct (SFcompare (S754_finite false 4503599627370496 (-52))
                  (S754_finite false m e)) as [[]|] eqn:Hc; try discriminate H1.
      * rewrite (Ha _ eq_refl). reflexivity.
      * rewrite (Ha _ eq_refl). reflexivity.
      * discriminate Hc.
Qed.

(** [double(i)] of a nonzero [int] is finite and not zero. *)
Lemma int_to_double_finite (z : Z) :
  z <> 0%Z -> (INT_MIN <= z <= INT_MAX)%Z ->
  exists s m e, Prim2SF (int_to_double z) = S754_finite s m e.
Proof.
  intros Hz Hr. unfold INT_MIN, INT_MAX in Hr. unfold int_to_double.
  assert (Hpos : forall n, (0 < n <= 2 ^ 31)%Z ->
            exists m e, Prim2SF (PrimFloat.of_uint63 (Uint63.of_Z n))
                        = S754_finite false m e).
  { intros n Hn. rewrite FloatAxioms.of_uint63_spec, Uint63.of_Z_spec.
    rewrite Z.mod_small by (change wB with (2 ^ 63)%Z; lia).
    destruct n as [|q|q]; try lia.
    apply binary_normalize_int. lia. }
  destruct (Z.ltb_spec z 0).
  - destruct (Hpos (- z)%Z ltac:(lia)) as (m & e & H0).
    rewrite FloatAxioms.opp_spec, H0. cbn. eauto.
  - destruct (Hpos z ltac:(lia)) as (m & e & H0). rewrite H0. eauto.
Qed.

Local Close Scope float_scope.

(** ** Running the monad *)

Lemma bind_run {A B} (m : M A) (f : A -> M B) w a w1 :
  m w = Done a w1 -> (m ≫= f) w = f a w1.
Proof. unfold mbind, M_bind. intros ->. reflexivity. Qed.

Lemma front_run (s : list MaterialPtr) m w :
  head s = Some m -> front s w = Done m w.
Proof. unfold front. intros ->. reflexivity. Qed.

Lemma IsLeavingObject_run param i m w :
  head (material_stack param) = Some m ->
  IsLeavingObject param i w = Done (bool_decide (getMaterial i = m)) w.
Proof.
  intros Hm. unfold IsLeavingObject.
  rewrite (bind_run _ _ _ _ _ (front_run _ _ w Hm)). reflexivity.
Qed.

Lemma Material_shade_run m s q i w :
  Material_shade m s q i w
  = Done (shading_colour (shade m s q i (rand_state w)))
      {| rand_state := shading_rand (shade m s q i (rand_state w));
         trail := trail w ++ [EvShade (shading_rays (shade m s q i (rand_state w)))] |}.
Proof. reflexivity. Qed.

Lemma GetFresnelCoeff_run param i m w :
  head (material_stack param) = Some m ->
  GetFresnelCoeff param i w =
    Done (let leaving := bool_decide (getMaterial i = m) in
          schlick (if leaving then index (material_at (getMaterial i)) else index (material_at m))
                  (if leaving then index (material_at m) else index (material_at (getMaterial i)))
                  (dot (isect_N i) (- getDirection (r param))%vec)) w.
Proof.
  intros Hm. unfold GetFresnelCoeff.
  rewrite (bind_run _ _ _ _ _ (IsLeavingObject_run _ i _ w Hm)).
  rewrite (bind_run _ _ _ _ _ (front_run _ _ w Hm)). reflexivity.
Qed.

Lemma scene_queries_app (t1 t2 : list Event) :
  scene_queries (t1 ++ t2) = scene_queries t1 ++ scene_queries t2.
Proof. apply flat_map_app. Qed.

Lemma entries_app (t1 t2 : list Event) :
  entries (t1 ++ t2) = entries t1 ++ entries t2.
Proof. apply omap_app. Qed.

(** The media selection of [traceRefraction] reads the stack and touches
    nothing else. *)
Lemma refraction_media_world param i x w w1 :
  refraction_media param i w = Done x w1 -> w1 = w.
Proof.
  unfold refraction_media, IsLeavingObject, front, deque_at, deref.
  unfold mbind, M_bind, mret, M_ret, undefined.
  destruct (head (material_stack param)); [|discriminate].
  destruct (bool_decide _); [|congruence].
  destruct (material_stack param !! 1%nat); [congruence|discriminate].
Qed.

(** ** The threshold cutoff *)

(** C3. A context whose accumulated weight is at or below the intensity
    threshold on every channel makes [traceRay] return the zero colour at
    once: the run records its entry and nothing else, so the scene is
    never queried (nor dereferenced: the scene pointer may be null), and
    [rand] is not drawn from. *)
Theorem traceRay_threshold_cutoff (fuel : nat) (self : RayTracer)
    (param : TraceParam) (w : World) :
  (vec3f_get (thresh param) 0 <=? GetIntensityThreshold)%float = true ->
  (vec3f_get (thresh param) 1 <=? GetIntensityThreshold)%float = true ->
  (vec3f_get (thresh param) 2 <=? GetIntensityThreshold)%float = true ->
  exists w',
    traceRay (S fuel) self param w = Done vec3f_zero w'
    /\ trail w' = trail w ++ [EvTraceRay param]
    /\ scene_queries (trail w') = scene_queries (trail w)
    /\ rand_state w' = rand_state w.
Proof.
  intros H0 H1 H2. eexists. split.
  - simpl. unfold mbind, M_bind, record. rewrite H0, H1, H2. reflexivity.
  - simpl. repeat split. rewrite scene_queries_app. simpl. apply app_nil_r.
Qed.

(** ** No scene loaded *)

(** C9. With a null scene pointer [tracePixel] and [traceLines] return at
    once, for all their arguments: the tracer, and with it the frame
    buffer, is as it was, and so is the world (no call on a scene, no
    entry to [traceRay], no draw from [rand]). *)
Theorem no_scene_no_op (self : RayTracer) (i j start stop : Z) (w : World) :
  tracer_scene self = None ->
  tracePixel self i j w = Done self w
  /\ traceLines self start stop w = Done self w.
Proof.
  intros Hs. unfold tracePixel, traceLines. rewrite Hs. split; reflexivity.
Qed.

(** ** Total internal reflection *)

(** C7. When the discriminant of [traceRefraction] is negative the branch
    returns the zero colour, as a value and not as a failure, whatever
    function it would recurse into: that function is not called, and the
    world is as it was. *)
Theorem traceRefraction_total_internal_reflection
    (rec : TraceParam -> M vec3f) (self : RayTracer) (param : TraceParam)
    (i : isect) (ni nt : double) (st : list MaterialPtr) (w w1 : World) :
  refraction_media param i w = Done (ni, nt, st) w1 ->
  (discriminant (ni / nt) (dot (isect_N i) (- getDirection (r param))%vec) <? 0)%float = true ->
  traceRefraction rec self param i w = Done vec3f_zero w.
Proof.
  intros Hm Hroot. unfold traceRefraction.
  destruct (negb _ && _); [|reflexivity].
  pose proof (refraction_media_world _ _ _ _ _ Hm) as ->.
  rewrite (bind_run _ _ _ _ _ Hm). simpl. rewrite Hroot. reflexivity.
Qed.

(** ** The Fresnel coefficient *)

Lemma schlick_cases (ni nt c : double) :
  let r0 := ((ni - nt) / (ni + nt) * ((ni - nt) / (ni + nt)))%float in
  let root := (1 - ni / nt * (ni / nt) * (1 - c * c))%float in
  ((ni <=? nt)%float = true ->
   schlick ni nt c = (r0 + (1 - r0) * pow (1 - c) 5)%float)
  /\ ((nt <? ni)%float = true -> (root <? 0)%float = true -> schlick ni nt c = 1%float)
  /\ ((nt <? ni)%float = true -> (0 <=? root)%float = true ->
      schlick ni nt c = (r0 + (1 - r0) * pow (1 - PrimFloat.sqrt (1 - ni / nt)) 5)%float).
Proof.
  intros r0 root. unfold schlick, discriminant. fold r0. fold root.
  repeat split.
  - intros ->. reflexivity.
  - intros Hgt Hneg. rewrite (ltb_leb_false _ _ Hgt), Hneg. reflexivity.
  - intros Hgt Hpos.
    rewrite (ltb_leb_false _ _ Hgt), (leb_ltb_false _ _ Hpos). reflexivity.
Qed.

(** C5. [GetFresnelCoeff] on a context whose stack has a front [m]: with
    ni and nt ordered by the leaving test, r0 = ((ni-nt)/(ni+nt))^2 and
    cos = N.(-direction), it returns r0 + (1-r0)(1-cos)^5 when ni <= nt,
    1 when ni > nt and the discriminant is negative, and
    r0 + (1-r0)(1-sqrt(1-ni/nt))^5 when ni > nt and the discriminant is
    not negative. *)
Theorem GetFresnelCoeff_schlick (param : TraceParam) (i : isect)
    (m : MaterialPtr) (w : World) :
  head (material_stack param) = Some m ->
  let leaving := bool_decide (getMaterial i = m) in
  let ni := if leaving then index (material_at (getMaterial i)) else index (material_at m) in
  let nt := if leaving then index (material_at m) else index (material_at (getMaterial i)) in
  let r0 := ((ni - nt) / (ni + nt) * ((ni - nt) / (ni + nt)))%float in
  let cos_theta := dot (isect_N i) (- getDirection (r param))%vec in
  let root := (1 - ni / nt * (ni / nt) * (1 - cos_theta * cos_theta))%float in
  exists coeff,
    GetFresnelCoeff param i w = Done coeff w
    /\ ((ni <=? nt)%float = true ->
        coeff = (r0 + (1 - r0) * pow (1 - cos_theta) 5)%float)
    /\ ((nt <? ni)%float = true -> (root <? 0)%float = true -> coeff = 1%float)
    /\ ((nt <? ni)%float = true -> (0 <=? root)%float = true ->
        coeff = (r0 + (1 - r0) * pow (1 - PrimFloat.sqrt (1 - ni / nt)) 5)%float).
Proof.
  intros Hm leaving ni nt r0 cos_theta root.
  exists (schlick ni nt cos_theta). split.
  - apply GetFresnelCoeff_run, Hm.
  - exact (schlick_cases ni nt cos_theta).
Qed.

(** ** The Fresnel blend *)

Lemma fresnel_blend_run param i m reflection refraction w :
  head (material_stack param) = Some m ->
  fresnel_blend param i reflection refraction w =
    if IsEnableFresnel
       && negb ((index (material_at m) =? 1)%float
                && (index (material_at (getMaterial i)) =? 1)%float)
    then
      match GetFresnelCoeff param i w with
      | Done coeff _ =>
          Done ((vec3f_scale (GetFresnelRatio * coeff) reflection
                 + vec3f_scale (1 - GetFresnelRatio) reflection)%vec,
                (vec3f_scale (GetFresnelRatio * (1 - coeff)) refraction
                 + vec3f_scale (1 - GetFresnelRatio) refraction)%vec) w
      | _ => Undefined
      end
    else Done (reflection, refraction) w.
Proof.
  intros Hm. rewrite (GetFresnelCoeff_run _ _ _ _ Hm), negb_andb.
  unfold fresnel_blend, GetFresnelCoeff, IsLeavingObject, front, deref.
  unfold mbind, M_bind, mret, M_ret. rewrite Hm.
  destruct IsEnableFresnel; simpl; [|reflexivity].
  destruct (negb _ || negb _); reflexivity.
Qed.

(** C6. [traceRay] on a hit, once the two branches have returned
    [reflection] and [refraction]: with Fresnel enabled, and unless both the
    stack-front medium and the hit material have index 1, it returns the
    local colour plus ratio.coeff.reflection + (1-ratio).reflection plus
    ratio.(1-coeff).refraction + (1-ratio).refraction, coeff being the
    value of [GetFresnelCoeff]; in that one case, and with Fresnel
    disabled, it returns the local colour plus reflection plus refraction,
    unblended. *)
Theorem traceRay_fresnel_blend (fuel : nat) (self : RayTracer)
    (param : TraceParam) (s : Scene) (i0 : isect) (m : MaterialPtr)
    (reflection refraction : vec3f) (w w1 w2 : World) :
  ((vec3f_get (thresh param) 0 <=? GetIntensityThreshold)
   && (vec3f_get (thresh param) 1 <=? GetIntensityThreshold)
   && (vec3f_get (thresh param) 2 <=? GetIntensityThreshold))%float = false ->
  scene param = Some s ->
  intersect s (r param) = Some i0 ->
  head (material_stack param) = Some m ->
  let i := orient (bool_decide (getMaterial i0 = m)) i0 in
  let shading := shade (material_at (getMaterial i)) s (r param) i (rand_state w) in
  let w0 := {| rand_state := shading_rand shading;
               trail := ((trail w ++ [EvTraceRay param]) ++ [EvIntersect (r param)])
                        ++ [EvShade (shading_rays shading)] |} in
  (if IsEnableReflection then traceReflection (traceRay fuel self) self param i
   else mret vec3f_zero) w0 = Done reflection w1 ->
  (if IsEnableRefraction then traceRefraction (traceRay fuel self) self param i
   else mret vec3f_zero) w1 = Done refraction w2 ->
  let intensity := prod (shading_colour shading) (thresh param) in
  let ratio := GetFresnelRatio in
  let both_index_1 := ((index (material_at m) =? 1)
                       && (index (material_at (getMaterial i)) =? 1))%float in
  exists coeff,
    GetFresnelCoeff param i w2 = Done coeff w2
    /\ traceRay (S fuel) self param w =
       Done (if IsEnableFresnel && negb both_index_1
             then intensity
                  + (vec3f_scale (ratio * coeff) reflection
                     + vec3f_scale (1 - ratio) reflection)
                  + (vec3f_scale (ratio * (1 - coeff)) refraction
                     + vec3f_scale (1 - ratio) refraction)
             else intensity + reflection + refraction)%vec w2.
Proof.
  intros Hcut Hs Hhit Hm i shading w0 Hrefl Hrefr intensity ratio both.
  eexists. split; [apply GetFresnelCoeff_run, Hm|].
  cbn [traceRay]. rewrite Hcut.
  unfold mbind at 1. unfold M_bind at 1. cbn [record].
  rewrite Hs. cbn [deref].
  unfold mbind at 1. unfold M_bind at 1. unfold mret at 1. unfold M_ret at 1.
  unfold mbind at 1. unfold M_bind at 1. unfold scene_intersect.
  unfold mbind at 1. unfold M_bind at 1. cbn [record rand_state trail].
  unfold mret at 1. unfold M_ret at 1. rewrite Hhit.
  rewrite (bind_run _ _ _ _ _ (IsLeavingObject_run _ i0 _ _ Hm)).
  fold i.
  rewrite (bind_run _ _ _ _ _ (Material_shade_run _ s (r param) i _)).
  cbn [rand_state trail]. fold shading. fold w0. fold intensity.
  rewrite (bind_run _ _ _ _ _ Hrefl), (bind_run _ _ _ _ _ Hrefr).
  unfold mbind, M_bind. rewrite (fresnel_blend_run _ _ _ _ _ _ Hm).
  rewrite (GetFresnelCoeff_run _ _ _ _ Hm). fold both.
  destruct (IsEnableFresnel && negb both); reflexivity.
Qed.

(** ** Rules for runs *)

Section Rules.

Context (u f : Prop).

Lemma wp_ret {A} (a : A) w (post : A -> World -> Prop) :
  post a w -> wp u f (mret a) w post.
Proof. intros H. exact H. Qed.

Lemma wp_bind {A B} (m : M A) (k : A -> M B) w (post : B -> World -> Prop) :
  wp u f m w (fun a w1 => wp u f (k a) w1 post) -> wp u f (m ≫= k) w post.
Proof.
  unfold wp, mbind, M_bind. destruct (m w) as [a w1| |]; auto.
Qed.

Lemma wp_mono {A} (m : M A) w (post post' : A -> World -> Prop) :
  (forall a w', post a w' -> post' a w') -> wp u f m w post -> wp u f m w post'.
Proof. unfold wp. intros H. destruct (m w); auto. Qed.

Lemma wp_deref {A} (p : option A) w (post : A -> World -> Prop) :
  (u \/ is_Some p) -> (forall a, p = Some a -> post a w) -> wp u f (deref p) w post.
Proof.
  intros Hp H. destruct p as [a|]; simpl.
  - apply (H a eq_refl).
  - unfold wp, undefined. destruct Hp as [Hu|[a Ha]]; [exact Hu|discriminate].
Qed.

Lemma wp_for_loop {A} (I : World -> Prop) (body : Z -> A -> M A) n k acc w :
  (forall k acc w, I w -> wp u f (body k acc) w (fun _ w' => I w')) ->
  I w -> wp u f (for_loop n k body acc) w (fun _ w' => I w').
Proof.
  intros Hbody. revert k acc w.
  induction n as [|n IH]; intros k acc w Hw; simpl.
  - exact Hw.
  - apply wp_bind. eapply wp_mono; [|apply (Hbody k acc w Hw)].
    intros acc' w' Hw'. apply IH, Hw'.
Qed.

End Rules.

(** ** Trails *)

Lemma extends_refl Q w : extends Q w w.
Proof. exists []. split; [symmetry; apply app_nil_r|constructor]. Qed.

Lemma extends_trans Q w1 w2 w3 :
  extends Q w1 w2 -> extends Q w2 w3 -> extends Q w1 w3.
Proof.
  intros (e1 & H1 & F1) (e2 & H2 & F2). exists (e1 ++ e2). split.
  - rewrite H2, H1. symmetry. apply app_assoc.
  - rewrite entries_app. apply Forall_app. split; assumption.
Qed.

Lemma extends_trail Q w w' : trail w' = trail w -> extends Q w w'.
Proof. intros H. exists []. split; [rewrite H; symmetry; apply app_nil_r|constructor]. Qed.

Lemma extends_entry Q w p s :
  Q p -> extends Q w {| rand_state := s; trail := trail w ++ [EvTraceRay p] |}.
Proof. intros H. exists [EvTraceRay p]. split; [reflexivity|]. repeat constructor. exact H. Qed.

Lemma extends_query Q w q s :
  extends Q w {| rand_state := s; trail := trail w ++ [EvIntersect q] |}.
Proof. exists [EvIntersect q]. split; [reflexivity|constructor]. Qed.

Lemma extends_shade Q w shadow_rays s :
  extends Q w {| rand_state := s; trail := trail w ++ [EvShade shadow_rays] |}.
Proof. exists [EvShade shadow_rays]. split; [reflexivity|constructor]. Qed.

Lemma extends_weaken (Q Q' : TraceParam -> Prop) w w' :
  (forall p, Q p -> Q' p) -> extends Q w w' -> extends Q' w w'.
Proof.
  intros H (evs & Ht & HF). exists evs. split; [exact Ht|].
  eapply Forall_impl; [exact HF|exact H].
Qed.

(** ** The two branches and [traceRay], run under an invariant of contexts *)

Section Invariant.

Context (u f : Prop) (Q : TraceParam -> Prop) (self : RayTracer).

(** What [u], [f] and the invariant have to provide: a context that
    satisfies [Q] has a scene (or the run may be undefined), a stack with a
    front, and a second entry below a front that the ray can leave; the
    contexts of the spawned rays satisfy [Q] again. *)
Hypothesis Q_scene : forall p, Q p -> u \/ is_Some (scene p).
Hypothesis Q_front : forall p, Q p -> u \/ is_Some (head (material_stack p)).
Hypothesis Q_second : forall p a, Q p ->
  head (material_stack p) = Some (SceneMaterial a) ->
  u \/ is_Some (material_stack p !! 1%nat).
Hypothesis Q_reflection : forall p p', Q p ->
  (depth p < getDepth)%Z ->
  scene p' = tracer_scene self -> depth p' = (depth p + 1)%Z ->
  material_stack p' = material_stack p -> Q p'.
Hypothesis Q_refraction : forall p p' i ni nt st w, Q p ->
  (depth p < getDepth)%Z ->
  refraction_media p i w = Done (ni, nt, st) w ->
  scene p' = tracer_scene self -> depth p' = (depth p + 1)%Z ->
  material_stack p' = st -> Q p'.

Lemma wp_traceReflection rec param i w :
  (forall p' w1, (depth param < getDepth)%Z ->
     scene p' = tracer_scene self -> depth p' = (depth param + 1)%Z ->
     material_stack p' = material_stack param ->
     wp u f (rec p') w1 (fun _ w2 => extends Q w1 w2)) ->
  wp u f (traceReflection rec self param i) w (fun _ w' => extends Q w w').
Proof.
  intros Hrec. unfold traceReflection.
  destruct (iszero _ || _) eqn:Hguard; [apply wp_ret, extends_refl|].
  apply orb_false_iff in Hguard as [_ Hd]. apply Z.leb_gt in Hd.
  destruct (_ =? 0)%Z.
  - apply Hrec; [exact Hd|reflexivity..].
  - apply wp_bind. unfold for_range.
    eapply wp_mono; [|apply (wp_for_loop u f (extends Q w)); [|apply extends_refl]].
    + intros a w' Hw'. apply wp_ret, Hw'.
    + intros k acc w1 Hw1. apply wp_bind.
      unfold wp at 1, Generate.
      destruct (cone_Generate _ _ _) as [dir s1].
      apply wp_bind. eapply wp_mono; [|apply Hrec; [exact Hd|reflexivity..]].
      intros c w2 Hw2. apply wp_ret.
      eapply extends_trans; [exact Hw1|].
      eapply extends_trans; [|exact Hw2].
      apply extends_trail. reflexivity.
Qed.

Lemma refraction_media_cases param i w :
  match refraction_media param i w with
  | Done (ni, nt, st) w1 =>
      w1 = w /\
      exists m, head (material_stack param) = Some m /\
        if bool_decide (getMaterial i = m)
        then st = tail (material_stack param)
             /\ is_Some (material_stack param !! 1%nat)
        else st = getMaterial i :: material_stack param
  | Undefined =>
      head (material_stack param) = None
      \/ (head (material_stack param) = Some (getMaterial i)
          /\ material_stack param !! 1%nat = None)
  | OutOfFuel => False
  end.
Proof.
  unfold refraction_media, IsLeavingObject, front, deque_at, deref.
  unfold mbind, M_bind, mret, M_ret, undefined.
  destruct (head (material_stack param)) as [m|]; [|left; reflexivity].
  destruct (bool_decide (getMaterial i = m)) eqn:Hl.
  - apply bool_decide_eq_true in Hl. subst m.
    destruct (material_stack param !! 1%nat) as [o|] eqn:Ho.
    + split; [reflexivity|]. eexists; split; [reflexivity|].
      rewrite bool_decide_eq_true_2 by reflexivity. split; [reflexivity|eauto].
    + right. split; reflexivity.
  - split; [reflexivity|]. eexists; split; [reflexivity|]. rewrite Hl. reflexivity.
Qed.

Lemma wp_traceRefraction rec param i w :
  Q param ->
  (forall p' w1 ni nt st, (depth param < getDepth)%Z ->
     refraction_media param i w = Done (ni, nt, st) w ->
     scene p' = tracer_scene self -> depth p' = (depth param + 1)%Z ->
     material_stack p' = st ->
     wp u f (rec p') w1 (fun _ w2 => extends Q w1 w2)) ->
  wp u f (traceRefraction rec self param i) w (fun _ w' => extends Q w w').
Proof.
  intros HQ Hrec. unfold traceRefraction.
  destruct (negb _ && _) eqn:Hguard; [|apply wp_ret, extends_refl].
  apply andb_true_iff in Hguard as [_ Hd]. apply Z.ltb_lt in Hd.
  apply wp_bind. unfold wp at 1.
  pose proof (refraction_media_cases param i w) as Hc.
  destruct (refraction_media param i w) as [[[ni nt] st] w1| |] eqn:Hm.
  - destruct Hc as [-> _].
    destruct (_ <? 0)%float; [apply wp_ret, extends_refl|].
    apply (Hrec _ _ ni nt st Hd eq_refl); reflexivity.
  - destruct Hc as [Hh|[Hh Hs]].
    + destruct (Q_front _ HQ) as [Hu|[m Hm']]; [exact Hu|congruence].
    + destruct (Q_second _ _ HQ Hh) as [Hu|[m Hm']]; [exact Hu|congruence].
  - destruct Hc.
Qed.

Lemma fresnel_blend_world param i m reflection refraction w :
  head (material_stack param) = Some m ->
  exists x, fresnel_blend param i reflection refraction w = Done x w.
Proof.
  intros Hm. rewrite (fresnel_blend_run _ _ _ _ _ _ Hm).
  rewrite (GetFresnelCoeff_run _ _ _ _ Hm).
  destruct (IsEnableFresnel && _); eauto.
Qed.

(** [traceRay] keeps the invariant: from a context that satisfies [Q], and
    with fuel for the depth that is left (or leave to run out of it), every
    context [traceRay] is entered with during the run satisfies [Q]. *)
Lemma wp_traceRay fuel param w :
  Q param ->
  (f \/ (recursion_bound param <= fuel)%nat) ->
  wp u f (traceRay fuel self param) w (fun _ w' => extends Q w w').
Proof.
  revert param w. induction fuel as [|fuel IH]; intros param w HQ Hfuel.
  { unfold wp. simpl. destruct Hfuel as [Hf|Hb]; [exact Hf|].
    unfold recursion_bound in Hb. lia. }
  assert (Hchild : forall p', (depth param < getDepth)%Z ->
            depth p' = (depth param + 1)%Z ->
            f \/ (recursion_bound p' <= fuel)%nat).
  { intros p' Hd Hp'. destruct Hfuel as [Hf|Hb]; [left; exact Hf|right].
    unfold recursion_bound in *. rewrite Hp'. lia. }
  cbn [traceRay]. apply wp_bind. unfold wp at 1. cbn [record].
  set (w0 := {| rand_state := rand_state w; trail := trail w ++ [EvTraceRay param] |}).
  assert (H0 : extends Q w w0) by (apply extends_entry, HQ).
  destruct (_ && _); [apply wp_ret, H0|].
  apply wp_bind, wp_deref; [apply Q_scene, HQ|]. intros s Hs.
  apply wp_bind. unfold wp at 1, scene_intersect, mbind, M_bind. cbn [record mret M_ret].
  set (w1 := {| rand_state := rand_state w0; trail := trail w0 ++ [EvIntersect (r param)] |}).
  assert (H1 : extends Q w w1).
  { eapply extends_trans; [exact H0|apply extends_query]. }
  destruct (intersect s (r param)) as [i0|]; [|apply wp_ret, H1].
  apply wp_bind. unfold wp at 1.
  destruct (head (material_stack param)) as [m|] eqn:Hm.
  2:{ unfold IsLeavingObject, mbind, M_bind, front. rewrite Hm. simpl.
      destruct (Q_front _ HQ) as [Hu|[m Hm']]; [exact Hu|congruence]. }
  rewrite (IsLeavingObject_run _ i0 _ w1 Hm).
  set (i := orient (bool_decide (getMaterial i0 = m)) i0).
  apply wp_bind. unfold wp at 1. rewrite Material_shade_run.
  set (ws := {| rand_state := _; trail := trail w1 ++ _ |}).
  assert (Hs1 : extends Q w ws).
  { eapply extends_trans; [exact H1|apply extends_shade]. }
  apply wp_bind.
  apply (wp_mono _ _ _ _ (fun _ w2 => extends Q ws w2)).
  2:{ destruct IsEnableReflection; [|apply wp_ret, extends_refl].
      apply wp_traceReflection. intros p' w' Hd Hsc Hdp Hst.
      apply IH; [|apply Hchild; assumption].
      apply (Q_reflection param); assumption. }
  intros reflection w2 H2. apply wp_bind.
  apply (wp_mono _ _ _ _ (fun _ w3 => extends Q w2 w3)).
  2:{ destruct IsEnableRefraction; [|apply wp_ret, extends_refl].
      apply wp_traceRefraction; [exact HQ|].
      intros p' w' ni nt st Hd Hmedia Hsc Hdp Hst.
      apply IH; [|apply Hchild; assumption].
      apply (Q_refraction param p' i ni nt st w2); assumption. }
  intros refraction w3 H3. apply wp_bind. unfold wp at 1.
  destruct (fresnel_blend_world param i m reflection refraction w3 Hm) as [[rl rr] ->].
  apply wp_ret.
  eapply extends_trans; [exact Hs1|]. eapply extends_trans; [exact H2|exact H3].
Qed.

End Invariant.

Lemma wp_total {A} (m : M A) w (post : A -> World -> Prop) :
  wp False False m w post -> exists a w', m w = Done a w' /\ post a w'.
Proof. unfold wp. destruct (m w) as [a w'| |]; [eauto|tauto..]. Qed.

Lemma wp_partial {A} (m : M A) w (post : A -> World -> Prop) a w' :
  wp True True m w post -> m w = Done a w' -> post a w'.
Proof. unfold wp. intros H Hm. rewrite Hm in H. exact H. Qed.

Lemma wp_fuelled {A} (m : M A) w (post : A -> World -> Prop) :
  wp True False m w post -> m w <> OutOfFuel.
Proof. unfold wp. intros H Hm. rewrite Hm in H. exact H. Qed.

Lemma for_loop_ext {A} (body body' : Z -> A -> M A) n k acc w :
  (forall k acc w, body k acc w = body' k acc w) ->
  for_loop n k body acc w = for_loop n k body' acc w.
Proof.
  intros H. revert k acc w. induction n as [|n IH]; intros k acc w; simpl.
  - reflexivity.
  - unfold mbind, M_bind. rewrite H.
    destruct (body' k acc w) as [acc' w'| |]; [apply IH|reflexivity..].
Qed.

Lemma bind_ext {A B} (m : M A) (k k' : A -> M B) w :
  (forall a w1, k a w1 = k' a w1) -> (m ≫= k) w = (m ≫= k') w.
Proof.
  intros H. unfold mbind, M_bind. destruct (m w) as [a w1| |]; [apply H|reflexivity..].
Qed.

Lemma bind_ext_l {A B} (m m' : M A) (k : A -> M B) w :
  m w = m' w -> (m ≫= k) w = (m' ≫= k) w.
Proof. intros H. unfold mbind, M_bind. rewrite H. reflexivity. Qed.

Lemma bind_cong {A B} (m m' : M A) (k k' : A -> M B) w :
  m w = m' w -> (forall a w1, k a w1 = k' a w1) -> (m ≫= k) w = (m' ≫= k') w.
Proof.
  intros Hm Hk. rewrite (bind_ext_l m m' k w Hm). apply bind_ext, Hk.
Qed.

(** A branch consults the function it recurses into only below the
    configured depth, and only at contexts one level deeper. *)
Lemma traceReflection_ext rec rec' self param i w :
  ((depth param < getDepth)%Z ->
   forall p w1, depth p = (depth param + 1)%Z -> rec p w1 = rec' p w1) ->
  traceReflection rec self param i w = traceReflection rec' self param i w.
Proof.
  intros Hrec. unfold traceReflection.
  destruct (iszero _ || _) eqn:Hg; [reflexivity|].
  apply orb_false_iff in Hg as [_ Hd]. apply Z.leb_gt in Hd.
  specialize (Hrec Hd).
  destruct (_ =? 0)%Z; [apply Hrec; reflexivity|].
  apply bind_ext_l. unfold for_range. apply for_loop_ext.
  intros k acc w1. apply bind_ext. intros dir w2.
  apply bind_ext_l, Hrec. reflexivity.
Qed.

Lemma traceRefraction_ext rec rec' self param i w :
  ((depth param < getDepth)%Z ->
   forall p w1, depth p = (depth param + 1)%Z -> rec p w1 = rec' p w1) ->
  traceRefraction rec self param i w = traceRefraction rec' self param i w.
Proof.
  intros Hrec. unfold traceRefraction.
  destruct (negb _ && _) eqn:Hg; [|reflexivity].
  apply andb_true_iff in Hg as [_ Hd]. apply Z.ltb_lt in Hd.
  specialize (Hrec Hd).
  apply bind_ext. intros [[ni nt] st] w1.
  destruct (_ <? 0)%float; [reflexivity|]. apply Hrec. reflexivity.
Qed.

(** Fuel beyond the depth that is left changes nothing. *)
Lemma traceRay_fuel_irrelevant fuel fuel' self param w :
  (recursion_bound param <= fuel)%nat -> (recursion_bound param <= fuel')%nat ->
  traceRay fuel self param w = traceRay fuel' self param w.
Proof.
  revert fuel' param w. induction fuel as [|n IH]; intros fuel' param w H1 H2.
  { unfold recursion_bound in H1. lia. }
  destruct fuel' as [|n']; [unfold recursion_bound in H2; lia|].
  assert (Hrec : (depth param < getDepth)%Z ->
                 forall p w1, depth p = (depth param + 1)%Z ->
                 traceRay n self p w1 = traceRay n' self p w1).
  { intros Hd p w1 Hp. apply IH; unfold recursion_bound in *; rewrite Hp; lia. }
  cbn [traceRay]. apply bind_ext. intros _ w0.
  destruct (_ && _); [reflexivity|].
  apply bind_ext. intros s w1. apply bind_ext. intros [i0|] w2; [|reflexivity].
  apply bind_ext. intros leaving w3. apply bind_ext. intros local w3'.
  apply bind_cong.
  { destruct IsEnableReflection; [|reflexivity]. apply traceReflection_ext, Hrec. }
  intros reflection w4. apply bind_ext_l.
  destruct IsEnableRefraction; [|reflexivity]. apply traceRefraction_ext, Hrec.
Qed.

(** ** The invariants of a trace *)

Lemma air_at_bottom_second (st : list MaterialPtr) a :
  last st = Some AirLocal -> head st = Some (SceneMaterial a) ->
  is_Some (st !! 1%nat) /\ last (tail st) = Some AirLocal.
Proof.
  destruct st as [|x [|y st]]; simpl; try discriminate.
  - intros [= ->] [=].
  - intros Hl _. split; [eauto|exact Hl].
Qed.

Lemma air_at_bottom_push (st : list MaterialPtr) x :
  last st = Some AirLocal -> last (x :: st) = Some AirLocal.
Proof. destruct st; [discriminate|]. intros H. exact H. Qed.

Lemma refraction_media_air_at_bottom param i ni nt st w w1 :
  air_at_bottom param ->
  refraction_media param i w = Done (ni, nt, st) w1 ->
  last st = Some AirLocal.
Proof.
  unfold air_at_bottom. intros Hl Hm.
  pose proof (refraction_media_cases param i w) as Hc. rewrite Hm in Hc.
  destruct Hc as (_ & m & Hh & Hc).
  destruct (bool_decide (getMaterial i = m)) eqn:Hb.
  - destruct Hc as [-> _]. apply bool_decide_eq_true in Hb. subst m.
    apply (air_at_bottom_second _ _ Hl Hh).
  - subst st. apply air_at_bottom_push, Hl.
Qed.

(** From a well-formed context, with a scene loaded and fuel for the depth
    left, [traceRay] returns a colour, and every context it was entered
    with is well-formed. *)
Lemma traceRay_well_formed fuel self param w :
  is_Some (tracer_scene self) -> well_formed param ->
  (recursion_bound param <= fuel)%nat ->
  exists c w', traceRay fuel self param w = Done c w' /\ extends well_formed w w'.
Proof.
  intros Hself Hwf Hfuel. apply wp_total.
  apply (wp_traceRay False False well_formed self); auto.
  - intros p [Hs _]. right. exact Hs.
  - intros p [_ Hl]. right. unfold air_at_bottom in Hl.
    destruct (material_stack p); [discriminate|]. simpl. eauto.
  - intros p a [_ Hl] Hh. right. apply (air_at_bottom_second _ _ Hl Hh).
  - intros p p' [_ Hl] _ Hsc _ Hst. split.
    + rewrite Hsc. exact Hself.
    + unfold air_at_bottom. rewrite Hst. exact Hl.
  - intros p p' i ni nt st w0 [_ Hl] _ Hm Hsc _ Hst. split.
    + rewrite Hsc. exact Hself.
    + unfold air_at_bottom. rewrite Hst.
      apply (refraction_media_air_at_bottom _ _ _ _ _ _ _ Hl Hm).
Qed.

(** With fuel for the depth left, [traceRay] does not run out of it,
    whatever the context. *)
Lemma traceRay_fuelled fuel self param w :
  (recursion_bound param <= fuel)%nat ->
  traceRay fuel self param w <> OutOfFuel.
Proof.
  intros Hfuel.
  apply (wp_fuelled _ _ (fun _ w' => extends (fun _ => True) w w')).
  apply (wp_traceRay True False (fun _ => True) self); auto.
Qed.

(** Every context entered during a run of [traceRay] is the context of the
    run or a strictly deeper one, of depth at most the configured one. *)
Lemma traceRay_depths fuel self param w c w' :
  traceRay fuel self param w = Done c w' ->
  extends (fun p => p = param
                    \/ (depth param < depth p)%Z /\ (depth p <= getDepth)%Z) w w'.
Proof.
  intros Hrun.
  apply (wp_partial (traceRay fuel self param) w
           (fun _ w' => extends (fun p => p = param
              \/ (depth param < depth p)%Z /\ (depth p <= getDepth)%Z) w w') c w');
    [|exact Hrun].
  apply (wp_traceRay True True _ self); auto.
  - intros p p' Hp Hd _ Hdp _. right. destruct Hp as [->|[Hp1 Hp2]]; lia.
  - intros p p' i ni nt st w0 Hp Hd _ _ Hdp _. right.
    destruct Hp as [->|[Hp1 Hp2]]; lia.
Qed.

(** The depths of a run stay in [int] when the depth it starts from and the
    configured maximum are: the [depth + 1] of the branches never
    overflows, as the depth is an integer without bound here. *)
Lemma traceRay_depths_in_int fuel self param w c w' :
  (INT_MIN <= depth param <= INT_MAX)%Z -> (getDepth <= INT_MAX)%Z ->
  traceRay fuel self param w = Done c w' ->
  extends (fun p => (INT_MIN <= depth p <= INT_MAX)%Z) w w'.
Proof.
  intros Hd Hmax Hrun.
  eapply extends_weaken; [|apply (traceRay_depths _ _ _ _ _ _ Hrun)].
  intros p [->|[H1 H2]]; lia.
Qed.

(** [trace] with a scene loaded returns a colour; the stacks of all the
    contexts of the run end in the air sentinel. *)
Lemma trace_well_formed self s x y w :
  is_Some (tracer_scene self) ->
  exists c w', trace self (Some s) x y w = Done c w' /\ extends air_at_bottom w w'.
Proof.
  intros Hself. unfold trace. cbn [deref].
  unfold mbind at 1. unfold M_bind at 1. cbn [mret M_ret].
  unfold mbind at 1. unfold M_bind at 1. cbn [record].
  set (w0 := {| rand_state := rand_state w; trail := trail w ++ [EvRayThrough x y] |}).
  set (param := {| scene := Some s; r := rayThrough s x y; thresh := vec3f_make 1 1 1;
                   depth := 0%Z; material_stack := [AirLocal] |}).
  destruct (traceRay_well_formed (recursion_bound param) self param w0 Hself)
    as (c & w' & Hrun & Hext); [split; [eauto|reflexivity]|lia|].
  exists (clamp c), w'. split.
  - unfold mbind, M_bind. rewrite Hrun. reflexivity.
  - eapply extends_trans; [|eapply extends_weaken; [|exact Hext]].
    + exists [EvRayThrough x y]. split; [reflexivity|constructor].
    + intros p [_ Hp]. exact Hp.
Qed.

(** ** Recursion depth *)

(** C1. At a depth at or beyond the configured maximum both branches
    return the zero colour and leave the world as it was, whatever function
    they would recurse into. What a branch returns depends on that function
    only at contexts of depth exactly depth + 1: those are the calls it
    makes. In consequence every context entered during a run of [traceRay]
    is the context of the run or a strictly deeper one, of depth at most
    the configured maximum. *)
Theorem branch_depth (rec rec' : TraceParam -> M vec3f) (self : RayTracer)
    (param : TraceParam) (i : isect) (w : World) :
  ((getDepth <= depth param)%Z ->
     traceReflection rec self param i w = Done vec3f_zero w
     /\ traceRefraction rec self param i w = Done vec3f_zero w)
  /\ ((forall p w1, depth p = (depth param + 1)%Z -> rec p w1 = rec' p w1) ->
      traceReflection rec self param i w = traceReflection rec' self param i w
      /\ traceRefraction rec self param i w = traceRefraction rec' self param i w)
  /\ (forall fuel c w', traceRay fuel self param w = Done c w' ->
      extends (fun p => p = param
                        \/ (depth param < depth p)%Z /\ (depth p <= getDepth)%Z) w w').
Proof.
  split; [|split].
  - intros Hd. unfold traceReflection, traceRefraction.
    apply Z.leb_le in Hd as Hd1. rewrite Hd1, orb_true_r.
    assert ((depth param <? getDepth)%Z = false) as -> by (apply Z.ltb_ge; lia).
    rewrite andb_false_r. split; reflexivity.
  - intros Hrec. split.
    + apply traceReflection_ext. intros _. exact Hrec.
    + apply traceRefraction_ext. intros _. exact Hrec.
  - intros fuel c w'. apply traceRay_depths.
Qed.

(** ** The material stack *)

(** C4. A trace with a scene loaded returns, and the stack of every context
    of its run is not empty and ends in the air sentinel. The refraction
    branch pops the stack only when its front is the hit material, which
    the sentinel never is, and pushes the hit material otherwise; either
    way a stack that ends in the sentinel still ends in it. After entering
    a material, leaving that same material gives back the stack from
    before the entry. *)
Theorem material_stack_invariant (self : RayTracer) (s : Scene) (x y : double)
    (w : World) :
  is_Some (tracer_scene self) ->
  (exists c w',
     trace self (Some s) x y w = Done c w'
     /\ extends (fun p => material_stack p <> []
                          /\ last (material_stack p) = Some AirLocal) w w')
  /\ (forall param i ni nt st w1,
        refraction_media param i w = Done (ni, nt, st) w1 ->
        getMaterial i <> AirLocal
        /\ (head (material_stack param) = Some (getMaterial i)
            /\ st = tail (material_stack param)
            \/ head (material_stack param) <> Some (getMaterial i)
               /\ st = getMaterial i :: material_stack param)
        /\ (last (material_stack param) = Some AirLocal -> last st = Some AirLocal))
  /\ (forall param i ni nt st w1 param' i',
        refraction_media param i w = Done (ni, nt, st) w1 ->
        head (material_stack param) <> Some (getMaterial i) ->
        material_stack param' = st ->
        getMaterial i' = getMaterial i ->
        exists ni' nt',
          refraction_media param' i' w = Done (ni', nt', material_stack param) w).
Proof.
  intros Hself. split; [|split].
  - destruct (trace_well_formed self s x y w Hself) as (c & w' & Hrun & Hext).
    exists c, w'. split; [exact Hrun|].
    eapply extends_weaken; [|exact Hext].
    intros p Hp. split; [|exact Hp].
    unfold air_at_bottom in Hp. destruct (material_stack p); [discriminate|congruence].
  - intros param i ni nt st w1 Hm. split; [discriminate|]. split.
    2:{ intros Hl. apply (refraction_media_air_at_bottom _ _ _ _ _ _ _ Hl Hm). }
    pose proof (refraction_media_cases param i w) as Hc. rewrite Hm in Hc.
    destruct Hc as (_ & m & Hh & Hc).
    destruct (bool_decide (getMaterial i = m)) eqn:Hb.
    + apply bool_decide_eq_true in Hb. subst m. left. tauto.
    + apply bool_decide_eq_false in Hb. right. split; [congruence|exact Hc].
  - intros param i ni nt st w1 param' i' Hm Hne Hst Hi.
    pose proof (refraction_media_cases param i w) as Hc. rewrite Hm in Hc.
    destruct Hc as (_ & m & Hh & Hc).
    rewrite bool_decide_eq_false_2 in Hc by congruence. rewrite Hc in Hst.
    unfold refraction_media, IsLeavingObject, front, deque_at, deref.
    unfold mbind, M_bind, mret, M_ret. rewrite Hst, Hi. simpl.
    rewrite bool_decide_eq_true_2 by reflexivity.
    destruct (material_stack param) as [|m' st']; [discriminate|]. simpl. eauto.
Qed.

(** ** Mirror reflection *)

Lemma for_loop_sum (c : vec3f) (body : Z -> vec3f -> M vec3f) :
  (forall k acc w, exists w', body k acc w = Done (acc + c)%vec w') ->
  forall n k acc w,
    exists w', for_loop n k body acc w
               = Done (Nat.iter n (fun acc => (acc + c)%vec) acc) w'.
Proof.
  intros Hbody. induction n as [|n IH]; intros k acc w.
  - exists w. reflexivity.
  - cbn [for_loop]. destruct (Hbody k acc w) as [w1 H1].
    rewrite (bind_run _ _ _ _ _ H1).
    destruct (IH (k + 1)%Z (acc + c)%vec w1) as [w2 H2]. exists w2.
    rewrite H2, Nat.iter_succ_r. reflexivity.
Qed.

(** C8, amended. With reflectivity and depth left, [traceReflection] at
    glossy sample count 0 returns what tracing the single mirror ray
    returns: the ray of direction 2 (N.V) N - V normalized, from the hit
    point displaced by epsilon along the normal, with the weight multiplied
    by kr, depth + 1 and the same material stack. The glossy path traces
    that same context, for every sample, when the cone sampler returns the
    mirror direction; where each of these traces returns the colour c, the
    path with N samples returns the sum 0 + c + ... + c of N terms, added
    one by one, divided by N. For one sample that is c added to zero and
    divided by 1; for more it is c only up to the rounding of the sum and
    of the quotient. *)
Theorem traceReflection_mirror (rec : TraceParam -> M vec3f) (self : RayTracer)
    (param : TraceParam) (i : isect) (w : World) :
  iszero (kr (material_at (getMaterial i))) = false ->
  (depth param < getDepth)%Z ->
  let mirror := mirror_ray_context self param i in
  (GetGlossyReflectionSample = 0%Z ->
     traceReflection rec self param i w = rec mirror w)
  /\ (let V := (- getDirection (r param))%vec in
      let N := isect_N i in
      ray_d (r mirror) = normalize (vec3f_scale (2 * dot N V) N - V)%vec
      /\ ray_d (r mirror) = center_dir param i
      /\ ray_p (r mirror) = (ray_at (r param) (isect_t i) + vec3f_times N RAY_EPSILON)%vec
      /\ thresh mirror = prod (thresh param) (kr (material_at (getMaterial i)))
      /\ depth mirror = (depth param + 1)%Z
      /\ material_stack mirror = material_stack param)
  /\ ((forall s, fst (cone_Generate (center_dir param i) 0.1 s) = center_dir param i) ->
      traceReflection rec self param i w
      = traceReflection (fun _ => rec mirror) self param i w
      /\ (GetGlossyReflectionSample = 1%Z ->
          traceReflection rec self param i w
          = (Generate (center_dir param i) 0.1;;
             c ← rec mirror;
             mret (vec3f_div (vec3f_zero + c)%vec (int_to_double 1))) w)
      /\ (forall c,
            GetGlossyReflectionSample <> 0%Z ->
            (forall w1, exists w2, rec mirror w1 = Done c w2) ->
            exists w',
              traceReflection rec self param i w
              = Done (vec3f_div
                        (Nat.iter (Z.to_nat GetGlossyReflectionSample)
                           (fun acc => (acc + c)%vec) vec3f_zero)
                        (int_to_double GetGlossyReflectionSample)) w')).
Proof.
  intros Hkr Hd mirror.
  assert (Hg : (iszero (kr (material_at (getMaterial i))) || (getDepth <=? depth param)%Z)
               = false).
  { rewrite Hkr. apply Z.leb_gt, Hd. }
  split; [|split].
  - intros Hs. unfold traceReflection. rewrite Hg, Hs. reflexivity.
  - repeat split; reflexivity.
  - intros Hcone.
    assert (Hbody : forall (acc : vec3f) w1,
      (dir ← Generate (center_dir param i) 0.1;
       c ← rec {| scene := tracer_scene self;
                  r := {| ray_p := out_point param i; ray_d := dir |};
                  thresh := prod (thresh param) (kr (material_at (getMaterial i)));
                  depth := (depth param + 1)%Z;
                  material_stack := material_stack param |};
       mret (acc + c)%vec) w1
      = (Generate (center_dir param i) 0.1;;
         c ← rec mirror; mret (acc + c)%vec) w1).
    { intros acc w1. unfold mbind, M_bind, Generate.
      specialize (Hcone (rand_state w1)).
      destruct (cone_Generate _ _ _) as [dir s1]. simpl in Hcone. subst dir.
      reflexivity. }
    split; [|split].
    + unfold traceReflection. rewrite Hg.
      destruct (_ =? 0)%Z; [reflexivity|].
      unfold mbind at 1 4. unfold M_bind at 1 4. unfold for_range.
      erewrite for_loop_ext; [reflexivity|].
      intros k acc w1. rewrite Hbody. reflexivity.
    + intros Hs. unfold traceReflection. rewrite Hg, Hs.
      change (1 =? 0)%Z with false. cbv iota. unfold for_range.
      change (Z.to_nat (1 - 0)) with 1%nat. cbn [for_loop].
      unfold mbind at 1. unfold M_bind at 1.
      unfold mbind at 1. unfold M_bind at 1.
      rewrite Hbody. unfold mbind, M_bind.
      destruct (Generate _ _ w) as [dir w1| |]; [|reflexivity..].
      destruct (rec mirror w1) as [c w2| |]; reflexivity.
    + intros c Hs Hrec. unfold traceReflection. rewrite Hg.
      apply Z.eqb_neq in Hs. rewrite Hs. unfold for_range. rewrite Z.sub_0_r.
      match goal with |- context [for_loop _ _ ?b _] =>
        destruct (for_loop_sum c b) with (n := Z.to_nat GetGlossyReflectionSample)
          (k := 0%Z) (acc := vec3f_zero) (w := w) as [w' Hloop]
      end.
      { intros k acc w1. rewrite Hbody.
        unfold mbind, M_bind, Generate.
        destruct (cone_Generate _ _ _) as [dir s1].
        destruct (Hrec {| rand_state := s1; trail := trail w1 |}) as [w2 ->].
        eexists. reflexivity. }
      exists w'. rewrite (bind_run _ _ _ _ _ Hloop). reflexivity.
Qed.

(** ** The Fresnel coefficient of a leaving ray *)

Lemma IsLeavingObject_true param i w :
  IsLeavingObject param i w = Done true w ->
  head (material_stack param) = Some (getMaterial i).
Proof.
  unfold IsLeavingObject, front, deref, mbind, M_bind, mret, M_ret, undefined.
  destruct (head (material_stack param)) as [m|]; [|discriminate].
  intros [= H]. apply bool_decide_eq_true in H. congruence.
Qed.

(** C10, amended. When [IsLeavingObject] is true and the index of the hit
    material is a finite, nonzero double, [GetFresnelCoeff] reads both ni
    and nt from that one material (it is the front of the stack): r0 is 0,
    the test ni <= nt holds, and the coefficient is (1 - cos)^5 (+0 where
    that power is -0); it is the same for every stack with that front,
    whatever medium lies below it. *)
Theorem GetFresnelCoeff_leaving (param : TraceParam) (i : isect) (w : World) :
  IsLeavingObject param i w = Done true w ->
  let idx := index (material_at (getMaterial i)) in
  PrimFloat.is_finite idx = true -> PrimFloat.is_zero idx = false ->
  let cos_theta := dot (isect_N i) (- getDirection (r param))%vec in
  let power := pow (1 - cos_theta) 5 in
  head (material_stack param) = Some (getMaterial i)
  /\ ((idx - idx) / (idx + idx) * ((idx - idx) / (idx + idx)))%float = 0%float
  /\ (idx <=? idx)%float = true
  /\ (exists coeff,
       GetFresnelCoeff param i w = Done coeff w
       /\ coeff = schlick idx idx cos_theta
       /\ (coeff = power \/ power = (-0)%float /\ coeff = 0%float))
  /\ (forall param',
        r param' = r param ->
        head (material_stack param') = Some (getMaterial i) ->
        GetFresnelCoeff param' i w = GetFresnelCoeff param i w).
Proof.
  intros Hl idx Hf Hz cos_theta power.
  apply IsLeavingObject_true in Hl.
  assert (Hsame : forall param', r param' = r param ->
            head (material_stack param') = Some (getMaterial i) ->
            GetFresnelCoeff param' i w = GetFresnelCoeff param i w).
  { intros param' Hr Hl'.
    rewrite (GetFresnelCoeff_run _ _ _ _ Hl), (GetFresnelCoeff_run _ _ _ _ Hl'), Hr.
    reflexivity. }
  assert (Hle : (idx <=? idx)%float = true).
  { apply float_leb_refl. unfold PrimFloat.is_finite in Hf.
    destruct (PrimFloat.is_nan idx); [discriminate|reflexivity]. }
  pose proof (float_r0_same idx Hf Hz) as Hr0.
  repeat split; try assumption.
  exists (schlick idx idx cos_theta). split; [|split; [reflexivity|]].
  - rewrite (GetFresnelCoeff_run _ _ _ _ Hl).
    rewrite bool_decide_eq_true_2 by reflexivity. reflexivity.
  - unfold schlick. rewrite Hle, Hr0.
    change (1 - 0)%float with 1%float. rewrite float_one_mul.
    apply float_zero_add.
Qed.

End Properties.

(** * The properties on the concrete scenes *)

Section OnDemo.

#[local] Existing Instance Demo.vecmath.

Local Open Scope float_scope.

(** C1 on the mirrored sphere at depth limit 1: at depth 1 both branches
    return zero; from depth 0 the reflection branch returns the same with a
    callee that is undefined off depth 1; the run from depth 0 enters
    [traceRay] at depths 0 and 1. *)
Lemma branch_depth_witness :
  let E := Demo.externals (Demo.ui 1) in
  let self := Demo.tracer (Some Demo.mirrored_sphere) in
  let at_limit := Demo.context (Some Demo.mirrored_sphere) (Demo.V3 1 1 1) (-1) 1 [AirLocal] in
  let top := Demo.context (Some Demo.mirrored_sphere) (Demo.V3 1 1 1) (-1) 0 [AirLocal] in
  let at_depth_1 := fun p => if (depth p =? 1)%Z then traceRay 1 self p else undefined in
  (traceReflection (traceRay 1 self) self at_limit (Demo.hit 1) Demo.world0
     = Done vec3f_zero Demo.world0
   /\ traceRefraction (traceRay 1 self) self at_limit (Demo.hit 1) Demo.world0
     = Done vec3f_zero Demo.world0)
  /\ traceReflection (traceRay 1 self) self top (Demo.hit 1) Demo.world0
     = traceReflection at_depth_1 self top (Demo.hit 1) Demo.world0
  /\ exists c w',
       traceRay 2 self top Demo.world0 = Done c w'
       /\ extends (fun p => p = top \/ (depth top < depth p)%Z /\ (depth p <= getDepth)%Z)
            Demo.world0 w'.
Proof.
  intros E self at_limit top at_depth_1. split; [|split].
  - destruct (branch_depth (E := E) (traceRay 1 self) (traceRay 1 self) self at_limit
                (Demo.hit 1) Demo.world0) as (Hzero & _ & _).
    apply Hzero. vm_compute. intros H. discriminate H.
  - destruct (branch_depth (E := E) (traceRay 1 self) at_depth_1 self top
                (Demo.hit 1) Demo.world0) as (_ & Hcalls & _).
    apply Hcalls. intros p w1 Hp. unfold at_depth_1. rewrite Hp. reflexivity.
  - destruct (branch_depth (E := E) (traceRay 1 self) (traceRay 1 self) self top
                (Demo.hit 1) Demo.world0) as (_ & _ & Hrun).
    let o := eval vm_compute in (traceRay 2 self top Demo.world0) in
    match o with Done ?c ?w' => exists c, w' end.
    split.
    + vm_compute. reflexivity.
    + apply (Hrun 2%nat (Demo.V3 0.5 0.5 0.5)). vm_compute. reflexivity.
Defined.

(** C3 on a weight of 0.005 per channel, under the threshold 0.01, with no
    scene at all. *)
Lemma traceRay_threshold_cutoff_witness :
  let E := Demo.externals (Demo.ui 1) in
  let faint := Demo.context None (Demo.V3 0.005 0.005 0.005) (-1) 0 [AirLocal] in
  exists w',
    traceRay 1 (Demo.tracer None) faint Demo.world0 = Done vec3f_zero w'
    /\ trail w' = trail Demo.world0 ++ [EvTraceRay faint]
    /\ scene_queries (trail w') = scene_queries (trail Demo.world0)
    /\ rand_state w' = rand_state Demo.world0.
Proof.
  intros E faint.
  apply (traceRay_threshold_cutoff (E := E) 0 (Demo.tracer None) faint Demo.world0);
    reflexivity.
Defined.

(** C4 on the glass sphere: the trace returns; a ray in air that hits the
    glass enters it, and leaving the glass gives back the stack of air. *)
Lemma material_stack_invariant_witness :
  let E := Demo.externals (Demo.ui 3) in
  let self := Demo.tracer (Some (Demo.sphere 2)) in
  let in_air := Demo.context (Some (Demo.sphere 2)) (Demo.V3 1 1 1) (-1) 0 [AirLocal] in
  let in_glass := Demo.context (Some (Demo.sphere 2)) (Demo.V3 1 1 1) (-1) 1
                    [SceneMaterial 2; AirLocal] in
  (exists c w',
     trace self (Some (Demo.sphere 2)) 0.5 0.5 Demo.world0 = Done c w'
     /\ extends (fun p => material_stack p <> []
                          /\ last (material_stack p) = Some AirLocal) Demo.world0 w')
  /\ refraction_media in_air (Demo.hit 2) Demo.world0
     = Done (1, 1.5, [SceneMaterial 2; AirLocal]) Demo.world0
  /\ exists ni' nt',
       refraction_media in_glass (Demo.hit 2) Demo.world0
       = Done (ni', nt', [AirLocal]) Demo.world0.
Proof.
  intros E self in_air in_glass.
  destruct (material_stack_invariant (E := E) self (Demo.sphere 2) 0.5 0.5 Demo.world0)
    as (Hrun & _ & Hround).
  { vm_compute. eauto. }
  split; [exact Hrun|]. split; [reflexivity|].
  apply (Hround in_air (Demo.hit 2) 1 1.5 [SceneMaterial 2; AirLocal] Demo.world0
           in_glass (Demo.hit 2)).
  - reflexivity.
  - vm_compute. intros H. discriminate H.
  - reflexivity.
  - reflexivity.
Defined.

(** C5 on three boundaries: from air into glass (ni <= nt); from glass onto
    an index-1 surface at a grazing ray (negative discriminant); and the
    same boundary head-on (the discriminant is 1, the square root is that
    of 1 - 1.5). *)
Lemma GetFresnelCoeff_schlick_witness :
  let E := Demo.externals (Demo.ui 3) in
  let into_glass := Demo.context None (Demo.V3 1 1 1) (-0.5) 0 [AirLocal] in
  let grazing := Demo.context None (Demo.V3 1 1 1) (-0.5) 0 [SceneMaterial 2; AirLocal] in
  let head_on := Demo.context None (Demo.V3 1 1 1) (-1) 0 [SceneMaterial 2; AirLocal] in
  GetFresnelCoeff into_glass (Demo.hit 2) Demo.world0 = Done 0.07 Demo.world0
  /\ GetFresnelCoeff grazing (Demo.hit 1) Demo.world0 = Done 1 Demo.world0
  /\ GetFresnelCoeff head_on (Demo.hit 1) Demo.world0 = Done nan Demo.world0.
Proof.
  intros E into_glass grazing head_on. split; [|split].
  - destruct (GetFresnelCoeff_schlick (E := E) into_glass (Demo.hit 2) AirLocal
                Demo.world0 eq_refl) as (c & -> & Hle & _ & _).
    rewrite (Hle eq_refl). vm_compute. reflexivity.
  - destruct (GetFresnelCoeff_schlick (E := E) grazing (Demo.hit 1) (SceneMaterial 2)
                Demo.world0 eq_refl) as (c & -> & _ & Htir & _).
    rewrite (Htir eq_refl eq_refl). reflexivity.
  - destruct (GetFresnelCoeff_schlick (E := E) head_on (Demo.hit 1) (SceneMaterial 2)
                Demo.world0 eq_refl) as (c & -> & _ & _ & Hsqrt).
    rewrite (Hsqrt eq_refl eq_refl). vm_compute. reflexivity.
Defined.

(** C6 on the glass sphere seen from air at depth limit 1, Fresnel enabled
    at ratio 0.5: the reflection is zero, the refracted ray returns 0.125,
    the coefficient is 0.04, and the blend gives
    0.25 + 0 + (0.5 * 0.96 * 0.125 + 0.5 * 0.125) = 0.3725, where the
    unblended sum is 0.375. *)
Lemma traceRay_fresnel_blend_witness :
  let E := Demo.externals (Demo.ui_fresnel 1) in
  let self := Demo.tracer (Some (Demo.sphere 2)) in
  let in_air := Demo.context (Some (Demo.sphere 2)) (Demo.V3 1 1 1) (-1) 0 [AirLocal] in
  exists w',
    traceRay 2 self in_air Demo.world0 = Done (Demo.V3 0.3725 0.3725 0.3725) w'.
Proof.
  intros E self in_air.
  set (w0 := {| rand_state := rand_state Demo.world0;
                trail := ((trail Demo.world0 ++ [EvTraceRay in_air])
                          ++ [EvIntersect (r in_air)]) ++ [EvShade []] |}).
  let o := eval vm_compute in
    (traceRefraction (traceRay 1 self) self in_air (Demo.hit 2) w0) in
  match o with Done ?c ?w2 =>
    assert (Hrefr : traceRefraction (traceRay 1 self) self in_air (Demo.hit 2) w0
                    = Done c w2) by (vm_compute; reflexivity);
    destruct (traceRay_fresnel_blend (E := E) 1 self in_air (Demo.sphere 2) (Demo.hit 2)
                AirLocal vec3f_zero c Demo.world0 w0 w2
                eq_refl eq_refl eq_refl eq_refl eq_refl Hrefr) as (coeff & Hc & Hrun);
    exists w2
  end.
  rewrite Hrun.
  vm_compute in Hc. injection Hc as <-. vm_compute. reflexivity.
Defined.

(** C7 on a ray leaving glass for air at a grazing angle: ni/nt = 1.5 and
    the discriminant is negative. *)
Lemma traceRefraction_total_internal_reflection_witness :
  let E := Demo.externals (Demo.ui 3) in
  let grazing := Demo.context None (Demo.V3 1 1 1) (-0.5) 0 [SceneMaterial 2; AirLocal] in
  traceRefraction (fun _ => undefined) (Demo.tracer None) grazing (Demo.hit 2) Demo.world0
  = Done vec3f_zero Demo.world0.
Proof.
  intros E grazing.
  apply (traceRefraction_total_internal_reflection (E := E) (fun _ => undefined)
           (Demo.tracer None) grazing (Demo.hit 2) 1.5 1 [AirLocal] Demo.world0 Demo.world0);
    reflexivity.
Defined.

(** C8 on the mirrored sphere: at sample count 0 the branch is the trace of
    the mirror ray; at sample count 2, with a sampler that returns the axis
    of its cone, the glossy path traces that same ray twice, each trace
    returns the shade 0.25, and the branch returns (0 + 0.25 + 0.25) / 2. *)
Lemma traceReflection_mirror_witness :
  let self := Demo.tracer (Some Demo.mirrored_sphere) in
  let top := Demo.context (Some Demo.mirrored_sphere) (Demo.V3 1 1 1) (-1) 0 [AirLocal] in
  (let E := Demo.externals (Demo.ui 1) in
   traceReflection (traceRay 1 self) self top (Demo.hit 1) Demo.world0
   = traceRay 1 self (mirror_ray_context self top (Demo.hit 1)) Demo.world0)
  /\ (let E := Demo.externals (Demo.ui_glossy 1 2) in
      traceReflection (traceRay 1 self) self top (Demo.hit 1) Demo.world0
      = traceReflection (fun _ => traceRay 1 self (mirror_ray_context self top (Demo.hit 1)))
          self top (Demo.hit 1) Demo.world0)
  /\ (let E := Demo.externals (Demo.ui_glossy 1 2) in
      let c := Demo.V3 0.25 0.25 0.25 in
      exists w',
        traceReflection (traceRay 1 self) self top (Demo.hit 1) Demo.world0
        = Done (vec3f_div ((vec3f_zero + c) + c) 2)%vec w').
Proof.
  intros self top. split; [|split].
  - intros E.
    destruct (traceReflection_mirror (E := E) (traceRay 1 self) self top (Demo.hit 1)
                Demo.world0 eq_refl) as (Hzero & _ & _).
    { apply Z.ltb_lt. reflexivity. }
    apply Hzero. reflexivity.
  - intros E.
    destruct (traceReflection_mirror (E := E) (traceRay 1 self) self top (Demo.hit 1)
                Demo.world0 eq_refl) as (_ & _ & Hglossy).
    { apply Z.ltb_lt. reflexivity. }
    apply Hglossy. intros s. reflexivity.
  - intros E c.
    destruct (traceReflection_mirror (E := E) (traceRay 1 self) self top (Demo.hit 1)
                Demo.world0 eq_refl) as (_ & _ & Hglossy).
    { apply Z.ltb_lt. reflexivity. }
    destruct Hglossy as (_ & _ & Hsum); [intros s; reflexivity|].
    apply (Hsum c).
    + intros H. discriminate H.
    + intros w1.
      exists {| rand_state := rand_state w1;
                trail := ((trail w1
                           ++ [EvTraceRay (mirror_ray_context self top (Demo.hit 1))])
                          ++ [EvIntersect (r (mirror_ray_context self top (Demo.hit 1)))])
                         ++ [EvShade []] |}.
      reflexivity.
Defined.

(** C9 on a tracer without a scene. *)
Lemma no_scene_no_op_witness :
  let E := Demo.externals (Demo.ui 1) in
  tracePixel (Demo.tracer None) 1 1 Demo.world0 = Done (Demo.tracer None) Demo.world0
  /\ traceLines (Demo.tracer None) 0 10000000 Demo.world0
     = Done (Demo.tracer None) Demo.world0.
Proof.
  intros E.
  apply (no_scene_no_op (E := E) (Demo.tracer None) 1 1 0 10000000 Demo.world0).
  reflexivity.
Defined.

(** C10 as stated fails on a material of index 0: leaving it, r0 is
    0/0 squared, a NaN, and so is the coefficient, where (1 - cos)^5 is 0. *)
Lemma GetFresnelCoeff_leaving_index_zero :
  let E := Demo.externals (Demo.ui 3) in
  let leaving := Demo.context None (Demo.V3 1 1 1) (-1) 0 [SceneMaterial 3; AirLocal] in
  let i := Demo.hit 3 in
  let idx := index (material_at (getMaterial i)) in
  let power := pow (1 - dot (isect_N i) (- getDirection (r leaving))%vec) 5 in
  IsLeavingObject leaving i Demo.world0 = Done true Demo.world0
  /\ ((idx - idx) / (idx + idx) * ((idx - idx) / (idx + idx))) <> 0
  /\ exists coeff,
       GetFresnelCoeff leaving i Demo.world0 = Done coeff Demo.world0
       /\ coeff <> power.
Proof.
  intros E leaving i idx power.
  assert (Hnan : nan <> 0).
  { intros H. apply (f_equal Prim2SF) in H. vm_compute in H. discriminate H. }
  split; [reflexivity|]. split.
  - vm_compute. exact Hnan.
  - exists nan. split; [reflexivity|]. vm_compute. exact Hnan.
Defined.

(** C10, amended, on a ray leaving the glass (index 1.5) with cos = 0.5:
    the coefficient is 0.5^5, and air below the glass plays no part. *)
Lemma GetFresnelCoeff_leaving_witness :
  let E := Demo.externals (Demo.ui 3) in
  let leaving := Demo.context None (Demo.V3 1 1 1) (-0.5) 0 [SceneMaterial 2; AirLocal] in
  GetFresnelCoeff leaving (Demo.hit 2) Demo.world0 = Done 0.03125 Demo.world0.
Proof.
  intros E leaving.
  destruct (GetFresnelCoeff_leaving (E := E) leaving (Demo.hit 2) Demo.world0
              eq_refl eq_refl eq_refl) as (_ & _ & _ & (coeff & -> & -> & _) & _).
  vm_compute. reflexivity.
Defined.

End OnDemo.

(** * More properties of the tracer *)

Section Leaves.

Context {V : VecMath} {E : Externals}.

Lemma bind_inv {A B} (m : M A) (k : A -> M B) w b w' :
  (m ≫= k) w = Done b w' -> exists a w1, m w = Done a w1 /\ k a w1 = Done b w'.
Proof.
  unfold mbind, M_bind. destruct (m w) as [a w1| |]; [eauto|discriminate..].
Qed.

(** [traceRay] on a hit, up to its two branches. *)
Lemma traceRay_hit_run fuel self param s i0 m w :
  ((vec3f_get (thresh param) 0 <=? GetIntensityThreshold)
   && (vec3f_get (thresh param) 1 <=? GetIntensityThreshold)
   && (vec3f_get (thresh param) 2 <=? GetIntensityThreshold))%float = false ->
  scene param = Some s ->
  intersect s (r param) = Some i0 ->
  head (material_stack param) = Some m ->
  let i := orient (bool_decide (getMaterial i0 = m)) i0 in
  let shading := shade (material_at (getMaterial i)) s (r param) i (rand_state w) in
  let w0 := {| rand_state := shading_rand shading;
               trail := ((trail w ++ [EvTraceRay param]) ++ [EvIntersect (r param)])
                        ++ [EvShade (shading_rays shading)] |} in
  traceRay (S fuel) self param w
  = (reflection ← (if IsEnableReflection
                   then traceReflection (traceRay fuel self) self param i
                   else mret vec3f_zero);
     refraction ← (if IsEnableRefraction
                   then traceRefraction (traceRay fuel self) self param i
                   else mret vec3f_zero);
     '(reflection, refraction) ← fresnel_blend param i reflection refraction;
     mret (prod (shading_colour shading) (thresh param)
           + reflection + refraction)%vec) w0.
Proof.
  intros Hcut Hs Hhit Hm i shading w0.
  cbn [traceRay]. rewrite Hcut.
  unfold mbind at 1. unfold M_bind at 1. cbn [record].
  rewrite Hs. cbn [deref].
  unfold mbind at 1. unfold M_bind at 1. unfold mret at 1. unfold M_ret at 1.
  unfold mbind at 1. unfold M_bind at 1. unfold scene_intersect.
  unfold mbind at 1. unfold M_bind at 1. cbn [record rand_state trail].
  unfold mret at 1. unfold M_ret at 1. rewrite Hhit.
  rewrite (bind_run _ _ _ _ _ (IsLeavingObject_run _ i0 _ _ Hm)).
  fold i. rewrite (bind_run _ _ _ _ _ (Material_shade_run _ s (r param) i _)).
  reflexivity.
Qed.

(** X1. A ray that hits nothing is black, whatever its weight, its depth and
    its material stack (an empty one too): [traceRay] returns the zero
    colour after at most one query of the scene, and enters no further
    [traceRay]. *)
Theorem traceRay_miss (fuel : nat) (self : RayTracer) (param : TraceParam)
    (s : Scene) (w : World) :
  scene param = Some s ->
  intersect s (r param) = None ->
  exists w',
    traceRay (S fuel) self param w = Done vec3f_zero w'
    /\ entries (trail w') = entries (trail w) ++ [param]
    /\ (scene_queries (trail w') = scene_queries (trail w)
        \/ scene_queries (trail w') = scene_queries (trail w) ++ [r param])
    /\ rand_state w' = rand_state w.
Proof.
  intros Hs Hmiss. cbn [traceRay].
  unfold mbind at 1. unfold M_bind at 1. cbn [record].
  destruct (_ && _).
  - eexists. split; [reflexivity|]. cbn [trail rand_state].
    rewrite entries_app, scene_queries_app. cbn. rewrite app_nil_r. auto.
  - rewrite Hs. cbn [deref].
    unfold mbind at 1. unfold M_bind at 1. unfold mret at 1. unfold M_ret at 1.
    unfold mbind at 1. unfold M_bind at 1. unfold scene_intersect.
    unfold mbind at 1. unfold M_bind at 1. cbn [record rand_state trail].
    unfold mret at 1. unfold M_ret at 1. rewrite Hmiss.
    eexists. split; [reflexivity|]. cbn [trail rand_state].
    rewrite !entries_app, !scene_queries_app. cbn. rewrite !app_nil_r. auto.
Qed.

Lemma traceReflection_closed rec self param i w :
  iszero (kr (material_at (getMaterial i))) || (getDepth <=? depth param)%Z = true ->
  traceReflection rec self param i w = Done vec3f_zero w.
Proof. intros H. unfold traceReflection. rewrite H. reflexivity. Qed.

Lemma traceRefraction_closed rec self param i w :
  iszero (kt (material_at (getMaterial i))) || (getDepth <=? depth param)%Z = true ->
  traceRefraction rec self param i w = Done vec3f_zero w.
Proof.
  intros H. unfold traceRefraction.
  replace (depth param <? getDepth)%Z with (negb (getDepth <=? depth param)%Z)
    by (symmetry; apply Z.ltb_antisym).
  rewrite <- negb_orb, H. reflexivity.
Qed.

(** X2. Local shading only. On a hit whose material neither reflects nor
    transmits, or at the depth limit, or with the branches switched off,
    and with no Fresnel blend (switched off, or both indices 1),
    [traceRay] returns the colour of its one call of [shade] times the
    weight, plus zero twice. It put one ray to the scene itself and entered
    no further [traceRay]; what else the scene was asked, and where [rand]
    is left, is what that call of [shade] did. *)
Theorem traceRay_local_shading (fuel : nat) (self : RayTracer)
    (param : TraceParam) (s : Scene) (i0 : isect) (m : MaterialPtr) (w : World) :
  ((vec3f_get (thresh param) 0 <=? GetIntensityThreshold)
   && (vec3f_get (thresh param) 1 <=? GetIntensityThreshold)
   && (vec3f_get (thresh param) 2 <=? GetIntensityThreshold))%float = false ->
  scene param = Some s ->
  intersect s (r param) = Some i0 ->
  head (material_stack param) = Some m ->
  let hit := material_at (getMaterial i0) in
  negb IsEnableReflection || iszero (kr hit) || (getDepth <=? depth param)%Z = true ->
  negb IsEnableRefraction || iszero (kt hit) || (getDepth <=? depth param)%Z = true ->
  negb IsEnableFresnel
  || ((index (material_at m) =? 1) && (index hit =? 1))%float = true ->
  let i := orient (bool_decide (getMaterial i0 = m)) i0 in
  let shading := shade hit s (r param) i (rand_state w) in
  traceRay (S fuel) self param w
  = Done (prod (shading_colour shading) (thresh param) + vec3f_zero + vec3f_zero)%vec
      {| rand_state := shading_rand shading;
         trail := ((trail w ++ [EvTraceRay param]) ++ [EvIntersect (r param)])
                  ++ [EvShade (shading_rays shading)] |}.
Proof.
  intros Hcut Hs Hhit Hm hit Hrefl Hrefr Hfr i shading.
  rewrite (traceRay_hit_run fuel self param s i0 m w Hcut Hs Hhit Hm).
  fold i.
  assert (Hi : material_at (getMaterial i) = hit).
  { unfold i, orient. destruct (bool_decide _); reflexivity. }
  rewrite Hi. fold shading.
  match goal with |- context [mbind _ ?m0] => set (refl := m0) end.
  assert (Hr1 : forall w0, refl w0 = Done vec3f_zero w0).
  { intros w0. unfold refl. destruct IsEnableReflection; [|reflexivity].
    apply traceReflection_closed. rewrite Hi. exact Hrefl. }
  rewrite (bind_run _ _ _ _ _ (Hr1 _)).
  match goal with |- context [mbind _ ?m0] => set (refr := m0) end.
  assert (Hr2 : forall w0, refr w0 = Done vec3f_zero w0).
  { intros w0. unfold refr. destruct IsEnableRefraction; [|reflexivity].
    apply traceRefraction_closed. rewrite Hi. exact Hrefr. }
  rewrite (bind_run _ _ _ _ _ (Hr2 _)).
  unfold mbind, M_bind. rewrite (fresnel_blend_run _ _ _ _ _ _ Hm), Hi.
  fold hit. apply orb_true_iff in Hfr.
  destruct IsEnableFresnel; simpl.
  - destruct Hfr as [Hfr|Hfr]; [discriminate|]. rewrite Hfr. reflexivity.
  - reflexivity.
Qed.

End Leaves.

(** * The fully mirrored sphere at depth limit 1 *)

Section MirroredSphere.

#[local] Existing Instance Demo.vecmath.

Context {E : Externals}.

Local Open Scope float_scope.

Lemma wp_eq {A} (u f : Prop) (m m' : M A) w w' (post : A -> World -> Prop) :
  m w = m' w' -> wp u f m' w' post -> wp u f m w post.
Proof. unfold wp. intros ->. auto. Qed.

Lemma wp_for_loop_acc {A} (u f : Prop) (I : A -> Prop) (body : Z -> A -> M A) n k acc w :
  (forall k acc w, I acc -> wp u f (body k acc) w (fun acc' _ => I acc')) ->
  I acc -> wp u f (for_loop n k body acc) w (fun acc' _ => I acc').
Proof.
  intros Hbody. revert k acc w. induction n as [|n IH]; intros k acc w Hacc; cbn [for_loop].
  - exact Hacc.
  - apply wp_bind. eapply wp_mono; [|apply Hbody, Hacc].
    intros acc' w1 Hacc'. apply IH, Hacc'.
Qed.

Lemma channels_zero (P : double -> Prop) : P 0 -> Demo.channels P vec3f_zero.
Proof. intros H. repeat split; exact H. Qed.

Lemma channels_impl (P Q : double -> Prop) c :
  (forall x, P x -> Q x) -> Demo.channels P c -> Demo.channels Q c.
Proof. intros H (H0 & H1 & H2). repeat split; apply H; assumption. Qed.

Section Sphere.

Context (self : RayTracer) (s : Scene).
Hypothesis self_scene : tracer_scene self = Some s.
Hypothesis mirrored : Studio.fully_mirrored s.
Hypothesis no_blend : Studio.unblended s.
Hypothesis shade_finite : Studio.finite_shade.

(** What [traceRay] returns on a hit from air once its two branches have
    returned [reflection] and zero. *)
Lemma mirror_hit_tail param i0 reflection w :
  intersect s (r param) = Some i0 ->
  material_stack param = [AirLocal] ->
  fresnel_blend param i0 reflection vec3f_zero w = Done (reflection, vec3f_zero) w.
Proof.
  intros Hhit Hst.
  assert (Hm : head (material_stack param) = Some AirLocal) by (rewrite Hst; reflexivity).
  rewrite (fresnel_blend_run _ _ _ _ _ _ Hm).
  change (index (material_at AirLocal) =? 1) with true.
  pose proof (no_blend _ _ Hhit) as Hb.
  destruct IsEnableFresnel; [|reflexivity].
  cbn [negb orb] in Hb. rewrite Hb. reflexivity.
Qed.

(** A ray at the depth limit: the shade of what it hits, or black. *)
Lemma mirror_leaf fuel param w :
  scene param = Some s ->
  thresh param = Demo.V3 1 1 1 ->
  material_stack param = [AirLocal] ->
  (getDepth <= depth param)%Z ->
  wp False False (traceRay (S fuel) self param) w (fun c _ => Demo.channels Demo.finite c).
Proof.
  intros Hs Hth Hst Hd.
  assert (Hm : head (material_stack param) = Some AirLocal) by (rewrite Hst; reflexivity).
  destruct ((vec3f_get (thresh param) 0 <=? GetIntensityThreshold)
            && (vec3f_get (thresh param) 1 <=? GetIntensityThreshold)
            && (vec3f_get (thresh param) 2 <=? GetIntensityThreshold)) eqn:Hcut.
  { unfold wp. cbn [traceRay]. unfold mbind at 1. unfold M_bind at 1. cbn [record].
    rewrite Hcut. apply channels_zero. reflexivity. }
  destruct (intersect s (r param)) as [i0|] eqn:Hhit.
  2:{ unfold wp. cbn [traceRay]. unfold mbind at 1. unfold M_bind at 1. cbn [record].
      rewrite Hcut, Hs. cbn [deref].
      unfold mbind at 1. unfold M_bind at 1. unfold mret at 1. unfold M_ret at 1.
      unfold mbind at 1. unfold M_bind at 1. unfold scene_intersect.
      unfold mbind at 1. unfold M_bind at 1. cbn [record rand_state trail].
      unfold mret at 1. unfold M_ret at 1. rewrite Hhit.
      apply channels_zero. reflexivity. }
  eapply wp_eq; [apply (traceRay_hit_run fuel self param s i0 AirLocal w Hcut Hs Hhit Hm)|].
  rewrite (bool_decide_eq_false_2 (getMaterial i0 = AirLocal)) by discriminate.
  cbn [orient].
  destruct (mirrored _ _ Hhit) as [Hkr Hkt].
  apply wp_bind. unfold wp at 1.
  replace ((if IsEnableReflection
            then traceReflection (traceRay fuel self) self param i0
            else mret vec3f_zero) _)
    with (Done vec3f_zero
            {| rand_state :=
                 shading_rand (shade (material_at (getMaterial i0)) s (r param) i0
                                 (rand_state w));
               trail := ((trail w ++ [EvTraceRay param]) ++ [EvIntersect (r param)])
                        ++ [EvShade (shading_rays
                                       (shade (material_at (getMaterial i0)) s (r param) i0
                                          (rand_state w)))] |}).
  2:{ destruct IsEnableReflection; [|reflexivity].
      symmetry. apply traceReflection_closed.
      apply orb_true_iff. right. apply Z.leb_le, Hd. }
  apply wp_bind. unfold wp at 1.
  match goal with |- match ?m ?w0 with _ => _ end =>
    replace (m w0) with (Done vec3f_zero w0)
  end.
  2:{ destruct IsEnableRefraction; [|reflexivity].
      symmetry. apply traceRefraction_closed.
      apply orb_true_iff. right. apply Z.leb_le, Hd. }
  apply wp_bind. unfold wp at 1.
  rewrite (mirror_hit_tail param i0 vec3f_zero _ Hhit Hst).
  apply wp_ret. rewrite Hth.
  destruct (shade_finite (material_at (getMaterial i0)) s (r param) i0 (rand_state w))
    as (H0 & H1 & H2).
  unfold Demo.finite in *.
  repeat split; cbn; rewrite float_mul_one; apply add_zero_finite, add_zero_finite;
    assumption.
Qed.

Hypothesis depth_limit : getDepth = 1%Z.
Hypothesis samples_int : (INT_MIN <= GetGlossyReflectionSample <= INT_MAX)%Z.

(** The reflection branch of a primary ray: one leaf, or the mean of the
    leaves of the glossy samples. *)
Lemma mirror_reflection param i0 w :
  intersect s (r param) = Some i0 ->
  thresh param = Demo.V3 1 1 1 ->
  material_stack param = [AirLocal] ->
  depth param = 0%Z ->
  wp False False (traceReflection (traceRay 1 self) self param i0) w
    (fun c _ => Demo.channels Demo.not_nan c).
Proof.
  intros Hhit Hth Hst Hd.
  destruct (mirrored _ _ Hhit) as [Hkr Hkt].
  assert (Hleaf : forall dir w1,
    wp False False
      (traceRay 1 self
         {| scene := tracer_scene self;
            r := {| ray_p := out_point param i0; ray_d := dir |};
            thresh := prod (thresh param) (kr (material_at (getMaterial i0)));
            depth := (depth param + 1)%Z;
            material_stack := material_stack param |}) w1
      (fun c _ => Demo.channels Demo.finite c)).
  { intros dir w1. apply mirror_leaf; cbn [scene thresh material_stack depth].
    - exact self_scene.
    - rewrite Hth, Hkr. reflexivity.
    - exact Hst.
    - rewrite depth_limit, Hd. reflexivity. }
  assert (Hguard : iszero (kr (material_at (getMaterial i0)))
                   || (getDepth <=? depth param)%Z = false).
  { rewrite Hkr, depth_limit, Hd. reflexivity. }
  unfold traceReflection. rewrite Hguard.
  destruct (GetGlossyReflectionSample =? 0)%Z eqn:Hsample.
  - eapply wp_mono; [|apply (Hleaf (center_dir param i0))].
    intros c w1. apply channels_impl. exact is_finite_not_nan.
  - apply Z.eqb_neq in Hsample.
    destruct (int_to_double_finite _ Hsample samples_int) as (sn & mn & en & HN).
    apply wp_bind. unfold for_range.
    eapply wp_mono; [|apply (wp_for_loop_acc _ _ (Demo.channels Demo.not_nan))].
    + intros intensity w1 (H0 & H1 & H2). apply wp_ret.
      repeat split; cbn; eapply div_not_nan; eassumption.
    + intros k acc w1 (H0 & H1 & H2). apply wp_bind.
      unfold wp at 1, Generate. destruct (cone_Generate _ _ _) as [dir s1].
      apply wp_bind. eapply wp_mono; [|apply (Hleaf dir)].
      intros c w2 (F0 & F1 & F2). apply wp_ret.
      repeat split; cbn; apply add_not_nan_l; assumption.
    + apply channels_zero. reflexivity.
Qed.

(** A primary ray: the shade of what it hits plus what the hit reflects. *)
Lemma mirror_root param w :
  scene param = Some s ->
  thresh param = Demo.V3 1 1 1 ->
  material_stack param = [AirLocal] ->
  depth param = 0%Z ->
  wp False False (traceRay 2 self param) w (fun c _ => Demo.channels Demo.not_nan c).
Proof.
  intros Hs Hth Hst Hd.
  assert (Hm : head (material_stack param) = Some AirLocal) by (rewrite Hst; reflexivity).
  destruct ((vec3f_get (thresh param) 0 <=? GetIntensityThreshold)
            && (vec3f_get (thresh param) 1 <=? GetIntensityThreshold)
            && (vec3f_get (thresh param) 2 <=? GetIntensityThreshold)) eqn:Hcut.
  { unfold wp. cbn [traceRay]. unfold mbind at 1. unfold M_bind at 1. cbn [record].
    rewrite Hcut. apply channels_zero. reflexivity. }
  destruct (intersect s (r param)) as [i0|] eqn:Hhit.
  2:{ unfold wp. cbn [traceRay]. unfold mbind at 1. unfold M_bind at 1. cbn [record].
      rewrite Hcut, Hs. cbn [deref].
      unfold mbind at 1. unfold M_bind at 1. unfold mret at 1. unfold M_ret at 1.
      unfold mbind at 1. unfold M_bind at 1. unfold scene_intersect.
      unfold mbind at 1. unfold M_bind at 1. cbn [record rand_state trail].
      unfold mret at 1. unfold M_ret at 1. rewrite Hhit.
      apply channels_zero. reflexivity. }
  eapply wp_eq; [apply (traceRay_hit_run 1 self param s i0 AirLocal w Hcut Hs Hhit Hm)|].
  rewrite (bool_decide_eq_false_2 (getMaterial i0 = AirLocal)) by discriminate.
  cbn [orient].
  destruct (mirrored _ _ Hhit) as [Hkr Hkt].
  apply wp_bind.
  apply (wp_mono _ _ _ _ (fun c _ => Demo.channels Demo.not_nan c)).
  2:{ destruct IsEnableReflection; [|apply wp_ret, channels_zero; reflexivity].
      apply mirror_reflection; assumption. }
  intros reflection w1 (R0 & R1 & R2).
  apply wp_bind. unfold wp at 1.
  match goal with |- match ?m ?w0 with _ => _ end =>
    replace (m w0) with (Done vec3f_zero w0)
  end.
  2:{ destruct IsEnableRefraction; [|reflexivity].
      symmetry. apply traceRefraction_closed. rewrite Hkt. reflexivity. }
  apply wp_bind. unfold wp at 1.
  rewrite (mirror_hit_tail param i0 reflection _ Hhit Hst).
  apply wp_ret. rewrite Hth.
  destruct (shade_finite (material_at (getMaterial i0)) s (r param) i0 (rand_state w))
    as (H0 & H1 & H2).
  unfold Demo.finite, Demo.not_nan in *.
  repeat split; cbn; rewrite float_mul_one;
    (apply add_not_nan_l; [apply add_not_nan_r; assumption|reflexivity]).
Qed.

(** A pixel sample: the clamped colour of its primary ray. *)
Lemma mirror_trace x y w :
  exists c w', trace self (Some s) x y w = Done c w' /\ Demo.channels Demo.in_unit c.
Proof.
  apply wp_total. unfold trace. cbn [deref].
  unfold mbind at 1. unfold M_bind at 1. cbn [mret M_ret].
  apply wp_bind. unfold wp at 1. cbn [record].
  unfold recursion_bound. cbn [depth]. rewrite depth_limit.
  change (S (Z.to_nat (1 - 0))) with 2%nat.
  apply wp_bind. eapply wp_mono; [|apply mirror_root; reflexivity].
  intros c w' (H0 & H1 & H2). apply wp_ret.
  repeat split; cbn; apply clamp01_unit; assumption.
Qed.

End Sphere.

End MirroredSphere.

Section Termination.

Context {V : VecMath} {E : Externals}.


End Termination.

Section OnMirrors.

#[local] Existing Instance Demo.vecmath.

Local Open Scope float_scope.



(** C8 as stated fails in doubles: with a shade of 0.1 on the mirrored
    sphere, the branch at sample count 0 returns 0.1 per channel, and at
    sample count 3, with a cone sampler that returns the mirror direction
    for every sample, it returns (0 + 0.1 + 0.1 + 0.1) / 3, which is
    0.10000000000000002. *)
Lemma traceReflection_glossy_rounding :
  let self := Demo.tracer (Some Demo.mirrored_sphere) in
  let top := Demo.context (Some Demo.mirrored_sphere) (Demo.V3 1 1 1) (-1) 0 [AirLocal] in
  let E0 := Studio.externals (Demo.ui 1) in
  let E3 := Studio.externals (Demo.ui_glossy 1 3) in
  let c0 := Demo.V3 0.1 0.1 0.1 in
  let c3 := Demo.V3 0.10000000000000002 0.10000000000000002 0.10000000000000002 in
  (forall st, fst (cone_Generate (Externals := E3) (center_dir top (Demo.hit 1)) 0.1 st)
              = center_dir top (Demo.hit 1))
  /\ (exists w0, traceReflection (E := E0) (traceRay (E := E0) 1 self) self top (Demo.hit 1)
                   Demo.world0 = Done c0 w0)
  /\ (exists w3, traceReflection (E := E3) (traceRay (E := E3) 1 self) self top (Demo.hit 1)
                   Demo.world0 = Done c3 w3)
  /\ c0 <> c3.
Proof.
  intros self top E0 E3 c0 c3. split; [|split; [|split]].
  - intros st. reflexivity.
  - let o := eval vm_compute in
      (traceReflection (E := E0) (traceRay (E := E0) 1 self) self top (Demo.hit 1)
         Demo.world0) in
    match o with Done _ ?w' => exists w' end.
    vm_compute. reflexivity.
  - let o := eval vm_compute in
      (traceReflection (E := E3) (traceRay (E := E3) 1 self) self top (Demo.hit 1)
         Demo.world0) in
    match o with Done _ ?w' => exists w' end.
    vm_compute. reflexivity.
  - intros H. apply (f_equal (fun c => Prim2SF (Demo.vx c))) in H.
    vm_compute in H. discriminate H.
Defined.

End OnMirrors.

Section Runs.

Context {V : VecMath} {E : Externals}.

Lemma camera_rays_app (t1 t2 : list Event) :
  camera_rays (t1 ++ t2) = camera_rays t1 ++ camera_rays t2.
Proof. apply omap_app. Qed.

Lemma tracer_queries_app (t1 t2 : list Event) :
  tracer_queries (t1 ++ t2) = tracer_queries t1 ++ tracer_queries t2.
Proof. apply omap_app. Qed.

Lemma shade_calls_app (t1 t2 : list Event) :
  shade_calls (t1 ++ t2) = shade_calls t1 ++ shade_calls t2.
Proof. apply omap_app. Qed.

Lemma grows_refl B w : grows B w w.
Proof.
  exists []. repeat split; [symmetry; apply app_nil_r|simpl; lia..].
Qed.

Lemma grows_trans B1 B2 w1 w2 w3 :
  grows B1 w1 w2 -> grows B2 w2 w3 -> grows (B1 + B2) w1 w3.
Proof.
  intros (e1 & H1 & C1 & S1 & Q1 & N1) (e2 & H2 & C2 & S2 & Q2 & N2). exists (e1 ++ e2).
  rewrite camera_rays_app, entries_app, tracer_queries_app, shade_calls_app,
    !length_app, C1, C2.
  repeat split; [|lia..]. rewrite H2, H1. symmetry. apply app_assoc.
Qed.

Lemma grows_le B B' w w' : (B <= B')%nat -> grows B w w' -> grows B' w w'.
Proof. intros HB (e & H & C & S & Q & N). exists e. repeat split; [assumption..|lia]. Qed.

Lemma grows_trail B w w' : trail w' = trail w -> grows B w w'.
Proof.
  intros H. exists []. repeat split; [rewrite H; symmetry; apply app_nil_r|simpl; lia..].
Qed.

Lemma for_loop_grows {A} (B : nat) (body : Z -> A -> M A) n k acc w :
  (forall k acc w, wp True True (body k acc) w (fun _ w' => grows B w w')) ->
  wp True True (for_loop n k body acc) w (fun _ w' => grows (n * B) w w').
Proof.
  intros Hbody. revert k acc w. induction n as [|n IH]; intros k acc w; cbn [for_loop].
  - apply wp_ret, grows_refl.
  - apply wp_bind. eapply wp_mono; [|apply Hbody].
    intros acc' w1 H1. eapply wp_mono; [|apply IH].
    intros a w2 H2. cbn [Nat.mul]. apply (grows_trans _ _ _ _ _ H1 H2).
Qed.

Lemma traceReflection_grows (B : nat) rec self param i w :
  (forall p' w1, (depth param < getDepth)%Z -> depth p' = (depth param + 1)%Z ->
     wp True True (rec p') w1 (fun _ w2 => grows B w1 w2)) ->
  wp True True (traceReflection rec self param i) w
    (fun _ w' => grows (reflection_rays * B) w w').
Proof.
  intros Hrec. unfold traceReflection, reflection_rays.
  destruct (iszero _ || _) eqn:Hguard; [apply wp_ret, grows_refl|].
  apply orb_false_iff in Hguard as [_ Hd]. apply Z.leb_gt in Hd.
  destruct (_ =? 0)%Z.
  - eapply wp_mono; [|apply Hrec; [exact Hd|reflexivity]].
    intros c w' H. eapply grows_le; [|exact H]. lia.
  - apply wp_bind. unfold for_range. rewrite Z.sub_0_r.
    eapply wp_mono; [|apply (for_loop_grows B)].
    + intros a w' Hw'. apply wp_ret, Hw'.
    + intros k acc w1. apply wp_bind.
      unfold wp at 1, Generate.
      destruct (cone_Generate _ _ _) as [dir s1].
      apply wp_bind. eapply wp_mono; [|apply Hrec; [exact Hd|reflexivity]].
      intros c w2 Hw2. apply wp_ret.
      destruct Hw2 as (e & H & C & S & Q & N). exists e. repeat split; assumption.
Qed.

Lemma traceRefraction_grows (B : nat) rec self param i w :
  (forall p' w1, (depth param < getDepth)%Z -> depth p' = (depth param + 1)%Z ->
     wp True True (rec p') w1 (fun _ w2 => grows B w1 w2)) ->
  wp True True (traceRefraction rec self param i) w (fun _ w' => grows B w w').
Proof.
  intros Hrec. unfold traceRefraction.
  destruct (negb _ && _) eqn:Hguard; [|apply wp_ret, grows_refl].
  apply andb_true_iff in Hguard as [_ Hd]. apply Z.ltb_lt in Hd.
  apply wp_bind. unfold wp at 1.
  pose proof (refraction_media_cases param i w) as Hc.
  destruct (refraction_media param i w) as [[[ni nt] st] w1| |]; [|exact I..].
  destruct Hc as [-> _].
  destruct (_ <? 0)%float; [apply wp_ret, grows_refl|].
  apply Hrec; [exact Hd|reflexivity].
Qed.

(** The entries and queries of a run, counted. *)
Lemma traceRay_grows fuel self param w :
  wp True True (traceRay fuel self param) w
    (fun _ w' => grows (calls_bound reflection_rays (Z.to_nat (getDepth - depth param))) w w').
Proof.
  revert param w. induction fuel as [|fuel IH]; intros param w; [exact I|].
  set (g := reflection_rays).
  set (n := Z.to_nat (getDepth - depth param)).
  (* what the two branches add *)
  assert (Hbranches : exists B, (1 + (g * B + B) <= calls_bound g n)%nat
            /\ forall p' w1, (depth param < getDepth)%Z -> depth p' = (depth param + 1)%Z ->
                 wp True True (traceRay fuel self p') w1 (fun _ w2 => grows B w1 w2)).
  { destruct (Z_lt_le_dec (depth param) getDepth) as [Hd|Hd].
    - exists (calls_bound g (Z.to_nat (getDepth - (depth param + 1)))). split.
      + replace n with (S (Z.to_nat (getDepth - (depth param + 1)))) by (unfold n; lia).
        cbn [calls_bound]. lia.
      + intros p' w1 _ Hp'. rewrite <- Hp'. apply IH.
    - exists 0%nat. split.
      + destruct n; cbn [calls_bound]; lia.
      + intros p' w1 Hd'. lia. }
  destruct Hbranches as (B & HB & Hrec).
  assert (Hentry : forall s, grows 1 w {| rand_state := s; trail := trail w ++ [EvTraceRay param] |}).
  { intros s. exists [EvTraceRay param]. repeat split; simpl; lia. }
  assert (Hone : (1 <= calls_bound g n)%nat) by lia.
  cbn [traceRay]. apply wp_bind. unfold wp at 1. cbn [record].
  set (w0 := {| rand_state := rand_state w; trail := trail w ++ [EvTraceRay param] |}).
  destruct (_ && _); [apply wp_ret; eapply grows_le; [exact Hone|apply Hentry]|].
  apply wp_bind, wp_deref; [left; exact I|]. intros s Hs.
  apply wp_bind. unfold wp at 1, scene_intersect, mbind, M_bind. cbn [record mret M_ret].
  set (w1 := {| rand_state := rand_state w0; trail := trail w0 ++ [EvIntersect (r param)] |}).
  assert (H1 : grows 1 w w1).
  { exists [EvTraceRay param; EvIntersect (r param)]. repeat split; [|simpl; lia..].
    unfold w1, w0. cbn [trail]. rewrite <- app_assoc. reflexivity. }
  destruct (intersect s (r param)) as [i0|];
    [|apply wp_ret; eapply grows_le; [exact Hone|exact H1]].
  apply wp_bind. unfold wp at 1.
  destruct (head (material_stack param)) as [m|] eqn:Hm.
  2:{ unfold IsLeavingObject, mbind, M_bind, front. rewrite Hm. exact I. }
  rewrite (IsLeavingObject_run _ i0 _ w1 Hm).
  apply wp_bind. unfold wp at 1. rewrite Material_shade_run.
  set (ws := {| rand_state := _; trail := trail w1 ++ _ |}).
  assert (Hs1 : grows 1 w ws).
  { eexists [EvTraceRay param; EvIntersect (r param); EvShade _].
    repeat split; [|simpl; lia..].
    unfold ws, w1, w0. cbn [trail]. rewrite <- !app_assoc. reflexivity. }
  apply wp_bind.
  apply (wp_mono _ _ _ _ (fun _ w2 => grows (g * B) ws w2)).
  2:{ destruct IsEnableReflection; [|apply wp_ret, grows_refl].
      apply traceReflection_grows, Hrec. }
  intros reflection w2 H2. apply wp_bind.
  apply (wp_mono _ _ _ _ (fun _ w3 => grows B w2 w3)).
  2:{ destruct IsEnableRefraction; [|apply wp_ret, grows_refl].
      apply traceRefraction_grows, Hrec. }
  intros refraction w3 H3. apply wp_bind. unfold wp at 1.
  destruct (fresnel_blend_world param (orient (bool_decide (getMaterial i0 = m)) i0)
              m reflection refraction w3 Hm) as [[rl rr] ->].
  apply wp_ret. eapply grows_le; [exact HB|].
  apply (grows_trans _ _ _ _ _ Hs1), (grows_trans _ _ _ _ _ H2), H3.
Qed.

(** X3. A run of [traceRay] from depth d with depth limit D enters
    [traceRay] at most 1 + b + ... + b^(D-d) times, where b is one more
    than the rays of a reflection (1 at glossy sample count 0, the sample
    count otherwise). [traceRay] itself puts at most one ray to the scene
    per entry and calls [shade] at most once per such ray; it never asks
    the camera for a ray. The shadow rays of the calls of [shade] are not
    bounded: the trail lists them with each call. *)
Theorem traceRay_calls_bounded (fuel : nat) (self : RayTracer)
    (param : TraceParam) (w : World) (c : vec3f) (w' : World) :
  traceRay fuel self param w = Done c w' ->
  exists evs,
    trail w' = trail w ++ evs
    /\ camera_rays evs = []
    /\ (length (shade_calls evs) <= length (tracer_queries evs))%nat
    /\ (length (tracer_queries evs) <= length (entries evs))%nat
    /\ (length (entries evs)
        <= calls_bound reflection_rays (Z.to_nat (getDepth - depth param)))%nat.
Proof.
  intros Hrun.
  exact (wp_partial (traceRay fuel self param) w _ c w'
           (traceRay_grows fuel self param w) Hrun).
Qed.

(** X4. The rays a run spawns are traced in the tracer's own scene: every
    context entered is the one the run started from or has the scene
    member of the tracer as its scene, whatever scene the run started in. *)
Theorem traceRay_children_scene (fuel : nat) (self : RayTracer)
    (param : TraceParam) (w : World) (c : vec3f) (w' : World) :
  traceRay fuel self param w = Done c w' ->
  extends (fun p => p = param \/ scene p = tracer_scene self) w w'.
Proof.
  intros Hrun.
  apply (wp_partial (traceRay fuel self param) w
           (fun _ w' => extends (fun p => p = param \/ scene p = tracer_scene self) w w')
           c w'); [|exact Hrun].
  apply (wp_traceRay True True _ self); auto.
Qed.

(** X5. A tracer with no scene of its own cannot trace a reflection:
    started in a scene, on a reflective hit below the depth limit, with the
    reflected weight above the threshold, [traceRay] dereferences the null
    scene member in the reflected ray's context. *)
Theorem traceRay_reflection_without_scene (fuel : nat) (self : RayTracer)
    (param : TraceParam) (s : Scene) (i0 : isect) (m : MaterialPtr) (w : World) :
  tracer_scene self = None ->
  ((vec3f_get (thresh param) 0 <=? GetIntensityThreshold)
   && (vec3f_get (thresh param) 1 <=? GetIntensityThreshold)
   && (vec3f_get (thresh param) 2 <=? GetIntensityThreshold))%float = false ->
  scene param = Some s ->
  intersect s (r param) = Some i0 ->
  head (material_stack param) = Some m ->
  IsEnableReflection = true ->
  GetGlossyReflectionSample = 0%Z ->
  (depth param < getDepth)%Z ->
  let hit := material_at (getMaterial i0) in
  iszero (kr hit) = false ->
  let weight := prod (thresh param) (kr hit) in
  ((vec3f_get weight 0 <=? GetIntensityThreshold)
   && (vec3f_get weight 1 <=? GetIntensityThreshold)
   && (vec3f_get weight 2 <=? GetIntensityThreshold))%float = false ->
  traceRay (S (S fuel)) self param w = Undefined.
Proof.
  intros Hself Hcut Hs Hhit Hm Hon Hsample Hd hit Hkr weight Hcut'.
  rewrite (traceRay_hit_run (S fuel) self param s i0 m w Hcut Hs Hhit Hm).
  set (i := orient (bool_decide (getMaterial i0 = m)) i0).
  assert (Hi : material_at (getMaterial i) = hit).
  { unfold i, orient. destruct (bool_decide _); reflexivity. }
  rewrite Hon. unfold mbind at 1. unfold M_bind at 1.
  unfold traceReflection. rewrite Hi, Hkr, Hsample.
  apply Z.leb_gt in Hd. rewrite Hd. cbn [orb Z.eqb].
  cbn [traceRay thresh scene]. fold weight. rewrite Hcut', Hself.
  reflexivity.
Qed.

(** X6. Entering a material and then leaving it swaps the two indices of
    refraction: where the entering branch computed (ni, nt), the leaving
    branch on the stack it made computes (nt, ni), and gives back the
    stack from before. *)
Theorem refraction_media_swap (param : TraceParam) (i : isect) (ni nt : double)
    (st : list MaterialPtr) (w : World) (param' : TraceParam) (i' : isect) :
  refraction_media param i w = Done (ni, nt, st) w ->
  head (material_stack param) <> Some (getMaterial i) ->
  material_stack param' = st ->
  getMaterial i' = getMaterial i ->
  refraction_media param' i' w = Done (nt, ni, material_stack param) w.
Proof.
  intros Hm Hne Hst Hi.
  revert Hm. unfold refraction_media, IsLeavingObject, front, deque_at, deref.
  unfold mbind, M_bind, mret, M_ret, undefined.
  rewrite Hst, Hi.
  destruct (material_stack param) as [|m st0] eqn:Hstack; [discriminate|].
  cbn [head]. rewrite bool_decide_eq_false_2 by (simpl in Hne; congruence).
  intros [= <- <- <-]. cbn [head]. rewrite bool_decide_eq_true_2 by reflexivity.
  reflexivity.
Qed.

End Runs.

(** * The frame buffer *)

Section Frame.

Context {V : VecMath} {E : Externals}.

Local Open Scope Z_scope.

Lemma tracePixel_colour self i j sc :
  tracer_scene self = Some sc ->
  tracePixel self i j
  = (col ← pixel_colour self i j;
     b ← store_channel (buffer self) (pixel_offset self i j) (vec3f_get col 0);
     b ← store_channel b (pixel_offset self i j + 1) (vec3f_get col 1);
     b ← store_channel b (pixel_offset self i j + 2) (vec3f_get col 2);
     mret {| buffer := b; buffer_width := buffer_width self;
             buffer_height := buffer_height self; tracer_scene := tracer_scene self |}).
Proof. intros H. unfold tracePixel, pixel_colour, pixel_offset. rewrite H. reflexivity. Qed.

Lemma store_channel_inv buf off c w r w' :
  store_channel buf off c w = Done r w' ->
  w' = w
  /\ exists b n, buf = Some b
       /\ double_to_int (255 * c) = Some n
       /\ 0 <= off < Z.of_nat (length b)
       /\ r = Some (<[Z.to_nat off := int_to_uchar n]> b).
Proof.
  unfold store_channel, deref, mbind, M_bind, mret, M_ret, undefined.
  destruct (double_to_int _) as [n|]; [|discriminate].
  destruct buf as [b|]; [|discriminate].
  destruct (_ && _) eqn:Hr; [|discriminate].
  apply andb_true_iff in Hr as [H1 H2]. apply Z.leb_le in H1. apply Z.ltb_lt in H2.
  intros [= <- <-]. split; [reflexivity|]. exists b, n. repeat split; auto.
Qed.

Lemma store_channel_run b off c n w :
  double_to_int (255 * c) = Some n ->
  0 <= off < Z.of_nat (length b) ->
  store_channel (Some b) off c w = Done (Some (<[Z.to_nat off := int_to_uchar n]> b)) w.
Proof.
  intros Hn [H1 H2]. unfold store_channel, deref, mbind, M_bind, mret, M_ret.
  rewrite Hn. apply Z.leb_le in H1. apply Z.ltb_lt in H2. rewrite H1, H2. reflexivity.
Qed.

Lemma int_to_uchar_range n : 0 <= int_to_uchar n < 256.
Proof. unfold int_to_uchar. apply Z.mod_pos_bound. lia. Qed.

(** A [tracePixel] that returns with a scene loaded has made three stores,
    at offsets inside the buffer. *)
Lemma tracePixel_inv (self : RayTracer) (i j : Z) (w : World)
    (self' : RayTracer) (w' : World) :
  tracePixel self i j w = Done self' w' ->
  is_Some (tracer_scene self) ->
  let off := pixel_offset self i j in
  exists b n1 n2 n3,
    buffer self = Some b
    /\ 0 <= off /\ off + 2 < Z.of_nat (length b)
    /\ self' = {| buffer := Some (<[Z.to_nat (off + 2) := int_to_uchar n3]>
                                   (<[Z.to_nat (off + 1) := int_to_uchar n2]>
                                      (<[Z.to_nat off := int_to_uchar n1]> b)));
                  buffer_width := buffer_width self;
                  buffer_height := buffer_height self;
                  tracer_scene := tracer_scene self |}.
Proof.
  intros Hrun [sc Hsc] off. rewrite (tracePixel_colour self i j sc Hsc) in Hrun.
  apply bind_inv in Hrun as (col & w1 & _ & Hrun).
  apply bind_inv in Hrun as (b1 & w2 & H1 & Hrun).
  apply bind_inv in Hrun as (b2 & w3 & H2 & Hrun).
  apply bind_inv in Hrun as (b3 & w4 & H3 & Hrun).
  injection Hrun as <- <-.
  apply store_channel_inv in H1 as (_ & b & n1 & Hb & _ & Ho1 & ->).
  apply store_channel_inv in H2 as (_ & b' & n2 & [= <-] & _ & Ho2 & ->).
  apply store_channel_inv in H3 as (_ & b' & n3 & [= <-] & _ & Ho3 & ->).
  fold off in Ho1, Ho2, Ho3. rewrite !length_insert in *.
  exists b, n1, n2, n3. split; [exact Hb|]. split; [lia|]. split; [lia|reflexivity].
Qed.

(** X7. A [tracePixel] that returns, with a scene loaded, has stored three
    bytes, each in 0..255, at the offsets (i + j * width) * 3 and the two
    after it, which lie inside the frame buffer; the buffer keeps its
    length and all its other bytes, and the tracer its width, height and
    scene. *)
Theorem tracePixel_frame (self : RayTracer) (i j : Z) (w : World)
    (self' : RayTracer) (w' : World) :
  tracePixel self i j w = Done self' w' ->
  is_Some (tracer_scene self) ->
  let off := pixel_offset self i j in
  buffer_width self' = buffer_width self
  /\ buffer_height self' = buffer_height self
  /\ tracer_scene self' = tracer_scene self
  /\ exists b b',
       buffer self = Some b /\ buffer self' = Some b'
       /\ length b' = length b
       /\ 0 <= off /\ off + 2 < Z.of_nat (length b)
       /\ (forall n : nat, Z.of_nat n < off \/ off + 2 < Z.of_nat n -> b' !! n = b !! n)
       /\ (forall n : nat, off <= Z.of_nat n <= off + 2 ->
             exists v, b' !! n = Some v /\ 0 <= v < 256).
Proof.
  intros Hrun Hsc off.
  destruct (tracePixel_inv self i j w self' w' Hrun Hsc) as (b & n1 & n2 & n3 & Hb & Hlo & Hhi & ->).
  fold off in Hlo, Hhi |- *. cbn [buffer buffer_width buffer_height tracer_scene].
  repeat split; try reflexivity.
  exists b. eexists. split; [exact Hb|]. split; [reflexivity|].
  split; [rewrite !length_insert; reflexivity|].
  split; [lia|]. split; [lia|]. split.
  - intros n Hn. rewrite !list_lookup_insert_ne by lia. reflexivity.
  - intros n Hn.
    destruct (decide (n = Z.to_nat (off + 2))) as [->|Hn2].
    { rewrite list_lookup_insert_eq by (rewrite !length_insert; lia).
      eexists; split; [reflexivity|apply int_to_uchar_range]. }
    rewrite list_lookup_insert_ne by lia.
    destruct (decide (n = Z.to_nat (off + 1))) as [->|Hn1].
    { rewrite list_lookup_insert_eq by (rewrite !length_insert; lia).
      eexists; split; [reflexivity|apply int_to_uchar_range]. }
    rewrite list_lookup_insert_ne by lia.
    assert (n = Z.to_nat off) as -> by lia.
    rewrite list_lookup_insert_eq by lia.
    eexists; split; [reflexivity|apply int_to_uchar_range].
Qed.

(** X8. Pixels of a w x h image have their three bytes inside the first
    w * h * 3 bytes of the buffer, and two different pixels have disjoint
    bytes. *)
Theorem pixel_offset_disjoint (self : RayTracer) (i j i' j' : Z) :
  0 <= i < buffer_width self -> 0 <= j < buffer_height self ->
  0 <= i' < buffer_width self -> 0 <= j' < buffer_height self ->
  (0 <= pixel_offset self i j
   /\ pixel_offset self i j + 3 <= buffer_width self * buffer_height self * 3)
  /\ ((i, j) <> (i', j') ->
      pixel_offset self i j + 3 <= pixel_offset self i' j'
      \/ pixel_offset self i' j' + 3 <= pixel_offset self i j).
Proof.
  unfold pixel_offset. intros Hi Hj Hi' Hj'. split.
  - split; [nia|].
    assert (i + j * buffer_width self + 1 <= buffer_width self * buffer_height self) by nia.
    lia.
  - intros Hne.
    destruct (Z.lt_trichotomy j j') as [Hlt|[Heq|Hgt]].
    + left. assert (i + j * buffer_width self + 1 <= i' + j' * buffer_width self) by nia. lia.
    + subst j'. destruct (Z.lt_trichotomy i i') as [Hlt|[Heq|Hgt]]; [left; lia| |right; lia].
      subst i'. contradiction.
    + right. assert (i' + j' * buffer_width self + 1 <= i + j * buffer_width self) by nia. lia.
Qed.

(** X9. With the frame buffer sized to the image and a pixel inside the
    image, [tracePixel] stores the colour without overrun: once the colour
    is computed and its channels convert to [int], it returns, and the
    buffer is still sized to the image. *)
Theorem tracePixel_in_image (self : RayTracer) (i j : Z) (w : World)
    (col : vec3f) (w' : World) :
  is_Some (tracer_scene self) ->
  frame_sized self ->
  0 <= i < buffer_width self -> 0 <= j < buffer_height self ->
  pixel_colour self i j w = Done col w' ->
  (forall k, 0 <= k <= 2 -> is_Some (double_to_int (255 * vec3f_get col k))) ->
  exists self', tracePixel self i j w = Done self' w' /\ frame_sized self'.
Proof.
  intros [sc Hsc] (b & Hb & Hlen) Hi Hj Hcol Hconv.
  assert (Ho1 : 0 <= pixel_offset self i j) by (unfold pixel_offset; nia).
  assert (Ho2 : pixel_offset self i j + 3 <= buffer_width self * buffer_height self * 3)
    by (unfold pixel_offset; nia).
  destruct (Hconv 0 ltac:(lia)) as [n0 Hn0].
  destruct (Hconv 1 ltac:(lia)) as [n1 Hn1].
  destruct (Hconv 2 ltac:(lia)) as [n2 Hn2].
  rewrite (tracePixel_colour self i j sc Hsc).
  set (off := pixel_offset self i j) in *.
  set (b1 := <[Z.to_nat off := int_to_uchar n0]> b).
  set (b2 := <[Z.to_nat (off + 1) := int_to_uchar n1]> b1).
  assert (R0 : 0 <= off < Z.of_nat (length b)) by lia.
  assert (R1 : 0 <= off + 1 < Z.of_nat (length b1))
    by (unfold b1; rewrite length_insert; lia).
  assert (R2 : 0 <= off + 2 < Z.of_nat (length b2))
    by (unfold b2, b1; rewrite !length_insert; lia).
  rewrite (bind_run _ _ _ _ _ Hcol), Hb.
  rewrite (bind_run _ _ _ _ _ (store_channel_run b off _ n0 w' Hn0 R0)).
  rewrite (bind_run _ _ _ _ _ (store_channel_run b1 (off + 1) _ n1 w' Hn1 R1)).
  rewrite (bind_run _ _ _ _ _ (store_channel_run b2 (off + 2) _ n2 w' Hn2 R2)).
  eexists. split; [reflexivity|].
  eexists. cbn [buffer buffer_width buffer_height]. split; [reflexivity|].
  unfold b2, b1. rewrite !length_insert. exact Hlen.
Qed.

End Frame.

(** * Rows, bands and workers *)

Section Bands.

Context {V : VecMath} {E : Externals}.

Local Open Scope Z_scope.

Lemma frame_rel_refl lo hi t : frame_rel lo hi t t.
Proof.
  unfold frame_rel. repeat split. destruct (buffer t); auto.
Qed.

Lemma frame_rel_trans lo hi t0 t1 t2 :
  frame_rel lo hi t0 t1 -> frame_rel lo hi t1 t2 -> frame_rel lo hi t0 t2.
Proof.
  unfold frame_rel. intros (W1 & H1 & S1 & B1) (W2 & H2 & S2 & B2).
  repeat split; try congruence.
  destruct (buffer t0), (buffer t1), (buffer t2); try tauto.
  destruct B1 as [L1 B1], B2 as [L2 B2]. split; [congruence|].
  intros n Hn. rewrite (B2 n Hn). apply B1, Hn.
Qed.

Lemma frame_rel_mono lo hi lo' hi' t0 t :
  lo' <= lo -> hi <= hi' -> frame_rel lo hi t0 t -> frame_rel lo' hi' t0 t.
Proof.
  unfold frame_rel. intros Hlo Hhi (W1 & H1 & S1 & B1). repeat split; try assumption.
  destruct (buffer t0), (buffer t); try tauto.
  destruct B1 as [L1 B1]. split; [exact L1|]. intros n Hn. apply B1. lia.
Qed.

Lemma tracePixel_rel self i j w self' w' :
  tracePixel self i j w = Done self' w' ->
  frame_rel (pixel_offset self i j) (pixel_offset self i j + 3) self self'.
Proof.
  intros Hrun. destruct (tracer_scene self) as [sc|] eqn:Hsc.
  - destruct (tracePixel_inv self i j w self' w' Hrun) as (b & n1 & n2 & n3 & Hb & Hlo & Hhi & ->).
    { rewrite Hsc. eauto. }
    unfold frame_rel. cbn [buffer buffer_width buffer_height tracer_scene]. rewrite Hb.
    repeat split.
    + rewrite !length_insert. reflexivity.
    + intros n Hn. rewrite !list_lookup_insert_ne by lia. reflexivity.
  - unfold tracePixel in Hrun. rewrite Hsc in Hrun. injection Hrun as <- <-.
    apply frame_rel_refl.
Qed.

Lemma for_loop_acc {A} (I : A -> Prop) (body : Z -> A -> M A) n k acc w :
  (forall j acc w, k <= j < k + Z.of_nat n -> I acc ->
     wp True True (body j acc) w (fun acc' _ => I acc')) ->
  I acc -> wp True True (for_loop n k body acc) w (fun acc' _ => I acc').
Proof.
  revert k acc w. induction n as [|n IH]; intros k acc w Hbody Hacc; cbn [for_loop].
  - exact Hacc.
  - apply wp_bind. eapply wp_mono; [|apply Hbody; [lia|exact Hacc]].
    intros acc' w1 Hacc'. apply IH; [|exact Hacc'].
    intros j acc0 w0 Hj. apply Hbody. lia.
Qed.

Lemma wp_Done {A} (m : M A) w (post : A -> World -> Prop) :
  (forall a w', m w = Done a w' -> post a w') -> wp True True m w post.
Proof. unfold wp. intros H. destruct (m w); auto. Qed.

(** X10. [traceLines] writes inside its rows only: a [traceLines] that
    returns has changed no byte of the frame buffer outside the rows from
    [start] up to the smaller of [stop] and the height, and has kept the
    buffer's length and the tracer's width, height and scene; on an empty
    range of rows it changes nothing at all. *)
Theorem traceLines_frame (self : RayTracer) (start stop : Z) (w : World)
    (self' : RayTracer) (w' : World) :
  traceLines self start stop w = Done self' w' ->
  let stop' := Z.min stop (buffer_height self) in
  frame_rel (start * buffer_width self * 3) (stop' * buffer_width self * 3) self self'
  /\ (stop' <= start -> self' = self /\ w' = w).
Proof.
  intros Hrun stop'. unfold traceLines in Hrun.
  destruct (tracer_scene self) as [sc|] eqn:Hsc.
  2:{ injection Hrun as <- <-. split; [apply frame_rel_refl|auto]. }
  assert (Hstop : (if buffer_height self <? stop then buffer_height self else stop) = stop').
  { unfold stop'. destruct (Z.ltb_spec (buffer_height self) stop); lia. }
  rewrite Hstop in Hrun. unfold for_range in Hrun. split.
  - set (W := buffer_width self) in *.
    revert Hrun.
    apply (wp_partial _ w (fun acc _ => frame_rel (start * W * 3) (stop' * W * 3) self acc)).
    apply (for_loop_acc (fun acc => frame_rel (start * W * 3) (stop' * W * 3) self acc));
      [|apply frame_rel_refl].
    intros j acc w0 Hj Hacc. unfold for_range.
    apply (for_loop_acc (fun acc => frame_rel (start * W * 3) (stop' * W * 3) self acc));
      [|exact Hacc].
    intros i acc1 w1 Hi Hacc1. apply wp_Done. intros acc2 w2 Hpix.
    eapply frame_rel_trans; [exact Hacc1|].
    eapply frame_rel_mono; [| |apply (tracePixel_rel _ _ _ _ _ _ Hpix)].
    + unfold pixel_offset. destruct Hacc1 as (-> & _). fold W.
      destruct Hacc as (HW & _). rewrite HW in Hi. fold W in Hi. nia.
    + unfold pixel_offset. destruct Hacc1 as (-> & _). fold W.
      destruct Hacc as (HW & _). rewrite HW in Hi. fold W in Hi.
      assert (i + j * W + 1 <= stop' * W) by nia. lia.
  - intros Hempty. replace (Z.to_nat (stop' - start)) with 0%nat in Hrun by lia.
    injection Hrun as <- <-. auto.
Qed.

Section Worker.

Context (flag : nat -> bool).

Lemma worker_columns_rel n x y self reads w self' reads' w' :
  0 <= x -> x + Z.of_nat n <= buffer_width self ->
  worker_columns flag n x y self reads w = Done (self', reads') w' ->
  frame_rel (y * buffer_width self * 3) ((y + 1) * buffer_width self * 3) self self'.
Proof.
  revert x self reads w. induction n as [|n IH]; intros x self reads w Hx Hn;
    cbn [worker_columns].
  - intros [= <- _ _]. apply frame_rel_refl.
  - destruct (flag reads); [intros [= <- _ _]; apply frame_rel_refl|].
    intros Hrun. apply bind_inv in Hrun as (self1 & w1 & Hpix & Hrun).
    pose proof (tracePixel_rel _ _ _ _ _ _ Hpix) as Hrel.
    assert (HW : buffer_width self1 = buffer_width self) by apply Hrel.
    eapply frame_rel_trans.
    + eapply frame_rel_mono; [| |exact Hrel]; unfold pixel_offset; nia.
    + rewrite <- HW. apply (IH (x + 1) self1 (S reads) w1); [lia|lia|exact Hrun].
Qed.

Lemma worker_rows_rel n y cols self reads w self' reads' w' :
  0 <= cols <= buffer_width self ->
  worker_rows flag n y cols self reads w = Done (self', reads') w' ->
  frame_rel (y * buffer_width self * 3) ((y + Z.of_nat n) * buffer_width self * 3)
    self self'.
Proof.
  revert y self reads w. induction n as [|n IH]; intros y self reads w Hc;
    cbn [worker_rows].
  - intros [= <- _ _]. apply frame_rel_refl.
  - destruct (flag reads); [intros [= <- _ _]; apply frame_rel_refl|].
    intros Hrun. apply bind_inv in Hrun as ([self1 reads1] & w1 & Hcols & Hrun).
    apply worker_columns_rel in Hcols as Hrel; [|lia|lia].
    assert (HW : buffer_width self1 = buffer_width self) by apply Hrel.
    eapply frame_rel_trans.
    + eapply frame_rel_mono; [| |exact Hrel]; nia.
    + pose proof (IH (y + 1) self1 reads1 w1 ltac:(lia) Hrun) as Hrest.
      rewrite HW in Hrest.
      eapply frame_rel_mono; [| |exact Hrest]; nia.
Qed.

(** X11. A worker writes inside its band only, whatever the reads of the
    stop flag return: a [RenderWorker] on the rows from [from_y] up to
    [to_y], with at most the buffer's width as its width, has changed no
    byte of the frame buffer outside those rows when it returns, and has
    kept the buffer's length and the tracer's width, height and scene. *)
Theorem RenderWorker_frame (raytracer : RayTracer) (from_y to_y cols : Z)
    (w : World) (self' : RayTracer) (reads : nat) (w' : World) :
  0 <= cols <= buffer_width raytracer ->
  RenderWorker flag raytracer from_y to_y cols w = Done (self', reads) w' ->
  frame_rel (from_y * buffer_width raytracer * 3) (to_y * buffer_width raytracer * 3)
    raytracer self'.
Proof.
  intros Hc Hrun. unfold RenderWorker in Hrun.
  destruct (Z_le_gt_dec from_y to_y) as [Hle|Hgt].
  - apply worker_rows_rel in Hrun; [|exact Hc].
    replace (from_y + Z.of_nat (Z.to_nat (to_y - from_y))) with to_y in Hrun by lia.
    exact Hrun.
  - replace (Z.to_nat (to_y - from_y)) with 0%nat in Hrun by lia.
    cbn [worker_rows] in Hrun. injection Hrun as <- _ _. apply frame_rel_refl.
Qed.

(** X12. Once the stop flag reads set and stays set, a worker traces no
    further pixel: between two pixels of a row, and between two rows, its
    loops return the tracer as it is, the world untouched, after one more
    read of the flag. *)
Theorem worker_stops (n : nat) (x y cols : Z) (self : RayTracer) (reads : nat)
    (w : World) :
  (forall k, (reads <= k)%nat -> flag k = true) ->
  worker_columns flag (S n) x y self reads w = Done (self, S reads) w
  /\ worker_rows flag (S n) y cols self reads w = Done (self, S reads) w
  /\ (b ← worker_columns flag (S n) x y self reads;
      worker_rows flag (S n) (y + 1) cols (fst b) (snd b)) w
     = Done (self, S (S reads)) w.
Proof.
  intros Hset. cbn [worker_columns worker_rows]. rewrite (Hset reads) by lia.
  repeat split. unfold mbind, M_bind, mret, M_ret. cbn [fst snd].
  rewrite (Hset (S reads)) by lia. reflexivity.
Qed.

End Worker.

Lemma bind_bind {A B C} (m : M A) (k : A -> M B) (h : B -> M C) w :
  ((m ≫= k) ≫= h) w = (m ≫= (fun a => k a ≫= h)) w.
Proof.
  unfold mbind, M_bind. destruct (m w) as [a w1| |]; reflexivity.
Qed.

Lemma bind_ext_run {A B} (m : M A) (k k' : A -> M B) w :
  (forall a w1, m w = Done a w1 -> k a w1 = k' a w1) -> (m ≫= k) w = (m ≫= k') w.
Proof.
  intros H. unfold mbind, M_bind. destruct (m w) as [a w1| |]; [apply H|..]; reflexivity.
Qed.

Lemma worker_columns_unstopped flag n x y self reads w :
  (forall k, flag k = false) ->
  (p ← worker_columns flag n x y self reads; mret (fst p)) w
  = for_loop n x (fun i self => tracePixel self i y) self w.
Proof.
  intros Hflag. revert x self reads w. induction n as [|n IH]; intros x self reads w;
    cbn [worker_columns for_loop].
  - reflexivity.
  - rewrite Hflag, bind_bind. apply bind_ext. intros self1 w1. apply IH.
Qed.

Lemma worker_columns_width flag n x y self reads w self' reads' w' :
  worker_columns flag n x y self reads w = Done (self', reads') w' ->
  buffer_width self' = buffer_width self.
Proof.
  revert x self reads w. induction n as [|n IH]; intros x self reads w;
    cbn [worker_columns].
  - intros [= <- _ _]. reflexivity.
  - destruct (flag reads); [intros [= <- _ _]; reflexivity|].
    intros Hrun. apply bind_inv in Hrun as (self1 & w1 & Hpix & Hrun).
    rewrite (IH _ _ _ _ Hrun). apply (tracePixel_rel _ _ _ _ _ _ Hpix).
Qed.

Lemma worker_rows_unstopped flag n y self reads w :
  (forall k, flag k = false) ->
  (p ← worker_rows flag n y (buffer_width self) self reads; mret (fst p)) w
  = for_loop n y (fun j self =>
        for_range 0 (buffer_width self) (fun i self => tracePixel self i j) self) self w.
Proof.
  intros Hflag. revert y self reads w. induction n as [|n IH]; intros y self reads w;
    cbn [worker_rows for_loop].
  - reflexivity.
  - rewrite Hflag, bind_bind. cbv beta.
    assert (Hrow : (p ← worker_columns flag (Z.to_nat (buffer_width self)) 0 y self
                         (S reads); mret (fst p)) w
                   = for_range 0 (buffer_width self)
                       (fun i self0 => tracePixel self0 i y) self w).
    { unfold for_range. rewrite Z.sub_0_r. apply worker_columns_unstopped, Hflag. }
    rewrite <- (bind_ext_l _ _ _ _ Hrow).
    rewrite bind_bind. apply bind_ext_run. intros [self1 reads1] w1 Hcols.
    apply worker_columns_width in Hcols.
    rewrite <- Hcols, IH. reflexivity.
Qed.

(** X13. A worker that never reads the stop flag set does what
    [traceLines] does on its band: with a scene loaded, the buffer's width
    as its width and [to_y] no more than the height, [RenderWorker] and
    [traceLines] leave the same tracer and the same world, or fail alike. *)
Theorem RenderWorker_traceLines (flag : nat -> bool) (raytracer : RayTracer)
    (from_y to_y : Z) (w : World) :
  (forall k, flag k = false) ->
  is_Some (tracer_scene raytracer) ->
  to_y <= buffer_height raytracer ->
  (p ← RenderWorker flag raytracer from_y to_y (buffer_width raytracer); mret (fst p)) w
  = traceLines raytracer from_y to_y w.
Proof.
  intros Hflag [sc Hsc] Hto. unfold RenderWorker, traceLines. rewrite Hsc.
  replace (if buffer_height raytracer <? to_y then buffer_height raytracer else to_y)
    with to_y by (destruct (Z.ltb_spec (buffer_height raytracer) to_y); lia).
  unfold for_range at 1. apply worker_rows_unstopped, Hflag.
Qed.

End Bands.

(** * Camera rays, set-up and loading *)

Section Sampling.

Context {V : VecMath} {E : Externals}.

Lemma asks_camera_refl w : asks_camera 0 w w.
Proof. exists []. rewrite app_nil_r. auto. Qed.

Lemma asks_camera_trans n m w0 w1 w2 :
  asks_camera n w0 w1 -> asks_camera m w1 w2 -> asks_camera (n + m) w0 w2.
Proof.
  intros (e1 & H1 & L1) (e2 & H2 & L2). exists (e1 ++ e2). split.
  - rewrite H2, H1, app_assoc. reflexivity.
  - rewrite camera_rays_app, length_app. lia.
Qed.

Lemma rand_asks w : wp True True rand w (fun _ w' => asks_camera 0 w w').
Proof.
  unfold wp, rand. destruct (c_rand (rand_state w)) as [v s].
  exists []. cbn. rewrite app_nil_r. auto.
Qed.

Lemma trace_asks self sc x y w :
  wp True True (trace self sc x y) w (fun _ w' => asks_camera 1 w w').
Proof.
  apply wp_Done. intros c w' Hrun. unfold trace in Hrun.
  apply bind_inv in Hrun as (s & w1 & Hs & Hrun).
  destruct sc as [s0|]; [|discriminate Hs]. injection Hs as <- <-.
  apply bind_inv in Hrun as ([] & w1 & Hrec & Hrun).
  injection Hrec as <-.
  apply bind_inv in Hrun as (c0 & w2 & Hray & Hrun).
  injection Hrun as _ <-.
  apply (wp_partial _ _ _ _ _ (traceRay_grows _ _ _ _)) in Hray.
  destruct Hray as (evs & Ht & Hcam & _).
  exists (EvRayThrough x y :: evs). split.
  - rewrite Ht. cbn. rewrite <- app_assoc. reflexivity.
  - change (length (camera_rays (EvRayThrough x y :: evs)))
      with (S (length (camera_rays evs))).
    rewrite Hcam. reflexivity.
Qed.

Lemma for_loop_asks {A} (B : nat) (body : Z -> A -> M A) n k acc w :
  (forall k acc w, wp True True (body k acc) w (fun _ w' => asks_camera B w w')) ->
  wp True True (for_loop n k body acc) w (fun _ w' => asks_camera (n * B) w w').
Proof.
  intros Hbody. revert k acc w. induction n as [|n IH]; intros k acc w; cbn [for_loop].
  - apply asks_camera_refl.
  - apply wp_bind. eapply wp_mono; [|apply Hbody].
    intros acc' w1 H1. eapply wp_mono; [|apply IH].
    intros acc'' w2 H2. exact (asks_camera_trans B (n * B) _ _ _ H1 H2).
Qed.

Lemma pixel_colour_asks self i j w :
  wp True True (pixel_colour self i j) w (fun _ w' => asks_camera pixel_samples w w').
Proof.
  unfold pixel_colour, pixel_samples. destruct (0 <? GetSuperSampling)%Z.
  - apply wp_bind. unfold for_range. rewrite Z.sub_0_r.
    eapply wp_mono; [|apply for_loop_asks with (B := (Z.to_nat GetSuperSampling * 1)%nat)].
    + intros col w1 H1. unfold wp, mret, M_ret.
      rewrite Nat.mul_1_r in H1. exact H1.
    + intros k acc w0. apply for_loop_asks. intros k' acc' w1.
      apply wp_bind. eapply wp_mono; [|apply rand_asks]. intros ry w2 H2.
      apply wp_bind. eapply wp_mono; [|apply rand_asks]. intros rx w3 H3.
      apply wp_bind. eapply wp_mono; [|apply trace_asks]. intros c w4 H4.
      unfold wp, mret, M_ret.
      apply (asks_camera_trans 0 1 _ _ _ H2).
      apply (asks_camera_trans 0 1 _ _ _ H3). exact H4.
  - apply trace_asks.
Qed.

(** X14. The camera rays of a pixel: a [tracePixel] that returns, with a
    scene loaded, has asked the camera for exactly one ray without
    supersampling and for exactly the square of the supersampling count
    with it, and every event it adds to the world comes after those that
    were there. *)
Theorem tracePixel_camera_rays (self : RayTracer) (i j : Z) (w : World)
    (self' : RayTracer) (w' : World) :
  is_Some (tracer_scene self) ->
  tracePixel self i j w = Done self' w' ->
  exists evs, trail w' = trail w ++ evs
    /\ length (camera_rays evs)
       = if (0 <? GetSuperSampling)%Z
         then (Z.to_nat GetSuperSampling * Z.to_nat GetSuperSampling)%nat else 1%nat.
Proof.
  intros [sc Hsc] Hrun. rewrite (tracePixel_colour _ _ _ _ Hsc) in Hrun.
  apply bind_inv in Hrun as (col & w1 & Hcol & Hrun).
  apply (wp_partial _ _ _ _ _ (pixel_colour_asks _ _ _ _)) in Hcol.
  apply bind_inv in Hrun as (b0 & w2 & H0 & Hrun). apply store_channel_inv in H0 as [-> _].
  apply bind_inv in Hrun as (b1 & w3 & H1 & Hrun). apply store_channel_inv in H1 as [-> _].
  apply bind_inv in Hrun as (b2 & w4 & H2 & Hrun). apply store_channel_inv in H2 as [-> _].
  injection Hrun as _ <-. exact Hcol.
Qed.

(** X15. The depths of a primary ray: every context a [trace] that returns
    has entered [traceRay] with has a depth from 0 up to the depth limit,
    or 0 under a negative limit, so that with a limit [int] holds the
    [depth + 1] of the branches never overflows. *)
Theorem trace_depths (self : RayTracer) (sc : option Scene) (x y : double)
    (w : World) (c : vec3f) (w' : World) :
  trace self sc x y w = Done c w' ->
  extends (fun p => (0 <= depth p <= Z.max 0 getDepth)%Z) w w'.
Proof.
  intros Hrun. unfold trace in Hrun.
  apply bind_inv in Hrun as (s & w1 & Hs & Hrun).
  destruct sc as [s0|]; [|discriminate Hs]. injection Hs as <- <-.
  apply bind_inv in Hrun as ([] & w1 & Hrec & Hrun).
  injection Hrec as <-.
  apply bind_inv in Hrun as (c0 & w2 & Hray & Hrun).
  injection Hrun as _ <-.
  apply traceRay_depths in Hray. destruct Hray as (evs & Ht & Hall).
  exists (EvRayThrough x y :: evs). split.
  - rewrite Ht. cbn. rewrite <- app_assoc. reflexivity.
  - cbn. eapply Forall_impl; [exact Hall|].
    cbn. intros p [->|[H1 H2]]; cbn; lia.
Qed.

End Sampling.

Section Setup.

Context {V : VecMath} {E : Externals} {L : Loader}.

Local Open Scope Z_scope.

Lemma frame_bytes_run w h wd :
  0 <= w -> 0 <= h -> w * h * 3 <= INT_MAX ->
  frame_bytes w h wd = Done (w * h * 3) wd.
Proof.
  intros Hw Hh Hmax. unfold frame_bytes, int_mul, in_int, mbind, M_bind, mret, M_ret.
  assert (0 <= w * h) by nia. unfold INT_MIN, INT_MAX in *.
  replace ((- 2 ^ 31 <=? w * h) && (w * h <=? 2 ^ 31 - 1)) with true
    by (symmetry; apply andb_true_iff; split; apply Z.leb_le; lia).
  replace ((- 2 ^ 31 <=? w * h * 3) && (w * h * 3 <=? 2 ^ 31 - 1)) with true
    by (symmetry; apply andb_true_iff; split; apply Z.leb_le; lia).
  reflexivity.
Qed.

Lemma frame_bytes_inv w h wd n wd' :
  frame_bytes w h wd = Done n wd' -> n = w * h * 3 /\ wd' = wd.
Proof.
  unfold frame_bytes, int_mul, mbind, M_bind, mret, M_ret, undefined.
  destruct (in_int (w * h)); [|discriminate].
  destruct (in_int (w * h * 3)); [|discriminate].
  intros [= <- <-]. auto.
Qed.

Lemma new_bytes_inv n wd b wd' :
  new_bytes n wd = Done b wd' -> 0 <= n /\ Z.of_nat (length b) = n /\ wd' = wd.
Proof.
  unfold new_bytes, mret, M_ret, undefined. destruct (Z.leb_spec 0 n); [|discriminate].
  intros [= <- <-]. rewrite length_map, length_seq. split; [assumption|]. split; [lia|reflexivity].
Qed.

Lemma memset_zero_all b n wd :
  Z.of_nat (length b) = n ->
  memset_zero (Some b) n wd = Done (replicate (Z.to_nat n) 0) wd.
Proof.
  intros Hlen. unfold memset_zero, deref, mbind, M_bind, mret, M_ret.
  replace ((0 <=? n) && (n <=? Z.of_nat (length b))) with true
    by (symmetry; apply andb_true_iff; split; apply Z.leb_le; lia).
  rewrite drop_ge by lia. rewrite app_nil_r. reflexivity.
Qed.

(** [traceSetup] to other dimensions: a new buffer, cleared. *)
Lemma traceSetup_resize (self : RayTracerObject) (w h : Z) (wd : World) :
  0 <= w -> 0 <= h -> w * h * 3 <= INT_MAX ->
  negb (buffer_width (members self) =? w) || negb (buffer_height (members self) =? h)
    = true ->
  traceSetup self w h wd
  = Done {| members := {| buffer := Some (replicate (Z.to_nat (w * h * 3)) 0);
                          buffer_width := w; buffer_height := h;
                          tracer_scene := tracer_scene (members self) |};
            bufferSize := w * h * 3;
            m_bSceneLoaded := m_bSceneLoaded self |} wd.
Proof.
  intros Hw Hh Hmax Hdiff. unfold traceSetup. rewrite Hdiff.
  unfold mbind at 1, M_bind at 1. unfold mbind at 1, M_bind at 1.
  rewrite (frame_bytes_run w h wd Hw Hh Hmax).
  unfold mbind at 1, M_bind at 1. unfold new_bytes.
  replace (0 <=? w * h * 3) with true by (symmetry; apply Z.leb_le; nia).
  unfold mret at 1 2, M_ret at 1 2. cbn [members buffer].
  unfold mbind at 1, M_bind at 1. rewrite (frame_bytes_run w h wd Hw Hh Hmax).
  unfold mbind at 1, M_bind at 1. rewrite memset_zero_all
    by (rewrite length_map, length_seq; nia).
  reflexivity.
Qed.

(** [traceSetup] to the dimensions the tracer has: its buffer, cleared. *)
Lemma traceSetup_same (self : RayTracerObject) (w h : Z) (wd : World) (b : list Z) :
  0 <= w -> 0 <= h -> w * h * 3 <= INT_MAX ->
  negb (buffer_width (members self) =? w) || negb (buffer_height (members self) =? h)
    = false ->
  buffer (members self) = Some b -> Z.of_nat (length b) = w * h * 3 ->
  traceSetup self w h wd
  = Done {| members := {| buffer := Some (replicate (Z.to_nat (w * h * 3)) 0);
                          buffer_width := buffer_width (members self);
                          buffer_height := buffer_height (members self);
                          tracer_scene := tracer_scene (members self) |};
            bufferSize := bufferSize self;
            m_bSceneLoaded := m_bSceneLoaded self |} wd.
Proof.
  intros Hw Hh Hmax Hdiff Hb Hlen. unfold traceSetup. rewrite Hdiff.
  unfold mbind at 1, M_bind at 1. unfold mret at 1, M_ret at 1.
  unfold mbind at 1, M_bind at 1. rewrite (frame_bytes_run w h wd Hw Hh Hmax).
  unfold mbind at 1, M_bind at 1. rewrite Hb, memset_zero_all by exact Hlen.
  reflexivity.
Qed.

Lemma same_dimensions (self : RayTracerObject) (w h : Z) :
  negb (buffer_width (members self) =? w) || negb (buffer_height (members self) =? h)
    = false ->
  buffer_width (members self) = w /\ buffer_height (members self) = h.
Proof.
  intros Hdiff. apply orb_false_iff in Hdiff as [HW HH].
  apply negb_false_iff, Z.eqb_eq in HW. apply negb_false_iff, Z.eqb_eq in HH. auto.
Qed.

Lemma replicate_sized (w h : Z) :
  0 <= w -> 0 <= h ->
  Z.of_nat (length (replicate (Z.to_nat (w * h * 3)) 0)) = w * h * 3.
Proof. intros Hw Hh. rewrite length_replicate. nia. Qed.

(** X16. [traceSetup] leaves a black frame of the size asked for: for a
    width and a height that are not negative and a byte count [int] holds,
    on a tracer whose buffer has the size of its dimensions or whose
    dimensions differ from those asked for, it returns, with the width and
    the height asked for, a buffer of [w * h * 3] zero bytes, and the scene
    and the loaded flag as they were. *)
Theorem traceSetup_black (self : RayTracerObject) (w h : Z) (wd : World) :
  0 <= w -> 0 <= h -> w * h * 3 <= INT_MAX ->
  frame_sized (members self)
    \/ buffer_width (members self) <> w \/ buffer_height (members self) <> h ->
  exists self',
    traceSetup self w h wd = Done self' wd
    /\ buffer (members self') = Some (replicate (Z.to_nat (w * h * 3)) 0)
    /\ buffer_width (members self') = w
    /\ buffer_height (members self') = h
    /\ frame_sized (members self')
    /\ tracer_scene (members self') = tracer_scene (members self)
    /\ m_bSceneLoaded self' = m_bSceneLoaded self.
Proof.
  intros Hw Hh Hmax Hpre.
  destruct (negb (buffer_width (members self) =? w)
            || negb (buffer_height (members self) =? h)) eqn:Hdiff.
  - eexists. split; [apply traceSetup_resize; assumption|]. cbn.
    repeat split; try reflexivity.
    eexists. split; [reflexivity|]. apply replicate_sized; assumption.
  - destruct (same_dimensions self w h Hdiff) as [HW HH].
    destruct Hpre as [(b & Hb & Hlen)|[Hne|Hne]]; [|contradiction..].
    rewrite HW, HH in Hlen.
    eexists. split; [apply (traceSetup_same self w h wd b); assumption|]. cbn.
    repeat split; try assumption; try reflexivity.
    eexists. split; [reflexivity|]. rewrite HW, HH. apply replicate_sized; assumption.
Qed.

(** X17. [traceSetup] relies on a buffer: on a tracer whose buffer is null
    and whose dimensions are those asked for, as the constructor leaves it
    for 256 by 256, it is undefined, as it clears the null buffer. *)
Theorem traceSetup_null_buffer (self : RayTracerObject) (w h : Z) (wd : World) :
  buffer (members self) = None ->
  buffer_width (members self) = w -> buffer_height (members self) = h ->
  traceSetup self w h wd = Undefined.
Proof.
  intros Hb HW HH. unfold traceSetup. rewrite HW, HH, !Z.eqb_refl. cbn [negb orb].
  unfold mbind at 1, M_bind at 1. unfold mret at 1, M_ret at 1.
  unfold mbind at 1, M_bind at 1.
  destruct (frame_bytes w h wd) as [n wd'| |] eqn:Hn.
  - rewrite Hb. reflexivity.
  - reflexivity.
  - unfold frame_bytes, int_mul, mbind, M_bind, mret, M_ret, undefined in Hn.
    destruct (in_int (w * h)); [|discriminate].
    destruct (in_int (w * h * 3)); discriminate.
Qed.

(** A [loadScene] that returned true, step by step. *)
Lemma loadScene_true (self : RayTracerObject) (fn : string) (wd : World)
    (self' : RayTracerObject) (wd' : World) :
  loadScene self fn wd = Done (true, self') wd' ->
  wd' = wd
  /\ exists s h b,
       readScene fn = SceneRead (Some s)
       /\ 0 <= h /\ Z.of_nat (length b) = 256 * h * 3
       /\ self' = {| members := {| buffer := Some b; buffer_width := 256;
                                   buffer_height := h;
                                   tracer_scene := Some (initScene s) |};
                     bufferSize := 256 * h * 3;
                     m_bSceneLoaded := true |}.
Proof.
  unfold loadScene. destruct (readScene fn) as [msg|[s|]].
  - intros [= <- <-].
  - intros Hrun. apply bind_inv in Hrun as (height & w1 & Hh & Hrun).
    destruct (double_to_int _) as [h0|]; [|discriminate Hh]. injection Hh as <- <-.
    apply bind_inv in Hrun as (size & w1 & Hsize & Hrun).
    apply frame_bytes_inv in Hsize as [-> ->].
    apply bind_inv in Hrun as (b & w1 & Hb & Hrun).
    apply new_bytes_inv in Hb as (Hpos & Hlen & ->).
    injection Hrun as <- <-. split; [reflexivity|].
    exists s, h0, b. repeat split; try assumption. lia.
  - intros [= <- <-].
Qed.

(** X18. What [loadScene] returns: when it returns true, the file held a
    scene, which the tracer now has, initialised, with width 256, a height
    that is not negative, a buffer of the size of these dimensions and the
    loaded flag set; when it returns false, the buffer, the dimensions and
    the loaded flag are as they were, the scene too after a parse error,
    and the scene is null after a null result of the reader. The world is
    as it was in both cases. *)
Theorem loadScene_result (self : RayTracerObject) (fn : string) (wd : World)
    (ok : bool) (self' : RayTracerObject) (wd' : World) :
  loadScene self fn wd = Done (ok, self') wd' ->
  wd' = wd
  /\ if ok then
       exists s, readScene fn = SceneRead (Some s)
         /\ tracer_scene (members self') = Some (initScene s)
         /\ buffer_width (members self') = 256
         /\ 0 <= buffer_height (members self')
         /\ frame_sized (members self')
         /\ bufferSize self' = 256 * buffer_height (members self') * 3
         /\ sceneLoaded self' = true
     else
       buffer (members self') = buffer (members self)
       /\ buffer_width (members self') = buffer_width (members self)
       /\ buffer_height (members self') = buffer_height (members self)
       /\ bufferSize self' = bufferSize self
       /\ sceneLoaded self' = sceneLoaded self
       /\ match readScene fn with
          | ParseError _ => self' = self
          | SceneRead _ => tracer_scene (members self') = None
          end.
Proof.
  destruct ok.
  - intros Hrun.
    apply loadScene_true in Hrun as (-> & s & h0 & b & Hread & Hpos & Hlen & ->).
    split; [reflexivity|]. exists s. cbn.
    repeat split; try reflexivity; try assumption.
    exists b. split; [reflexivity|exact Hlen].
  - unfold loadScene. destruct (readScene fn) as [msg|[s|]].
    + intros [= <- <-]. repeat split.
    + intros Hrun. apply bind_inv in Hrun as (height & w1 & _ & Hrun).
      apply bind_inv in Hrun as (size & w2 & _ & Hrun).
      apply bind_inv in Hrun as (b & w3 & _ & Hrun). discriminate Hrun.
    + intros [= <- <-]. repeat split.
Qed.

(** X19. [loadScene] succeeds on a scene whose image height is an [int]
    that is not negative and whose byte count [int] holds: it returns true
    and leaves the world as it is. *)
Theorem loadScene_succeeds (self : RayTracerObject) (fn : string) (s : Scene)
    (height : Z) (wd : World) :
  readScene fn = SceneRead (Some s) ->
  double_to_int (int_to_double 256 / getAspectRatio s + 0.5)%float = Some height ->
  0 <= height -> 256 * height * 3 <= INT_MAX ->
  exists self', loadScene self fn wd = Done (true, self') wd
    /\ buffer_height (members self') = height.
Proof.
  intros Hread Hheight Hpos Hmax. unfold loadScene. rewrite Hread, Hheight.
  unfold deref. unfold mbind at 1, M_bind at 1. unfold mret at 1, M_ret at 1.
  unfold mbind at 1, M_bind at 1.
  rewrite (frame_bytes_run 256 height wd ltac:(lia) Hpos Hmax).
  unfold mbind at 1, M_bind at 1. unfold new_bytes.
  replace (0 <=? 256 * height * 3) with true by (symmetry; apply Z.leb_le; lia).
  unfold mret, M_ret. eexists. split; reflexivity.
Qed.

(** X20. A failed reload leaves a stale flag: after [loadScene] on a file
    for which the reader returns a null scene, a tracer that had a scene
    loaded still answers true to [sceneLoaded], while its scene is null,
    its [aspectRatio] is 1 and [traceLines] on it does nothing. *)
Theorem loadScene_stale_flag (self : RayTracerObject) (fn : string) (wd : World) :
  readScene fn = SceneRead None ->
  sceneLoaded self = true ->
  exists self',
    loadScene self fn wd = Done (false, self') wd
    /\ sceneLoaded self' = true
    /\ tracer_scene (members self') = None
    /\ aspectRatio self' = 1%float
    /\ forall start stop w,
         traceLines (members self') start stop w = Done (members self') w.
Proof.
  intros Hread Hloaded. unfold loadScene. rewrite Hread.
  eexists. split; [reflexivity|]. repeat split; exact Hloaded.
Qed.

(** X21. Rendering after a load has a buffer to clear: after a [loadScene]
    that returned true, [traceSetup] for a width and a height that are not
    negative and a byte count [int] holds returns, whatever the dimensions,
    with a black frame of the size asked for and the scene of the load. *)
Theorem loadScene_traceSetup (self : RayTracerObject) (fn : string) (wd : World)
    (self1 : RayTracerObject) (wd1 : World) (w h : Z) :
  loadScene self fn wd = Done (true, self1) wd1 ->
  0 <= w -> 0 <= h -> w * h * 3 <= INT_MAX ->
  exists self2,
    traceSetup self1 w h wd1 = Done self2 wd1
    /\ frame_sized (members self2)
    /\ buffer (members self2) = Some (replicate (Z.to_nat (w * h * 3)) 0)
    /\ buffer_width (members self2) = w /\ buffer_height (members self2) = h
    /\ is_Some (tracer_scene (members self2))
    /\ sceneLoaded self2 = true.
Proof.
  intros Hload Hw Hh Hmax.
  apply loadScene_true in Hload as (-> & s & h0 & b & _ & Hpos & Hlen & ->).
  set (self1 := {| members := _ |}).
  destruct (negb (buffer_width (members self1) =? w)
            || negb (buffer_height (members self1) =? h)) eqn:Hdiff.
  - eexists. split; [apply traceSetup_resize; assumption|]. cbn.
    repeat split; try reflexivity; [|eauto].
    eexists. split; [reflexivity|]. apply replicate_sized; assumption.
  - destruct (same_dimensions self1 w h Hdiff) as [HW HH]. cbn in HW, HH.
    eexists. split; [apply (traceSetup_same self1 w h wd b); try assumption|].
    + reflexivity.
    + rewrite <- HW, <- HH. exact Hlen.
    + cbn. repeat split; try assumption; try reflexivity; [|eauto].
      eexists. split; [reflexivity|]. rewrite HW, HH. apply replicate_sized; assumption.
Qed.

Lemma seqZ_concat (p : Z) (n : nat) :
  0 <= p ->
  concat (map (fun i => seqZ (p * i) p) (seqZ 0 (Z.of_nat n))) = seqZ 0 (p * Z.of_nat n).
Proof.
  intros Hp. induction n as [|n IH].
  - rewrite Z.mul_0_r. reflexivity.
  - rewrite Nat2Z.inj_succ, <- Z.add_1_r.
    rewrite (seqZ_app 0 (Z.of_nat n) 1) by lia.
    rewrite map_app, concat_app, IH. cbn [seqZ map concat].
    change (seqZ (0 + Z.of_nat n) 1) with [0 + Z.of_nat n].
    cbn [map concat]. rewrite app_nil_r, Z.add_0_l.
    rewrite Z.mul_add_distr_l, Z.mul_1_r.
    rewrite (seqZ_app 0 (p * Z.of_nat n) p) by nia. reflexivity.
Qed.

(** X22. The bands of a render cover the image once: for a thread count
    from 1 and a height that is not negative, both held by [int], the
    scheduler makes one band for each thread, each inside the image with
    its end not before its start, and the rows of the bands, one band after
    the other, are the rows from 0 up to the height, each once. *)
Theorem bands_cover (height threads : Z) :
  1 <= threads <= INT_MAX -> 0 <= height <= INT_MAX ->
  exists l, bands height threads = Some l
    /\ Z.of_nat (length l) = threads
    /\ Forall (fun band => 0 <= fst band <= snd band /\ snd band <= height) l
    /\ concat (map band_rows l) = seqZ 0 height.
Proof.
  intros Ht Hh. unfold bands.
  assert (Hint : INT_MIN <= 0 /\ 0 <= INT_MAX) by (unfold INT_MIN, INT_MAX; lia).
  replace ((threads =? 0) || negb (in_int (threads - 1))) with false.
  2:{ symmetry. apply orb_false_iff. split; [apply Z.eqb_neq; lia|].
      apply negb_false_iff, andb_true_iff. split; apply Z.leb_le; lia. }
  set (p := Z.quot height threads).
  assert (Hp : 0 <= p) by (apply Z.quot_pos; lia).
  assert (Hpt : p * threads <= height).
  { unfold p. rewrite Z.mul_comm. apply Z.mul_quot_le; lia. }
  set (l := map (fun i => (p * i, p * (i + 1))) (seqZ 0 (threads - 1))
            ++ [(p * (threads - 1), height)]).
  assert (Hall : Forall (fun band => 0 <= fst band <= snd band /\ snd band <= height) l).
  { apply Forall_app. split.
    - apply Forall_forall. intros band Hin.
      apply (list_elem_of_fmap (fun i => (p * i, p * (i + 1)))) in Hin as (i & -> & Hi).
      apply elem_of_seqZ in Hi. cbn [fst snd]. nia.
    - apply Forall_singleton. cbn [fst snd]. nia. }
  replace (forallb (fun band => in_int (fst band) && in_int (snd band)) l) with true.
  2:{ symmetry. apply forallb_forall. intros band Hin.
      apply list_elem_of_In in Hin.
      rewrite Forall_forall in Hall. specialize (Hall band Hin). cbv beta in Hall.
      unfold in_int. repeat (apply andb_true_iff; split); apply Z.leb_le; lia. }
  exists l. split; [reflexivity|]. split; [|split; [exact Hall|]].
  - unfold l. rewrite length_app, length_map, length_seqZ. cbn. lia.
  - unfold l. rewrite map_app, concat_app, map_map.
    replace (map (fun i => band_rows (p * i, p * (i + 1))) (seqZ 0 (threads - 1)))
      with (map (fun i => seqZ (p * i) p) (seqZ 0 (threads - 1))).
    2:{ apply map_ext. intros i. unfold band_rows. cbn [fst snd]. f_equal. lia. }
    replace (threads - 1) with (Z.of_nat (Z.to_nat (threads - 1))) at 1 by lia.
    rewrite seqZ_concat by exact Hp. rewrite Z2Nat.id by lia.
    cbn [map concat]. rewrite app_nil_r. unfold band_rows. cbn [fst snd].
    replace (seqZ 0 height)
      with (seqZ 0 (p * (threads - 1) + (height - p * (threads - 1))))
      by (f_equal; lia).
    rewrite seqZ_app by nia. rewrite Z.add_0_l. reflexivity.
Qed.

End Setup.

(** * The renderer on concrete scenes *)

Section OnStudio.

#[local] Existing Instance Demo.vecmath.
#[local] Existing Instance Studio.loader.

Local Open Scope float_scope.

(** X1 on the empty scene: the primary ray is black after one query. *)
Lemma traceRay_miss_witness :
  let E := Demo.externals (Demo.ui 1) in
  let self := Demo.tracer (Some Studio.empty_scene) in
  let top := Demo.context (Some Studio.empty_scene) (Demo.V3 1 1 1) (-1) 0 [AirLocal] in
  exists w',
    traceRay 1 self top Demo.world0 = Done vec3f_zero w'
    /\ entries (trail w') = entries (trail Demo.world0) ++ [top]
    /\ (scene_queries (trail w') = scene_queries (trail Demo.world0)
        \/ scene_queries (trail w') = scene_queries (trail Demo.world0) ++ [r top])
    /\ rand_state w' = rand_state Demo.world0.
Proof.
  intros E self top.
  apply (traceRay_miss (E := E) 0 self top Studio.empty_scene Demo.world0); reflexivity.
Defined.

(** X2 on a matte sphere whose shade casts a shadow ray and draws from
    [rand]: the colour is the shade, the trail has the entry, the ray of
    [traceRay] and the call of [shade] with its shadow ray. *)
Lemma traceRay_local_shading_witness :
  let E := Studio.externals (Demo.ui 1) in
  let s := Demo.sphere 4 in
  let self := Demo.tracer (Some s) in
  let top := Demo.context (Some s) (Demo.V3 1 1 1) (-1) 0 [AirLocal] in
  let shadow := {| ray_p := ray_at (r top) 1; ray_d := Demo.V3 0 1 0 |} in
  exists c, traceRay 1 self top Demo.world0
    = Done c {| rand_state := snd (Demo.lcg 1);
                trail := [EvTraceRay top; EvIntersect (r top); EvShade [shadow]] |}.
Proof.
  intros E s self top shadow. eexists.
  apply (traceRay_local_shading (E := E) 0 self top s (Demo.hit 4) AirLocal Demo.world0);
    vm_compute; reflexivity.
Defined.

(** X3 on the mirrored sphere at depth limit 1, with a shade that casts
    shadow rays: two entries, bound 3. *)
Lemma traceRay_calls_bounded_witness :
  let E := Studio.externals (Demo.ui 1) in
  let self := Demo.tracer (Some Demo.mirrored_sphere) in
  let top := Demo.context (Some Demo.mirrored_sphere) (Demo.V3 1 1 1) (-1) 0 [AirLocal] in
  exists c w' evs,
    traceRay 2 self top Demo.world0 = Done c w'
    /\ trail w' = trail Demo.world0 ++ evs
    /\ camera_rays evs = []
    /\ (length (shade_calls evs) <= length (tracer_queries evs))%nat
    /\ (length (tracer_queries evs) <= length (entries evs))%nat
    /\ (length (entries evs) <= 3)%nat.
Proof.
  intros E self top.
  let o := eval vm_compute in (traceRay 2 self top Demo.world0) in
  match o with Done ?c ?w' =>
    assert (Hrun : traceRay 2 self top Demo.world0 = Done c w') by (vm_compute; reflexivity);
    exists c, w'
  end.
  destruct (traceRay_calls_bounded (E := E) 2 self top Demo.world0 _ _ Hrun)
    as (evs & Ht & Hcam & Hshade & Hquery & Hlen).
  exists evs. repeat split; assumption.
Defined.

(** X4 on a run started at the mirrored sphere by a tracer whose own scene
    is the empty one: the run enters [traceRay] twice, with the context it
    started from and with that of the reflected ray, whose scene is the
    tracer's empty scene, not the sphere. *)
Lemma traceRay_children_scene_witness :
  let E := Demo.externals (Demo.ui 1) in
  let self := Demo.tracer (Some Studio.empty_scene) in
  let top := Demo.context (Some Demo.mirrored_sphere) (Demo.V3 1 1 1) (-1) 0 [AirLocal] in
  exists c w' child,
    traceRay 2 self top Demo.world0 = Done c w'
    /\ entries (trail w') = [top; child]
    /\ scene child = Some Studio.empty_scene
    /\ scene child <> scene top
    /\ extends (fun p => p = top \/ scene p = tracer_scene self) Demo.world0 w'.
Proof.
  intros E self top.
  let o := eval vm_compute in (traceRay 2 self top Demo.world0) in
  match o with Done ?c ?w' =>
    assert (Hrun : traceRay 2 self top Demo.world0 = Done c w') by (vm_compute; reflexivity);
    exists c, w'
  end.
  pose proof (traceRay_children_scene (E := E) 2 self top Demo.world0 _ _ Hrun) as Hext.
  match type of Hrun with _ = Done _ ?w' =>
    let l := eval vm_compute in (entries (trail w')) in
    match l with [_; ?child] => exists child end
  end.
  split; [exact Hrun|]. split; [vm_compute; reflexivity|].
  split; [vm_compute; reflexivity|]. split; [|exact Hext].
  intros Heq. apply (f_equal (fun o => match o with
                                       | Some sc => is_Some (intersect sc (r top))
                                       | None => False
                                       end)) in Heq.
  cbn in Heq. assert (Hno : ~ is_Some (@None isect)) by (intros [x Hx]; discriminate Hx).
  apply Hno. rewrite Heq. eauto.
Defined.

(** X5 on the mirrored sphere traced by a tracer without a scene. *)
Lemma traceRay_reflection_without_scene_witness :
  let E := Demo.externals (Demo.ui 1) in
  let self := Demo.tracer None in
  let top := Demo.context (Some Demo.mirrored_sphere) (Demo.V3 1 1 1) (-1) 0 [AirLocal] in
  traceRay 2 self top Demo.world0 = Undefined.
Proof.
  intros E self top.
  apply (traceRay_reflection_without_scene (E := E) 0 self top Demo.mirrored_sphere
           (Demo.hit 1) AirLocal Demo.world0); vm_compute; reflexivity.
Defined.

(** X6 on glass in air: (1, 1.5) going in, (1.5, 1) coming out. *)
Lemma refraction_media_swap_witness :
  let E := Demo.externals (Demo.ui 1) in
  let s := Demo.sphere 2 in
  let outside := Demo.context (Some s) (Demo.V3 1 1 1) (-1) 0 [AirLocal] in
  let inside := Demo.context (Some s) (Demo.V3 1 1 1) (-1) 1 [SceneMaterial 2; AirLocal] in
  refraction_media inside (Demo.hit 2) Demo.world0
  = Done (1.5, 1, [AirLocal]) Demo.world0.
Proof.
  intros E s outside inside.
  apply (refraction_media_swap (E := E) outside (Demo.hit 2) 1 1.5
           [SceneMaterial 2; AirLocal] Demo.world0 inside (Demo.hit 2)).
  - vm_compute. reflexivity.
  - vm_compute. intros H. discriminate H.
  - reflexivity.
  - reflexivity.
Defined.

(** X7 on pixel (1, 0) of the 2 x 2 image of the mirrored sphere. *)
Lemma tracePixel_frame_witness :
  let E := Demo.externals (Demo.ui 1) in
  let self := Demo.tracer (Some Demo.mirrored_sphere) in
  exists self' w',
    tracePixel self 1 0 Demo.world0 = Done self' w'
    /\ buffer_width self' = 2%Z
    /\ exists b', buffer self' = Some b' /\ length b' = 12%nat.
Proof.
  intros E self.
  let o := eval vm_compute in (tracePixel self 1 0 Demo.world0) in
  match o with Done ?t ?w' =>
    assert (Hrun : tracePixel self 1 0 Demo.world0 = Done t w') by (vm_compute; reflexivity);
    exists t, w'
  end.
  split; [exact Hrun|].
  destruct (tracePixel_frame (E := E) self 1 0 Demo.world0 _ _ Hrun)
    as (HW & _ & _ & b & b' & Hb & Hb' & Hlen & _).
  { vm_compute. eauto. }
  split; [exact HW|]. exists b'. split; [exact Hb'|].
  rewrite Hlen. injection Hb as <-. reflexivity.
Defined.

(** X8 on pixels (0, 0) and (1, 0) of a 2 x 2 image. *)
Lemma pixel_offset_disjoint_witness :
  let self := Demo.tracer None in
  (pixel_offset self 0 0 + 3 <= pixel_offset self 1 0
   \/ pixel_offset self 1 0 + 3 <= pixel_offset self 0 0)%Z.
Proof.
  intros self.
  assert (Hin : forall k, (k = 0 \/ k = 1)%Z -> (0 <= k < 2)%Z) by lia.
  destruct (pixel_offset_disjoint self 0 0 1 0
              (Hin 0%Z (or_introl eq_refl)) (Hin 0%Z (or_introl eq_refl))
              (Hin 1%Z (or_intror eq_refl)) (Hin 0%Z (or_introl eq_refl))) as [_ H].
  apply H. intros Heq. discriminate Heq.
Defined.

(** X9 on pixel (1, 1) of the 2 x 2 image of the mirrored sphere. *)
Lemma tracePixel_in_image_witness :
  let E := Demo.externals (Demo.ui 1) in
  let self := Demo.tracer (Some Demo.mirrored_sphere) in
  exists self' w', tracePixel self 1 1 Demo.world0 = Done self' w' /\ frame_sized self'.
Proof.
  intros E self.
  let o := eval vm_compute in (pixel_colour self 1 1 Demo.world0) in
  match o with Done ?c ?w' =>
    assert (Hcol : pixel_colour self 1 1 Demo.world0 = Done c w') by (vm_compute; reflexivity);
    pose proof (tracePixel_in_image (E := E) self 1 1 Demo.world0 c w') as Hpixel
  end.
  destruct Hpixel as (self' & Hrun).
  - vm_compute. eauto.
  - eexists. split; [reflexivity|]. reflexivity.
  - vm_compute. intuition discriminate.
  - vm_compute. intuition discriminate.
  - exact Hcol.
  - intros k Hk. assert (Hcases : (k = 0 \/ k = 1 \/ k = 2)%Z) by lia.
    destruct Hcases as [ -> | [ -> | -> ] ]; vm_compute; eauto.
  - eexists. eexists. exact Hrun.
Defined.

(** X10 on the first row of the 2 x 2 image. *)
Lemma traceLines_frame_witness :
  let E := Demo.externals (Demo.ui 1) in
  let self := Demo.tracer (Some Demo.mirrored_sphere) in
  exists self' w',
    traceLines self 0 1 Demo.world0 = Done self' w' /\ frame_rel 0 6 self self'.
Proof.
  intros E self.
  let o := eval vm_compute in (traceLines self 0 1 Demo.world0) in
  match o with Done ?t ?w' =>
    assert (Hrun : traceLines self 0 1 Demo.world0 = Done t w') by (vm_compute; reflexivity);
    exists t, w'
  end.
  split; [exact Hrun|].
  exact (proj1 (traceLines_frame (E := E) self 0 1 Demo.world0 _ _ Hrun)).
Defined.

(** X11 on a worker for the second row, stopped at its fourth read. *)
Lemma RenderWorker_frame_witness :
  let E := Demo.externals (Demo.ui 1) in
  let self := Demo.tracer (Some Demo.mirrored_sphere) in
  exists self' reads w',
    RenderWorker Studio.stop_after_three self 1 2 2 Demo.world0 = Done (self', reads) w'
    /\ frame_rel 6 12 self self'.
Proof.
  intros E self.
  let o := eval vm_compute in (RenderWorker Studio.stop_after_three self 1 2 2 Demo.world0) in
  match o with Done (?t, ?n) ?w' =>
    assert (Hrun : RenderWorker Studio.stop_after_three self 1 2 2 Demo.world0
                   = Done (t, n) w') by (vm_compute; reflexivity);
    exists t, n, w'
  end.
  split; [exact Hrun|].
  refine (RenderWorker_frame (E := E) Studio.stop_after_three self 1 2 2 Demo.world0
            _ _ _ _ Hrun).
  vm_compute. intuition discriminate.
Defined.

(** X12 on a flag that reads set from the first read. *)
Lemma worker_stops_witness :
  let E := Demo.externals (Demo.ui 1) in
  let self := Demo.tracer (Some Demo.mirrored_sphere) in
  worker_rows (fun _ => true) 2 0 2 self 0 Demo.world0 = Done (self, 1%nat) Demo.world0.
Proof.
  intros E self.
  destruct (worker_stops (E := E) (fun _ => true) 1 0 0 2 self 0 Demo.world0) as (_ & H & _).
  - intros k Hk. reflexivity.
  - exact H.
Defined.

(** X13 on the 2 x 2 image of the mirrored sphere. *)
Lemma RenderWorker_traceLines_witness :
  let E := Demo.externals (Demo.ui 1) in
  let self := Demo.tracer (Some Demo.mirrored_sphere) in
  (p ← RenderWorker (fun _ => false) self 0 2 (buffer_width self); mret (fst p)) Demo.world0
  = traceLines self 0 2 Demo.world0.
Proof.
  intros E self.
  apply (RenderWorker_traceLines (E := E) (fun _ => false) self 0 2 Demo.world0).
  - intros k. reflexivity.
  - vm_compute. eauto.
  - vm_compute. intros H. discriminate H.
Defined.

(** X14 with supersampling count 2: four camera rays for a pixel. *)
Lemma tracePixel_camera_rays_witness :
  let E := Demo.externals (Studio.ui_super 1 2) in
  let self := Demo.tracer (Some Demo.mirrored_sphere) in
  exists self' w' evs,
    tracePixel self 0 0 Demo.world0 = Done self' w'
    /\ trail w' = trail Demo.world0 ++ evs
    /\ length (camera_rays evs) = 4%nat.
Proof.
  intros E self.
  let o := eval vm_compute in (tracePixel self 0 0 Demo.world0) in
  match o with Done ?t ?w' =>
    assert (Hrun : tracePixel self 0 0 Demo.world0 = Done t w') by (vm_compute; reflexivity);
    exists t, w'
  end.
  assert (Hscene : is_Some (tracer_scene self)) by (vm_compute; eauto).
  destruct (tracePixel_camera_rays (E := E) self 0 0 Demo.world0 _ _ Hscene Hrun)
    as (evs & Ht & Hlen).
  exists evs. split; [exact Hrun|]. split; [exact Ht|exact Hlen].
Defined.

(** X15 on a primary ray at the mirrored sphere, depth limit 1. *)
Lemma trace_depths_witness :
  let E := Demo.externals (Demo.ui 1) in
  let self := Demo.tracer (Some Demo.mirrored_sphere) in
  exists c w',
    trace self (Some Demo.mirrored_sphere) 0.5 0.5 Demo.world0 = Done c w'
    /\ extends (fun p => (0 <= depth p <= 1)%Z) Demo.world0 w'.
Proof.
  intros E self.
  let o := eval vm_compute in (trace self (Some Demo.mirrored_sphere) 0.5 0.5 Demo.world0) in
  match o with Done ?c ?w' =>
    assert (Hrun : trace self (Some Demo.mirrored_sphere) 0.5 0.5 Demo.world0 = Done c w')
      by (vm_compute; reflexivity);
    exists c, w'
  end.
  split; [exact Hrun|].
  exact (trace_depths (E := E) self _ _ _ Demo.world0 _ _ Hrun).
Defined.

(** X16 from a 2 x 2 frame to a 3 x 2 one. *)
Lemma traceSetup_black_witness :
  let self := Studio.object (Demo.tracer None) false in
  exists self',
    traceSetup self 3 2 Demo.world0 = Done self' Demo.world0
    /\ buffer (members self') = Some (replicate 18 0%Z).
Proof.
  intros self.
  destruct (traceSetup_black self 3 2 Demo.world0) as (self' & Hrun & Hb & _).
  - lia.
  - lia.
  - vm_compute. intros H. discriminate H.
  - right. left. vm_compute. intros H. discriminate H.
  - exists self'. split; [exact Hrun|exact Hb].
Defined.

(** X17 on a tracer fresh from its constructor. *)
Lemma traceSetup_null_buffer_witness :
  traceSetup (RayTracer_new 0) 256 256 Demo.world0 = Undefined.
Proof.
  apply (traceSetup_null_buffer (RayTracer_new 0) 256 256 Demo.world0); reflexivity.
Defined.

(** X18 on the file of the wide scene: 256 x 2 pixels. *)
Lemma loadScene_result_witness :
  let self := Studio.object (Demo.tracer None) false in
  let self' :=
    {| members := {| buffer := Some (map uninitialised (seq 0 1536));
                     buffer_width := 256; buffer_height := 2;
                     tracer_scene := Some Studio.wide_scene |};
       bufferSize := 1536; m_bSceneLoaded := true |} in
  loadScene self "wide.ray" Demo.world0 = Done (true, self') Demo.world0
  /\ frame_sized (members self').
Proof.
  intros self self'.
  assert (Hrun : loadScene self "wide.ray" Demo.world0 = Done (true, self') Demo.world0)
    by (vm_compute; reflexivity).
  split; [exact Hrun|].
  destruct (loadScene_result self "wide.ray" Demo.world0 true self' Demo.world0 Hrun)
    as (_ & s & _ & _ & _ & _ & Hsized & _).
  exact Hsized.
Defined.

(** X19 on the file of the wide scene. *)
Lemma loadScene_succeeds_witness :
  let self := Studio.object (Demo.tracer None) false in
  exists self', loadScene self "wide.ray" Demo.world0 = Done (true, self') Demo.world0
    /\ buffer_height (members self') = 2%Z.
Proof.
  intros self.
  apply (loadScene_succeeds self "wide.ray" Studio.wide_scene 2 Demo.world0).
  - reflexivity.
  - vm_compute. reflexivity.
  - lia.
  - vm_compute. intros H. discriminate H.
Defined.

(** X20 on a file the reader returns null for, after a scene was loaded. *)
Lemma loadScene_stale_flag_witness :
  let E := Demo.externals (Demo.ui 1) in
  let self := Studio.object (Demo.tracer (Some Demo.mirrored_sphere)) true in
  exists self',
    loadScene self "null.ray" Demo.world0 = Done (false, self') Demo.world0
    /\ sceneLoaded self' = true
    /\ tracer_scene (members self') = None.
Proof.
  intros E self.
  destruct (loadScene_stale_flag (E := E) self "null.ray" Demo.world0)
    as (self' & Hrun & Hflag & Hscene & _).
  - reflexivity.
  - reflexivity.
  - exists self'. split; [exact Hrun|]. split; [exact Hflag|exact Hscene].
Defined.

(** X21 on the file of the wide scene, then a 2 x 2 render. *)
Lemma loadScene_traceSetup_witness :
  let self := Studio.object (Demo.tracer None) false in
  let self1 :=
    {| members := {| buffer := Some (map uninitialised (seq 0 1536));
                     buffer_width := 256; buffer_height := 2;
                     tracer_scene := Some Studio.wide_scene |};
       bufferSize := 1536; m_bSceneLoaded := true |} in
  exists self2,
    traceSetup self1 2 2 Demo.world0 = Done self2 Demo.world0
    /\ buffer (members self2) = Some (replicate 12 0%Z).
Proof.
  intros self self1.
  assert (Hrun : loadScene self "wide.ray" Demo.world0 = Done (true, self1) Demo.world0)
    by (vm_compute; reflexivity).
  destruct (loadScene_traceSetup self "wide.ray" Demo.world0 self1 Demo.world0 2 2 Hrun)
    as (self2 & Hsetup & _ & Hb & _).
  - lia.
  - lia.
  - vm_compute. intros H. discriminate H.
  - exists self2. split; [exact Hsetup|exact Hb].
Defined.

(** X22 on five rows and two threads: rows 0, 1 and rows 2, 3, 4. *)
Lemma bands_cover_witness :
  exists l, bands 5 2 = Some l
    /\ Z.of_nat (length l) = 2%Z
    /\ Forall (fun band => 0 <= fst band <= snd band /\ snd band <= 5)%Z l
    /\ concat (map band_rows l) = seqZ 0 5.
Proof.
  apply (bands_cover 5 2); vm_compute; intuition discriminate.
Defined.

End OnStudio.
